(** * gdbus-client: a shallow embedding of the typed D-Bus call layer

    The development follows the two translation units of the library:
    GDBusConverters.cpp (the GVariant side table behind [GDBusVariant], the
    tuple helper [GDBusTuple] and the marshallers) and GDBusClient.cpp (the
    call storage, the proxy cache, [callSync] and the signal main loop).

    GLib itself is outside the library.  Its values are modelled by an
    inductive type, its reference-counted objects by a finite map from
    pointers to a payload and a count, and the functions whose results the
    library only passes on (printing a variant, validating an object path)
    are the methods of the class [GLibExt]. *)

From Stdlib Require Import ZArith Floats.SpecFloat DecimalString.
From stdpp Require Import base numbers strings option gmap fin_maps list.

Set Default Proof Using "Type".
Local Open Scope Z_scope.

(** Addresses of C++ objects ([this] pointers, used as map keys by the
    library) and pointers to GLib objects. *)
Abbreviation addr := N (only parsing).
Abbreviation gpointer := positive (only parsing).

(** A C++ [double] is an IEEE-754 binary64 datum. *)
Abbreviation double := spec_float (only parsing).

(* ================================================================= *)
(** ** Reference-counted objects *)

(** [g_variant_ref]/[g_variant_unref] and [std::shared_ptr] share one
    discipline: an object lives while its count is positive. *)
Module rc.
Section rc.
Context {T : Type}.

Definition ref (p : gpointer) (h : gmap positive (T * positive))
  : gmap positive (T * positive) :=
  alter (λ o, (o.1, Pos.succ o.2)) p h.

Definition unref (p : gpointer) (h : gmap positive (T * positive))
  : gmap positive (T * positive) :=
  match h !! p with
  | Some (x, n) => if decide (n = 1%positive) then delete p h
                   else <[p := (x, Pos.pred n)]> h
  | None => h
  end.

(** A new object gets an address no live object has, with one owner. *)
Definition new (x : T) (h : gmap positive (T * positive))
  : gpointer * gmap positive (T * positive) :=
  let p := fresh (dom h) in (p, <[p := (x, 1%positive)]> h).

Definition deref (p : gpointer) (h : gmap positive (T * positive)) : option T :=
  fst <$> h !! p.

(** [shared_ptr::use_count]: 0 for the empty pointer. *)
Definition use_count (p : option gpointer) (h : gmap positive (T * positive)) : N :=
  match p with
  | Some q => match h !! q with Some (_, n) => Npos n | None => 0%N end
  | None => 0%N
  end.
End rc.
End rc.

(* ================================================================= *)
(** ** GLib values *)

#[warnings="-register-all"] Inductive GVariant : Type :=
| GString (s : string)
| GInt32 (i : Z)
| GUInt32 (i : Z)
| GByte (i : Z)
| GInt16 (i : Z)
| GUInt64 (i : Z)
| GBoolean (b : bool)
| GDouble (x : double)
| GObjectPath (s : string)
| GBoxed (body : GVariant)
| GArray (elems : list GVariant)
| GTuple (items : list GVariant)
| GDictEntry (k v : GVariant)
| GOther (signature : string).

(** The [G_VARIANT_TYPE_*] constants the library tests against. *)
Inductive GVariantType : Type :=
| G_VARIANT_TYPE_STRING | G_VARIANT_TYPE_INT32 | G_VARIANT_TYPE_UINT32
| G_VARIANT_TYPE_BYTE | G_VARIANT_TYPE_INT16 | G_VARIANT_TYPE_UINT64
| G_VARIANT_TYPE_BOOLEAN | G_VARIANT_TYPE_DOUBLE
| G_VARIANT_TYPE_OBJECT_PATH | G_VARIANT_TYPE_VARIANT.

Definition g_variant_is_of_type (gv : GVariant) (t : GVariantType) : bool :=
  match gv, t with
  | GString _, G_VARIANT_TYPE_STRING
  | GInt32 _, G_VARIANT_TYPE_INT32
  | GUInt32 _, G_VARIANT_TYPE_UINT32
  | GByte _, G_VARIANT_TYPE_BYTE
  | GInt16 _, G_VARIANT_TYPE_INT16
  | GUInt64 _, G_VARIANT_TYPE_UINT64
  | GBoolean _, G_VARIANT_TYPE_BOOLEAN
  | GDouble _, G_VARIANT_TYPE_DOUBLE
  | GObjectPath _, G_VARIANT_TYPE_OBJECT_PATH
  | GBoxed _, G_VARIANT_TYPE_VARIANT => true
  | _, _ => false
  end.

(** The typed getters, applied by the library only after the matching
    [g_variant_is_of_type] test. *)
Definition g_variant_get_int32 (gv : GVariant) : Z :=
  match gv with GInt32 i => i | _ => 0 end.
Definition g_variant_get_uint32 (gv : GVariant) : Z :=
  match gv with GUInt32 i => i | _ => 0 end.
Definition g_variant_get_byte (gv : GVariant) : Z :=
  match gv with GByte i => i | _ => 0 end.
Definition g_variant_get_int16 (gv : GVariant) : Z :=
  match gv with GInt16 i => i | _ => 0 end.
Definition g_variant_get_uint64 (gv : GVariant) : Z :=
  match gv with GUInt64 i => i | _ => 0 end.
Definition g_variant_get_boolean (gv : GVariant) : bool :=
  match gv with GBoolean b => b | _ => false end.
Definition g_variant_get_double (gv : GVariant) : double :=
  match gv with GDouble x => x | _ => S754_zero false end.

(** [g_variant_get_string] answers for the string-like types and is NULL
    otherwise. *)
Definition g_variant_get_string (gv : GVariant) : option string :=
  match gv with
  | GString s | GObjectPath s => Some s
  | _ => None
  end.

Definition g_variant_get_variant (gv : GVariant) : option GVariant :=
  match gv with GBoxed body => Some body | _ => None end.

(** [g_variant_n_children]/[g_variant_get_child_value] on a container. *)
Definition g_variant_children (gv : GVariant) : list GVariant :=
  match gv with
  | GArray l | GTuple l => l
  | GBoxed b => [b]
  | GDictEntry k v => [k; v]
  | _ => []
  end.

(** What the library takes from GLib and libc without looking inside. *)
Class GLibExt := {
  g_variant_print : GVariant → string;
  g_utf8_validate : string → bool;
  g_variant_is_object_path : string → bool;
  double_to_string : double → string;
}.

(** [std::string::c_str] read back as a C string stops at the first NUL. *)
Fixpoint c_str (s : string) : string :=
  match s with
  | EmptyString => EmptyString
  | String c r => if decide (c = Ascii.zero) then EmptyString else String c (c_str r)
  end.

(** [std::to_string(int)]. *)
Definition to_string (i : Z) : string := NilZero.string_of_int (Z.to_int i).

(** Conversions between [bool] and [double] made by [static_cast]:
    every datum but the two zeros is [true]; [true] is 1.0. *)
Definition double_one : double := S754_finite false 4503599627370496 (-52).
Definition double_zero : double := S754_zero false.
Definition double_to_bool (x : double) : bool :=
  match x with S754_zero _ => false | _ => true end.
Definition bool_to_double (b : bool) : double :=
  if b then double_one else double_zero.

(* ================================================================= *)
(** ** GDBusConverters.cpp: the side table of variants *)

(** [variant_t] holds one reference to a [GVariant], or none. *)
Record variant_t := mk_variant { gv : option gpointer }.

Module Shadow.

(** The file-scope object [variants] and the GLib objects it refers to. *)
Record state := mk_state {
  objects : gmap positive (GVariant * positive);
  variants : gmap N variant_t;
}.

Definition with_objects (f : gmap positive (GVariant * positive) →
                             gmap positive (GVariant * positive))
           (σ : state) : state :=
  {| objects := f (objects σ); variants := variants σ |}.

Definition with_variants (f : gmap N variant_t → gmap N variant_t)
           (σ : state) : state :=
  {| objects := objects σ; variants := f (variants σ) |}.

(** [variant_t(const variant_t &)]: one more reference. *)
Definition variant_copy (v : variant_t) (σ : state) : variant_t * state :=
  match gv v with
  | Some p => (v, with_objects (rc.ref p) σ)
  | None => (v, σ)
  end.

(** [~variant_t], that is [unref]. *)
Definition variant_destroy (v : variant_t) (σ : state) : state :=
  match gv v with
  | Some p => with_objects (rc.unref p) σ
  | None => σ
  end.

(** [operator bool]. *)
Definition variant_bool (v : variant_t) : bool := bool_decide (gv v ≠ None).

(** [variants_map_t::insert]: [std::map::emplace] keeps an entry that is
    already there; the value that was not taken dies with the argument. *)
Definition insert (key : addr) (v : variant_t) (σ : state) : state :=
  match variants σ !! key with
  | Some _ => variant_destroy v σ
  | None => with_variants (<[key := v]>) σ
  end.

(** [variants_map_t::at]: a copy of the entry, or an empty [variant_t]. *)
Definition at_ (key : addr) (σ : state) : variant_t * state :=
  match variants σ !! key with
  | Some v => variant_copy v σ
  | None => (mk_variant None, σ)
  end.

(** [variants_map_t::erase]. *)
Definition erase (key : addr) (σ : state) : state :=
  match variants σ !! key with
  | Some v => variant_destroy v (with_variants (delete key) σ)
  | None => σ
  end.

(** The [GVariant] a [variant_t] points to. *)
Definition payload (v : variant_t) (σ : state) : option GVariant :=
  p ← gv v; rc.deref p (objects σ).

End Shadow.

(** [GDBusVariant]: an empty class, its address is the key. *)
Module GDBusVariant.
Import Shadow.

(** [GDBusVariant()] stores nothing. *)
Definition ctor (this : addr) (σ : state) : state := σ.

(** [~GDBusVariant]. *)
Definition dtor (this : addr) (σ : state) : state := erase this σ.

(** [GDBusVariant(const GDBusVariant &v)]. *)
Definition ctor_copy (this v : addr) (σ : state) : state :=
  let '(x, σ1) := at_ v σ in insert this x σ1.

(** [operator=]. *)
Definition assign (this v : addr) (σ : state) : state :=
  let σ1 := erase this σ in
  let '(x, σ2) := at_ v σ1 in
  insert this x σ2.

(** The getters: [result] is the second component. The local
    [variant_t v] is a copy and is destroyed on return; the branch for a
    pointer to a freed object is not reached while the counts are right. *)
Definition getInt (this : addr) (σ : state) : (Z * bool) * state :=
  let '(v, σ1) := at_ this σ in
  let r := if variant_bool v then
             match payload v σ1 with
             | Some g => if g_variant_is_of_type g G_VARIANT_TYPE_INT32
                         then (g_variant_get_int32 g, true) else (0, false)
             | None => (0, false)
             end
           else (0, false) in
  (r, variant_destroy v σ1).

Definition getBool (this : addr) (σ : state) : (bool * bool) * state :=
  let '(v, σ1) := at_ this σ in
  let r := if variant_bool v then
             match payload v σ1 with
             | Some g => if g_variant_is_of_type g G_VARIANT_TYPE_BOOLEAN
                         then (g_variant_get_boolean g, true) else (false, false)
             | None => (false, false)
             end
           else (false, false) in
  (r, variant_destroy v σ1).

Definition getDouble (this : addr) (σ : state) : (double * bool) * state :=
  let '(v, σ1) := at_ this σ in
  let r := if variant_bool v then
             match payload v σ1 with
             | Some g => if g_variant_is_of_type g G_VARIANT_TYPE_DOUBLE
                         then (g_variant_get_double g, true)
                         else (double_zero, false)
             | None => (double_zero, false)
             end
           else (double_zero, false) in
  (r, variant_destroy v σ1).

Definition getString (this : addr) (σ : state) : (string * bool) * state :=
  let '(v, σ1) := at_ this σ in
  let r := if variant_bool v then
             match payload v σ1 with
             | Some g => if g_variant_is_of_type g G_VARIANT_TYPE_STRING
                         then (default "" (g_variant_get_string g), true)
                         else ("", false)
             | None => ("", false)
             end
           else ("", false) in
  (r, variant_destroy v σ1).

Definition print `{GLibExt} (this : addr) (σ : state) : string * state :=
  let '(v, σ1) := at_ this σ in
  let r := if variant_bool v then
             match payload v σ1 with
             | Some g => g_variant_print g
             | None => ""
             end
           else "" in
  (r, variant_destroy v σ1).

End GDBusVariant.

(* ================================================================= *)
(** ** GDBusConverters.cpp: tuples *)

Module Tuple.
Import Shadow.

(** [getter_t] is a pointer to one of the four functions [strInt],
    [strDouble], [strBool] and [strString]. *)
Inductive getter_t : Type := strInt | strDouble | strBool | strString.

Record field_ptr := mk_field_ptr { pt : N; getter : getter_t }.

(** [tuple_t]; the vector [vars] is given by the addresses of its
    elements, which are the keys of their side-table entries. *)
Record tuple_t := mk_tuple {
  vars : list N;
  getters : list getter_t;
  handles : list N;
}.

Definition tuple_default : tuple_t :=
  {| vars := []; getters := []; handles := [] |}.

(** The file-scope objects [fields], [tuples] and [curTuple] (a null
    pointer is the address 0), the side table, and the first address the
    allocator has not handed out yet. *)
Record state := mk_state {
  shadow : Shadow.state;
  fields : gmap N field_ptr;
  tuples : gmap N tuple_t;
  curTuple : N;
  brk : N;
}.

Definition with_shadow (f : Shadow.state → Shadow.state) (τ : state) : state :=
  {| shadow := f (shadow τ); fields := fields τ; tuples := tuples τ;
     curTuple := curTuple τ; brk := brk τ |}.

Definition with_tuples (f : gmap N tuple_t → gmap N tuple_t) (τ : state) : state :=
  {| shadow := shadow τ; fields := fields τ; tuples := f (tuples τ);
     curTuple := curTuple τ; brk := brk τ |}.

(** The four getters: the text of the value and, in [res], whether the
    variant had the expected type. *)
Definition call_getter `{GLibExt} (g : getter_t) (v : addr) (σ : Shadow.state)
  : (string * bool) * Shadow.state :=
  match g with
  | strInt =>
      let '((i, res), σ1) := GDBusVariant.getInt v σ in ((to_string i, res), σ1)
  | strDouble =>
      let '((x, res), σ1) := GDBusVariant.getDouble v σ in
      ((double_to_string x, res), σ1)
  | strBool =>
      let '((b, res), σ1) := GDBusVariant.getBool v σ in
      ((to_string (if b then 1 else 0), res), σ1)
  | strString =>
      let '((s, res), σ1) := GDBusVariant.getString v σ in ((s, res), σ1)
  end.

(** [tuple_t::newField]. *)
Definition newField (fh : addr) (g : getter_t) (t : tuple_t) : nat * tuple_t :=
  let t' := {| vars := vars t; getters := getters t ++ [g];
               handles := handles t ++ [fh] |} in
  ((length (getters t') - 1)%nat, t').

(** The loop of [tuple_t::toString] over the elements that are left, with
    the text built so far: the two vectors have the same length and are
    walked together. *)
Fixpoint toString_loop `{GLibExt} (items : list (N * getter_t)) (str : string)
    (σ : Shadow.state) : string * Shadow.state :=
  match items with
  | [] => ("(" +:+ str +:+ ")", σ)
  | (v, g) :: rest =>
      let str1 := str +:+ (if decide (str = "") then "" else " ") in
      let '((s, res), σ1) := call_getter g v σ in
      let str2 := str1 +:+ ("<" +:+ s +:+ ">") in
      if res then toString_loop rest str2 σ1 else ("", σ1)
  end.

(** [tuple_t::toString]. *)
Definition toString `{GLibExt} (t : tuple_t) (σ : Shadow.state)
  : string * Shadow.state :=
  if decide (length (vars t) ≠ length (getters t)) then ("", σ)
  else toString_loop (zip (vars t) (getters t)) "" σ.

(** [vars = variants], the copy assignment of [std::vector<GDBusVariant>]:
    the elements are copy-constructed in a new buffer of [length src]
    one-byte objects, then the old elements are destroyed. (In the branch
    of the standard library that reuses the old buffer the elements are
    assigned in place instead, to the same effect on what each element
    resolves to.) *)
Definition new_buffer (base : N) (n : nat) : list N :=
  (λ i, (base + N.of_nat i)%N) <$> seq 0 n.

Definition copy_elements (dst src : list N) (σ : Shadow.state) : Shadow.state :=
  foldl (λ s ds, GDBusVariant.ctor_copy ds.1 ds.2 s) σ (zip dst src).

Definition destroy_elements (old : list N) (σ : Shadow.state) : Shadow.state :=
  foldl (λ s a, GDBusVariant.dtor a s) σ old.

Definition vector_assign (old src : list N) (τ : state) : list N * state :=
  let new := new_buffer (brk τ) (length src) in
  let σ1 := copy_elements new src (shadow τ) in
  let σ2 := destroy_elements old σ1 in
  (new, {| shadow := σ2; fields := fields τ; tuples := tuples τ;
           curTuple := curTuple τ;
           brk := (brk τ + N.of_nat (length src))%N |}).

(** [tuple_t::assign]: the new value of the tuple and the result. *)
Definition assign `{GLibExt} (variants : list N) (t : tuple_t) (τ : state)
  : (bool * tuple_t) * state :=
  let '(new, τ1) := vector_assign (vars t) variants τ in
  let t' := {| vars := new; getters := getters t; handles := handles t |} in
  let '(s, σ2) := toString t' (shadow τ1) in
  ((bool_decide (s ≠ ""), t'), with_shadow (λ _, σ2) τ1).

(** [addField]: [tuples[ptuple]] creates the entry when it is missing. *)
Definition addField (fh : addr) (ptuple : N) (g : getter_t) (τ : state) : state :=
  {| shadow := shadow τ;
     fields := <[fh := mk_field_ptr ptuple g]> (fields τ);
     tuples := <[ptuple := (newField fh g (default tuple_default (tuples τ !! ptuple))).2]>
                 (tuples τ);
     curTuple := curTuple τ; brk := brk τ |}.

End Tuple.

(** [GDBusTuple] and the field classes declared inside it. *)
Module GDBusTuple.
Import Tuple.

(** [GDBusTuple::GDBusTuple()]. *)
Definition ctor (this : addr) (τ : state) : state :=
  {| shadow := shadow τ; fields := fields τ;
     tuples := delete this (tuples τ);
     curTuple := this; brk := brk τ |}.

(** [pint::pint()], [pdouble::pdouble()], [pbool::pbool()],
    [pstring::pstring()]. *)
Definition pint (this : addr) (τ : state) : state := addField this (curTuple τ) strInt τ.
Definition pdouble (this : addr) (τ : state) : state := addField this (curTuple τ) strDouble τ.
Definition pbool (this : addr) (τ : state) : state := addField this (curTuple τ) strBool τ.
Definition pstring (this : addr) (τ : state) : state := addField this (curTuple τ) strString τ.

(** The constructor of a class derived from [GDBusTuple] that declares the
    members [members] (the type of each field and its address, in
    declaration order): the base class first, then the members. *)
Definition field_ctor (g : getter_t) : addr → state → state :=
  match g with
  | strInt => pint | strDouble => pdouble | strBool => pbool | strString => pstring
  end.

Definition derived_ctor (this : addr) (members : list (getter_t * N)) (τ : state)
  : state :=
  foldl (λ s m, field_ctor m.1 m.2 s) (ctor this τ) members.

(** [GDBusTuple::assign]. *)
Definition assign `{GLibExt} (this : addr) (variants : list N) (τ : state)
  : bool * state :=
  let t := default tuple_default (tuples τ !! this) in
  let '((r, t'), τ1) := Tuple.assign variants t τ in
  (r, with_tuples (<[this := t']>) τ1).

(** [GDBusTuple::toString]. *)
Definition toString `{GLibExt} (this : addr) (τ : state) : string * state :=
  let t := default tuple_default (tuples τ !! this) in
  let '(s, σ1) := Tuple.toString t (shadow τ) in
  (s, with_tuples (<[this := t]>) (with_shadow (λ _, σ1) τ)).

End GDBusTuple.
(* ================================================================= *)
(** ** GDBusConverters.cpp: marshallers and unmarshallers *)

(** The constructors of GLib values the marshallers call.
    [g_variant_new_string] refuses a text that is not valid UTF-8 and
    returns NULL. *)
Definition g_variant_new_string `{GLibExt} (s : string) : option GVariant :=
  if g_utf8_validate s then Some (GString s) else None.

(** [g_variant_new_variant] of a NULL argument is NULL. *)
Definition g_variant_new_variant (body : option GVariant) : option GVariant :=
  GBoxed <$> body.

Module converters.

(** The tag types of the namespace [GDBusType]. *)
Inductive GDBusType : Type :=
| TYPE_S | TYPE_I | TYPE_U | TYPE_Y | TYPE_N | TYPE_T | TYPE_B | TYPE_D
| TYPE_O | TYPE_V | TYPE_AS | TYPE_AO | TYPE_DICT | TYPE_VDICT | TYPE_ATUP
| TYPE_ANY.

Definition gType (T : GDBusType) : string :=
  match T with
  | TYPE_S => "s" | TYPE_I => "i" | TYPE_U => "u" | TYPE_Y => "y"
  | TYPE_N => "n" | TYPE_T => "t" | TYPE_B => "b" | TYPE_D => "d"
  | TYPE_O => "o" | TYPE_V => "v" | TYPE_AS => "as" | TYPE_AO => "ao"
  | TYPE_DICT => "a{ss}" | TYPE_VDICT => "a{sv}" | TYPE_ATUP => "a(*)"
  | TYPE_ANY => "*"
  end.

(** The overload sets [marshal] and [unmarshal], resolved by the tag and
    the C++ type of the value. A marshaller returns a [GVariant] or NULL;
    an unmarshaller gets the current content of the variable it writes to
    and returns its result with the new content.

    The overloads for the scalar types, for [TYPE_V] and for [TYPE_ANY]
    follow. The array and dictionary overloads walk their argument with
    [g_variant_iter_loop], which GLib leaves undefined on a child of
    another type than the format names; they are not part of this
    development, and [callSync] below takes the closures of the parameters
    as they come. *)
Class Marshaller (T : GDBusType) (V : Type) := marshal : V → option GVariant.
Class Unmarshaller (T : GDBusType) (V : Type) := unmarshal : GVariant → V → bool * V.
Arguments marshal T {V _} _.
Arguments unmarshal T {V _} _ _.

Section overloads.
Context `{GLibExt}.

#[export] Instance marshal_S : Marshaller TYPE_S string :=
  λ s, g_variant_new_string (c_str s).

#[export] Instance unmarshal_S : Unmarshaller TYPE_S string :=
  λ gv s,
    if g_variant_is_of_type gv G_VARIANT_TYPE_STRING
    then (true, default "" (g_variant_get_string gv))
    else (false, s).

#[export] Instance marshal_I : Marshaller TYPE_I Z := λ i, Some (GInt32 i).

#[export] Instance unmarshal_I : Unmarshaller TYPE_I Z :=
  λ gv i,
    if g_variant_is_of_type gv G_VARIANT_TYPE_INT32
    then (true, g_variant_get_int32 gv)
    else (false, i).

#[export] Instance marshal_U : Marshaller TYPE_U Z := λ i, Some (GUInt32 i).

#[export] Instance unmarshal_U : Unmarshaller TYPE_U Z :=
  λ gv i,
    if g_variant_is_of_type gv G_VARIANT_TYPE_UINT32
    then (true, g_variant_get_uint32 gv)
    else (false, i).

#[export] Instance marshal_Y : Marshaller TYPE_Y Z := λ b, Some (GByte b).

#[export] Instance unmarshal_Y : Unmarshaller TYPE_Y Z :=
  λ gv b,
    if g_variant_is_of_type gv G_VARIANT_TYPE_BYTE
    then (true, g_variant_get_byte gv)
    else (false, b).

#[export] Instance marshal_N : Marshaller TYPE_N Z := λ i, Some (GInt16 i).

#[export] Instance unmarshal_N : Unmarshaller TYPE_N Z :=
  λ gv i,
    if g_variant_is_of_type gv G_VARIANT_TYPE_INT16
    then (true, g_variant_get_int16 gv)
    else (false, i).

#[export] Instance marshal_T : Marshaller TYPE_T Z := λ b, Some (GUInt64 b).

#[export] Instance unmarshal_T : Unmarshaller TYPE_T Z :=
  λ gv b,
    if g_variant_is_of_type gv G_VARIANT_TYPE_UINT64
    then (true, g_variant_get_uint64 gv)
    else (false, b).

#[export] Instance marshal_B : Marshaller TYPE_B bool := λ b, Some (GBoolean b).

#[export] Instance unmarshal_B : Unmarshaller TYPE_B bool :=
  λ gv b,
    if g_variant_is_of_type gv G_VARIANT_TYPE_BOOLEAN
    then (true, g_variant_get_boolean gv)
    else (false, b).

#[export] Instance marshal_D : Marshaller TYPE_D double := λ x, Some (GDouble x).

(** [x = static_cast<bool>(g_variant_get_double(gv))]: the double goes
    through [bool] on its way to [x]. *)
#[export] Instance unmarshal_D : Unmarshaller TYPE_D double :=
  λ gv x,
    if g_variant_is_of_type gv G_VARIANT_TYPE_DOUBLE
    then (true, bool_to_double (double_to_bool (g_variant_get_double gv)))
    else (false, x).

#[export] Instance marshal_O : Marshaller TYPE_O string :=
  λ path,
    if g_variant_is_object_path (c_str path)
    then Some (GObjectPath (c_str path))
    else None.

#[export] Instance unmarshal_O : Unmarshaller TYPE_O string :=
  λ gv path,
    if g_variant_is_of_type gv G_VARIANT_TYPE_OBJECT_PATH
    then (true, default "" (g_variant_get_string gv))
    else (false, path).

#[export] Instance marshal_V : Marshaller TYPE_V string :=
  λ v, g_variant_new_variant (g_variant_new_string (c_str v)).

#[export] Instance unmarshal_V : Unmarshaller TYPE_V string :=
  λ gv _,
    match (if g_variant_is_of_type gv G_VARIANT_TYPE_VARIANT
           then g_variant_get_variant gv else None) with
    | Some body => (true, g_variant_print body)
    | None => (false, "")
    end.

(** [g_variant_print] never returns NULL. *)
#[export] Instance unmarshal_ANY : Unmarshaller TYPE_ANY string :=
  λ g _, (true, g_variant_print g).

End overloads.
End converters.
(* ================================================================= *)
(** ** GDBusClient.cpp: the signal main loop *)

Module Loop.

(** The function-local statics of [mainLoopInstance]. Their
    initialisers run once, on the first invocation; [initialised] is the
    guard the compiler keeps for them. [context] tells whether the static
    pointer is non-null, [loop] is the [GMainLoop] the static pointer
    refers to, given by its [is_running] flag, or [None] for a null
    pointer. *)
Record statics := mk_statics {
  initialised : bool;
  context : bool;
  loop : option bool;
}.

(** The world the loop runs in: the readings of the steady clock in
    milliseconds, and whether a callback dispatched by the k-th iteration of
    the context calls [stopProcessingSignals]. *)
Record env := mk_env {
  now : nat → N;
  stops : nat → bool;
}.

Record state := mk_state {
  st : statics;
  reads : nat;
  iterations : nat;
}.

Definition start : statics :=
  {| initialised := false; context := false; loop := None |}.

(** [mainLoopInstance]: the value of the loop pointer (non-null or not)
    and the statics afterwards. [g_main_context_new] and [g_main_loop_new]
    do not fail; the loop is created running. *)
Definition mainLoopInstance (s : statics) : bool * statics :=
  let s1 := if initialised s then s
            else {| initialised := true; context := true; loop := Some true |} in
  let s2 := if context s1
            then {| initialised := initialised s1; context := false; loop := loop s1 |}
            else s1 in
  let s3 := match loop s2 with
            | Some false =>
                {| initialised := initialised s2; context := context s2; loop := None |}
            | _ => s2
            end in
  (bool_decide (loop s3 ≠ None), s3).

(** [g_main_loop_quit]. *)
Definition g_main_loop_quit (s : statics) : statics :=
  {| initialised := initialised s; context := context s;
     loop := (λ _, false) <$> loop s |}.

(** [stopProcessingSignals]. *)
Definition stopProcessingSignals (s : statics) : statics :=
  let '(l, s1) := mainLoopInstance s in
  if l then (mainLoopInstance (g_main_loop_quit s1)).2 else s1.

Definition WAIT_FOREVER : N := 4294967295.


Definition tick (σ : state) : state :=
  {| st := st σ; reads := S (reads σ); iterations := iterations σ |}.

(** One [g_main_context_iteration]: the callbacks it dispatches may stop
    the loop. *)
Definition g_main_context_iteration (e : env) (σ : state) : state :=
  {| st := if stops e (iterations σ) then stopProcessingSignals (st σ) else st σ;
     reads := reads σ; iterations := S (iterations σ) |}.

(** The [for] loop of [waitAndProcessSignals]. Each round tests the
    condition first; [fuel] bounds the number of rounds and [None] means
    the bound was reached with the loop still going. *)
Fixpoint wait_loop (e : env) (wait_msec t_end : N) (fuel : nat) (σ : state)
  : option state :=
  let '(l, s1) := mainLoopInstance (st σ) in
  let σ1 := {| st := s1; reads := reads σ; iterations := iterations σ |} in
  if negb l then Some σ1
  else
    let '(go, σ2) :=
      if decide (wait_msec = WAIT_FOREVER) then (true, σ1)
      else (bool_decide (now e (reads σ1) < t_end)%N, tick σ1) in
    if negb go then Some σ2
    else match fuel with
         | O => None
         | S fuel' =>
             let '(l', s3) := mainLoopInstance (st σ2) in
             let σ3 := {| st := s3; reads := reads σ2; iterations := iterations σ2 |} in
             let σ4 := if l' then g_main_context_iteration e σ3 else σ3 in
             wait_loop e wait_msec t_end fuel' σ4
         end.

(** [waitAndProcessSignals]. The wake-up timer that [loop_timeout_t]
    attaches to the context only decides when an iteration returns; it is
    part of [env]. *)
Definition waitAndProcessSignals (e : env) (wait_msec : N) (fuel : nat) (σ : state)
  : option (bool * state) :=
  let '(_, s0) := mainLoopInstance (st σ) in
  let σ0 := {| st := s0; reads := reads σ; iterations := iterations σ |} in
  let t_end := (now e (reads σ0) + wait_msec)%N in
  σ1 ← wait_loop e wait_msec t_end fuel (tick σ0);
  let '(l, s2) := mainLoopInstance (st σ1) in
  Some (l, {| st := s2; reads := reads σ1; iterations := iterations σ1 |}).

End Loop.
(* ================================================================= *)
(** ** GDBusClient.cpp *)

(** [GError] and the part of gio's enumeration [GDBusError] the client
    mentions. The domain [G_DBUS_ERROR] is a quark chosen when the process
    runs. *)
Record GError := mk_error { domain : N; code : Z; message : string }.

Definition G_DBUS_ERROR_SERVICE_UNKNOWN : Z := 2.
Definition G_DBUS_ERROR_ACCESS_DENIED : Z := 9.
Definition G_DBUS_ERROR_DISCONNECTED : Z := 15.

(** Names that GLib validates and the quark of the D-Bus error domain. *)
Class GDBusExt := {
  G_DBUS_ERROR : N;
  g_dbus_is_name : string → bool;
  g_dbus_is_interface_name : string → bool;
  g_dbus_is_member_name : string → bool;
}.

(** The values of the parameters of a call, by C++ type. A vector of
    [GDBusVariant] is given by the addresses of its elements. *)
Inductive native : Type :=
| n_string (s : string)
| n_int (i : Z)
| n_bool (b : bool)
| n_double (x : double)
| n_str_arr (l : list string)
| n_dict (m : gmap string string)
| n_tuple_arr (rows : list (list N)).

(** A type [V] of values that a [GDBusParam<_, _, V>] can hold;
    [value_init] is the value written by [value = {}]. *)
Class Cell (V : Type) := {
  to_native : V → native;
  of_native : native → option V;
  value_init : V;
}.

#[export] Instance cell_string : Cell string :=
  {| to_native := n_string;
     of_native := λ n, match n with n_string s => Some s | _ => None end;
     value_init := "" |}.
#[export] Instance cell_int : Cell Z :=
  {| to_native := n_int;
     of_native := λ n, match n with n_int i => Some i | _ => None end;
     value_init := 0 |}.
#[export] Instance cell_bool : Cell bool :=
  {| to_native := n_bool;
     of_native := λ n, match n with n_bool b => Some b | _ => None end;
     value_init := false |}.
#[export] Instance cell_double : Cell double :=
  {| to_native := n_double;
     of_native := λ n, match n with n_double x => Some x | _ => None end;
     value_init := double_zero |}.
#[export] Instance cell_str_arr : Cell (list string) :=
  {| to_native := n_str_arr;
     of_native := λ n, match n with n_str_arr l => Some l | _ => None end;
     value_init := [] |}.
#[export] Instance cell_dict : Cell (gmap string string) :=
  {| to_native := n_dict;
     of_native := λ n, match n with n_dict m => Some m | _ => None end;
     value_init := ∅ |}.
#[export] Instance cell_tuple_arr : Cell (list (list N)) :=
  {| to_native := n_tuple_arr;
     of_native := λ n, match n with n_tuple_arr r => Some r | _ => None end;
     value_init := [] |}.

(** The memory the closures of the parameters work on: the [value]
    members of the [GDBusParam] objects, by address, and the side table
    behind the [GDBusVariant]s some of them contain. *)
Record mem := mk_mem {
  cells : gmap N native;
  shadow : Shadow.state;
}.

(** The destructor of a value. *)
Definition release (old : native) (σ : Shadow.state) : Shadow.state :=
  match old with
  | n_tuple_arr rows => foldl (λ s row, Tuple.destroy_elements row s) σ rows
  | _ => σ
  end.

(** [par->value = x] and a read of [par->value]. *)
Definition store {V} `{Cell V} (par : addr) (x : V) (m : mem) : mem :=
  {| cells := <[par := to_native x]> (cells m);
     shadow := match cells m !! par with
               | Some old => release old (shadow m)
               | None => shadow m
               end |}.

Definition load {V} `{Cell V} (par : addr) (m : mem) : V :=
  default value_init (cells m !! par ≫= of_native).

Module Client.

(** [obj_desc_t]. *)
Record obj_desc_t := mk_obj { name : string; path : string; iface : string }.

(** [std::regex_replace(name, "[.]", "/")]. *)
Fixpoint dots_to_slashes (s : string) : string :=
  match s with
  | EmptyString => EmptyString
  | String c r =>
      String (if decide (c = Ascii.ascii_of_nat 46) then Ascii.ascii_of_nat 47 else c)
             (dots_to_slashes r)
  end.

Definition fromName (obj_name : string) : obj_desc_t :=
  {| name := obj_name; path := "/" +:+ dots_to_slashes obj_name; iface := obj_name |}.

(** [gerror_t::errcode_t], [errorMap] and [errType]. *)
Inductive errcode_t : Type :=
| NOERR | SERVICE_UNKNOWN | SERVER_DISCONNECT | ACCESS_DENIED | UNSPECIFIED.

#[export] Instance errcode_eq_dec : EqDecision errcode_t.
Proof. solve_decision. Defined.

Definition errorMap `{GDBusExt} : gmap (N * Z) errcode_t :=
  {[ (G_DBUS_ERROR, G_DBUS_ERROR_SERVICE_UNKNOWN) := SERVICE_UNKNOWN;
     (G_DBUS_ERROR, G_DBUS_ERROR_DISCONNECTED) := SERVER_DISCONNECT;
     (G_DBUS_ERROR, G_DBUS_ERROR_ACCESS_DENIED) := ACCESS_DENIED ]}.

Definition errType `{GDBusExt} (err : option GError) : errcode_t :=
  match err with
  | None => NOERR
  | Some e =>
      default UNSPECIFIED (errorMap !! (domain e, code e))
  end.

(** What [logAssert] reports. *)
Inductive diagnostic : Type :=
| d_gerror (kind : errcode_t) (e : GError)
| d_invalid_name (text : string)
| d_invalid_path (text : string)
| d_invalid_iface (text : string)
| d_invalid_method (text : string)
| d_ownership (call_info : string) (n_owners n_users : N)
| d_destroyed
| d_no_call_instance
| d_stray_parameter
| d_marshalling (name type : string)
| d_unmarshalling (name type : string)
| d_no_proxy (obj_name : string)
| d_null (expr : string).

(** What a run does that can be seen from outside; the call of a cleanup
    closure is recorded too. *)
Inductive event : Type :=
| ev_log (func : string) (d : diagnostic)
| ev_sleep (msec : N)
| ev_proxy_new (obj : obj_desc_t) (result : option gpointer)
| ev_call (proxy : gpointer) (method : string) (in_tuple : GVariant)
| ev_cleanup (name : string).

(** [param_t]; an empty [std::function] is [None]. *)
Record param_t := mk_param {
  p_name : string;
  p_type : string;
  marshal : option (mem → option GVariant);
  unmarshal : option (GVariant → mem → bool * mem);
  cleanup : mem → mem;
}.

(** [call_t]. *)
Record call_t := mk_call {
  params : list param_t;
  object : obj_desc_t;
  method : string;
}.

(** [proxy_t]; [proxy] is the pointer to the [GDBusProxy] or null. *)
Record proxy_t := mk_proxy { proxy : option gpointer; obj_name : string }.

Inductive Policy : Type := USE_EXISTING | RECREATE.

#[export] Instance policy_eq_dec : EqDecision Policy.
Proof. solve_decision. Defined.

(** The bus: what the k-th creation of a proxy and the k-th method call
    answer. *)
Record bus_t := mk_bus {
  proxy_new : nat → obj_desc_t → option GError;
  call_sync : nat → gpointer → string → GVariant → GError + GVariant;
}.

(** The process: the statics of the translation unit, the objects they
    own, the memory of the parameters, the number of requests made to the
    bus so far and the trace. [calls] maps the address of a [GDBusCall] to
    a [shared_ptr<call_t>], null or a pointer into [call_heap]. *)
Record world := mk_world {
  calls : gmap N (option gpointer);
  call_heap : gmap positive (call_t * positive);
  storage_destroyed : bool;
  callUnderConstruction : N;
  proxies : gmap string proxy_t;
  gproxies : gset positive;
  main_loop : Loop.statics;
  memory : mem;
  n_new : nat;
  n_call : nat;
  trace : list event;
}.

Definition set_calls (f : gmap N (option gpointer) → gmap N (option gpointer))
    (w : world) : world :=
  {| calls := f (calls w); call_heap := call_heap w;
     storage_destroyed := storage_destroyed w;
     callUnderConstruction := callUnderConstruction w;
     proxies := proxies w; gproxies := gproxies w; main_loop := main_loop w;
     memory := memory w; n_new := n_new w; n_call := n_call w; trace := trace w |}.

Definition set_call_heap
    (f : gmap positive (call_t * positive) → gmap positive (call_t * positive))
    (w : world) : world :=
  {| calls := calls w; call_heap := f (call_heap w);
     storage_destroyed := storage_destroyed w;
     callUnderConstruction := callUnderConstruction w;
     proxies := proxies w; gproxies := gproxies w; main_loop := main_loop w;
     memory := memory w; n_new := n_new w; n_call := n_call w; trace := trace w |}.

Definition set_callUnderConstruction (p : N) (w : world) : world :=
  {| calls := calls w; call_heap := call_heap w;
     storage_destroyed := storage_destroyed w;
     callUnderConstruction := p;
     proxies := proxies w; gproxies := gproxies w; main_loop := main_loop w;
     memory := memory w; n_new := n_new w; n_call := n_call w; trace := trace w |}.

Definition set_proxies (f : gmap string proxy_t → gmap string proxy_t)
    (w : world) : world :=
  {| calls := calls w; call_heap := call_heap w;
     storage_destroyed := storage_destroyed w;
     callUnderConstruction := callUnderConstruction w;
     proxies := f (proxies w); gproxies := gproxies w; main_loop := main_loop w;
     memory := memory w; n_new := n_new w; n_call := n_call w; trace := trace w |}.

Definition set_gproxies (f : gset positive → gset positive) (w : world) : world :=
  {| calls := calls w; call_heap := call_heap w;
     storage_destroyed := storage_destroyed w;
     callUnderConstruction := callUnderConstruction w;
     proxies := proxies w; gproxies := f (gproxies w); main_loop := main_loop w;
     memory := memory w; n_new := n_new w; n_call := n_call w; trace := trace w |}.

Definition set_main_loop (s : Loop.statics) (w : world) : world :=
  {| calls := calls w; call_heap := call_heap w;
     storage_destroyed := storage_destroyed w;
     callUnderConstruction := callUnderConstruction w;
     proxies := proxies w; gproxies := gproxies w; main_loop := s;
     memory := memory w; n_new := n_new w; n_call := n_call w; trace := trace w |}.

Definition set_memory (f : mem → mem) (w : world) : world :=
  {| calls := calls w; call_heap := call_heap w;
     storage_destroyed := storage_destroyed w;
     callUnderConstruction := callUnderConstruction w;
     proxies := proxies w; gproxies := gproxies w; main_loop := main_loop w;
     memory := f (memory w); n_new := n_new w; n_call := n_call w;
     trace := trace w |}.

Definition set_n_new (n : nat) (w : world) : world :=
  {| calls := calls w; call_heap := call_heap w;
     storage_destroyed := storage_destroyed w;
     callUnderConstruction := callUnderConstruction w;
     proxies := proxies w; gproxies := gproxies w; main_loop := main_loop w;
     memory := memory w; n_new := n; n_call := n_call w; trace := trace w |}.

Definition set_n_call (n : nat) (w : world) : world :=
  {| calls := calls w; call_heap := call_heap w;
     storage_destroyed := storage_destroyed w;
     callUnderConstruction := callUnderConstruction w;
     proxies := proxies w; gproxies := gproxies w; main_loop := main_loop w;
     memory := memory w; n_new := n_new w; n_call := n; trace := trace w |}.

Definition emit (e : event) (w : world) : world :=
  {| calls := calls w; call_heap := call_heap w;
     storage_destroyed := storage_destroyed w;
     callUnderConstruction := callUnderConstruction w;
     proxies := proxies w; gproxies := gproxies w; main_loop := main_loop w;
     memory := memory w; n_new := n_new w; n_call := n_call w;
     trace := trace w ++ [e] |}.

(** Computations on the process. *)
Definition M (A : Type) : Type := world → A * world.
Definition ret {A} (a : A) : M A := λ w, (a, w).
Definition bind {A B} (m : M A) (k : A → M B) : M B :=
  λ w, let '(a, w1) := m w in k a w1.
Definition modify (f : world → world) : M unit := λ w, (tt, f w).
Definition gets {A} (f : world → A) : M A := λ w, (f w, w).

Local Notation "x <- m ;; k" := (bind m (λ x, k))
  (at level 100, m at next level, right associativity).
Local Notation "m ;;; k" := (bind m (λ _, k))
  (at level 100, right associativity).

Section client.
Context `{GLibExt} `{GDBusExt} (bus : bus_t).

(** [logAssert]. *)
Definition logAssert (func : string) (f : bool) (err : diagnostic) : M bool :=
  (if f then ret tt else modify (emit (ev_log func err)));;;
  ret f.

(** [gerror_t::verboseCheckNoErr]. *)
Definition gerror_verboseCheckNoErr (func : string) (err : option GError) : M bool :=
  match err with
  | None => ret true
  | Some e => logAssert func false (d_gerror (errType err) e)
  end.

(** [call_t::verboseCheckNoErr]; all four names are checked. *)
Definition call_verboseCheckNoErr (func : string) (c : call_t) : M bool :=
  g1 <- logAssert func (g_dbus_is_name (c_str (name (object c))))
          (d_invalid_name (name (object c)));;
  g2 <- logAssert func (g_variant_is_object_path (c_str (path (object c))))
          (d_invalid_path (path (object c)));;
  g3 <- logAssert func (g_dbus_is_interface_name (c_str (iface (object c))))
          (d_invalid_iface (iface (object c)));;
  g4 <- logAssert func (g_dbus_is_member_name (c_str (method c)))
          (d_invalid_method (method c));;
  ret (g4 && (g3 && (g2 && (g1 && true)))).

(** [call_t(obj_desc_t, std::string)]. *)
Definition call_ctor (obj : obj_desc_t) (method : string) : M call_t :=
  let c := {| params := []; object := obj; method := method |} in
  call_verboseCheckNoErr "call_t" c;;;
  ret c.

(** *** [call_storage_t] *)

(** [call_guard_t] wraps a copy of the shared pointer. *)
Record call_guard_t := mk_guard { call : option gpointer }.

(** [call_guard_t::verboseCheckOwnership]. *)
Definition verboseCheckOwnership (g : call_guard_t) (n_owners : N) (func : string)
  : M bool :=
  heap <- gets call_heap;;
  let call_info :=
    match call g ≫= (λ p, rc.deref p heap) with
    | Some c => iface (object c) +:+ ":" +:+ method c
    | None => ""
    end in
  let n_users := rc.use_count (call g) heap in
  logAssert func (bool_decide (n_users = n_owners) || bool_decide (n_users = 0%N))
    (d_ownership call_info n_owners n_users).

(** [call_storage_t::verboseStateCheck]. *)
Definition verboseStateCheck (func : string) : M bool :=
  destroyed <- gets storage_destroyed;;
  logAssert func (negb destroyed) d_destroyed.

(** [~call_guard_t]: the check, then the release of the pointer. *)
Definition guard_dtor (g : call_guard_t) : M unit :=
  destroyed <- gets storage_destroyed;;
  (if destroyed then ret true else verboseCheckOwnership g 2 "~call_guard_t");;;
  match call g with
  | Some p => modify (set_call_heap (rc.unref p))
  | None => ret tt
  end.

(** [call_storage_t::add]: [emplace] keeps an entry that is already
    there, and the new object dies with its only owner. *)
Definition add (p : addr) (c : call_t) : M unit :=
  ok <- verboseStateCheck "add";;
  if ok then
    present <- gets (λ w, calls w !! p);;
    match present with
    | Some _ => ret tt
    | None =>
        heap <- gets call_heap;;
        let '(q, heap') := rc.new c heap in
        modify (set_call_heap (λ _, heap'));;;
        modify (set_calls (<[p := Some q]>))
    end
  else ret tt.

(** [call_storage_t::get]. [calls[p]] creates an entry with a null
    pointer when there is none. The constructor of the guard copies the
    pointer ([call{ptr}] names an lvalue), so the entry keeps its own. When
    the check fails the local guard is destroyed, with a second report,
    and an empty guard is returned. *)
Definition get (p : addr) : M call_guard_t :=
  ok <- verboseStateCheck "get";;
  if ok then
    present <- gets (λ w, calls w !! p);;
    (match present with
     | Some _ => ret tt
     | None => modify (set_calls (<[p := None]>))
     end);;;
    let ptr := default None present in
    (match ptr with
     | Some q => modify (set_call_heap (rc.ref q))
     | None => ret tt
     end);;;
    let guard := {| call := ptr |} in
    owned <- verboseCheckOwnership guard 2 "get";;
    if owned then ret guard
    else guard_dtor guard;;; ret {| call := None |}
  else ret {| call := None |}.

(** [call_storage_t::remove]. *)
Definition remove (p : addr) : M unit :=
  ok <- verboseStateCheck "remove";;
  if ok then
    present <- gets (λ w, calls w !! p);;
    match present with
    | Some ptr =>
        modify (set_calls (delete p));;;
        match ptr with
        | Some q => modify (set_call_heap (rc.unref q))
        | None => ret tt
        end
    | None => ret tt
    end
  else ret tt.

(** *** [proxy_t] *)

(** [proxy_t(const obj_desc_t &)]. The context switcher calls
    [mainLoopInstance]; a proxy that was created is a new GLib object. *)
Definition proxy_ctor (obj : obj_desc_t) : M proxy_t :=
  modify (λ w, set_main_loop (Loop.mainLoopInstance (main_loop w)).2 w);;;
  k <- gets n_new;;
  modify (set_n_new (S k));;;
  match proxy_new bus k obj with
  | None =>
      live <- gets gproxies;;
      let q := fresh live in
      modify (set_gproxies (λ g, {[q]} ∪ g));;;
      modify (emit (ev_proxy_new obj (Some q)));;;
      ret {| proxy := Some q; obj_name := name obj |}
  | Some e =>
      modify (emit (ev_proxy_new obj None));;;
      gerror_verboseCheckNoErr "proxy_t" (Some e);;;
      ret {| proxy := None; obj_name := name obj |}
  end.

(** [g_clear_object(&proxy)]. *)
Definition g_clear_object (p : option gpointer) : M unit :=
  match p with
  | Some q => modify (set_gproxies (λ g, g ∖ {[q]}))
  | None => ret tt
  end.

(** [proxy_t::operator=(proxy_t &&q)] followed by the destructor of the
    temporary [q]: the new value of the left-hand side. *)
Definition proxy_assign (dst q : proxy_t) : M proxy_t :=
  if decide (proxy dst ≠ proxy q) then
    g_clear_object (proxy dst);;;
    ret {| proxy := proxy q; obj_name := obj_name q |}
  else
    g_clear_object (proxy q);;;
    ret dst.

(** [proxy_t::verboseCheckNoErr]. *)
Definition proxy_verboseCheckNoErr (func : string) (p : proxy_t) : M bool :=
  logAssert func (bool_decide (proxy p ≠ None)) (d_no_proxy (obj_name p)).

(** [proxy_t::instanceFor]; [proxies[target]] creates an empty entry when
    there is none. *)
Definition target_of (obj : obj_desc_t) : string :=
  name obj +:+ " " +:+ path obj +:+ " " +:+ iface obj.

Definition instanceFor (obj : obj_desc_t) (policy : Policy) : M proxy_t :=
  let target := target_of obj in
  cached <- gets (λ w, default {| proxy := None; obj_name := "" |}
                         (proxies w !! target));;
  modify (set_proxies (<[target := cached]>));;;
  if bool_decide (policy = RECREATE) || bool_decide (proxy cached = None) then
    created <- proxy_ctor obj;;
    updated <- proxy_assign cached created;;
    modify (set_proxies (<[target := updated]>));;;
    ret updated
  else ret cached.

(** [n] lookups in a row, as made by [n] calls that share the target. *)
Fixpoint lookups (obj : obj_desc_t) (policy : Policy) (n : nat) : M (list proxy_t) :=
  match n with
  | O => ret []
  | S k =>
      px <- instanceFor obj policy;;
      rest <- lookups obj policy k;;
      ret (px :: rest)
  end.

(** *** [param_t] and [GDBusParam] *)

Definition MAX_CALL_BODY_SIZE : N := 4 * 1024.

(** The size of [GDBusCall], a class with a virtual table pointer and no
    data member; [call + MAX_CALL_BODY_SIZE] is pointer arithmetic on
    [const GDBusCall *]. *)
Definition sizeof_GDBusCall : N := 8.

(** [param_t::verboseCheckNoErr]. *)
Definition param_verboseCheckNoErr (func : string) (gdbus_par : addr) (call : addr)
  : M bool :=
  let par_in_call :=
    bool_decide (call ≤ gdbus_par)%N &&
    bool_decide (gdbus_par < call + MAX_CALL_BODY_SIZE * sizeof_GDBusCall)%N in
  good <- logAssert func (bool_decide (call ≠ 0%N)) d_no_call_instance;;
  if good then logAssert func par_in_call d_stray_parameter else ret false.

(** The constructor of [param_t] for an input parameter. *)
Definition param_in (T : converters.GDBusType) {V : Type}
    `{!converters.Marshaller T V} `{!Cell V}
    (par : addr) (name : string) (v : V) : M param_t :=
  cuc <- gets callUnderConstruction;;
  ok <- param_verboseCheckNoErr "param_t" par cuc;;
  if ok then
    modify (set_memory (store par v));;;
    ret {| p_name := name; p_type := converters.gType T;
           marshal := Some (λ m, converters.marshal T (load (V:=V) par m));
           unmarshal := None;
           cleanup := λ m, m |}
  else
    ret {| p_name := name; p_type := converters.gType T;
           marshal := None; unmarshal := None; cleanup := λ m, m |}.

(** The cleanup closure of an output parameter: [par->value = {}]. *)
Definition reset (V : Type) `{!Cell V} (par : addr) : mem → mem :=
  store par (value_init (V:=V)).

(** The constructor of [param_t] for an output parameter. *)
Definition param_out (T : converters.GDBusType) {V : Type}
    `{!converters.Unmarshaller T V} `{!Cell V}
    (par : addr) (name : string) (v : V) : M param_t :=
  cuc <- gets callUnderConstruction;;
  ok <- param_verboseCheckNoErr "param_t" par cuc;;
  if ok then
    modify (set_memory (store par v));;;
    ret {| p_name := name; p_type := converters.gType T;
           marshal := None;
           unmarshal := Some (λ gv m,
             let '(r, x) := converters.unmarshal T gv (load (V:=V) par m) in
             (r, store par x m));
           cleanup := reset V par |}
  else
    ret {| p_name := name; p_type := converters.gType T;
           marshal := None; unmarshal := None; cleanup := reset V par |}.

(** [param_t::moveIntoCall]. *)
Definition moveIntoCall (p : param_t) : M unit :=
  cuc <- gets callUnderConstruction;;
  call_guard <- get cuc;;
  (match call call_guard with
   | Some q =>
       modify (set_call_heap
         (alter (λ o, ({| params := params o.1 ++ [p]; object := object o.1;
                          method := method o.1 |}, o.2)) q))
   | None => ret tt
   end);;;
  guard_dtor call_guard.

(** The constructors of [GDBusParam] that [PARAM_CTOR] defines. *)
Definition GDBusParam_in (T : converters.GDBusType) {V : Type}
    `{!converters.Marshaller T V} `{!Cell V}
    (this : addr) (param_name : string) (v : V) : M unit :=
  p <- param_in T this param_name v;;
  moveIntoCall p.

Definition GDBusParam_out (T : converters.GDBusType) {V : Type}
    `{!converters.Unmarshaller T V} `{!Cell V}
    (this : addr) (param_name : string) (v : V) : M unit :=
  p <- param_out T this param_name v;;
  moveIntoCall p.

(** *** [GDBusCall] *)

(** The two constructors of [GDBusCall]: from an object descriptor and
    from an object name. *)
Definition GDBusCall_ctor (this : addr) (obj : obj_desc_t) (method : string)
  : M unit :=
  modify (set_callUnderConstruction this);;;
  c <- call_ctor obj method;;
  add this c.

Definition GDBusCall_ctor_name (this : addr) (obj_name method : string) : M unit :=
  GDBusCall_ctor this (fromName obj_name) method.

(** [~GDBusCall]. *)
Definition GDBusCall_dtor (this : addr) : M unit :=
  remove this;;;
  cuc <- gets callUnderConstruction;;
  if decide (cuc = this) then modify (set_callUnderConstruction 0%N) else ret tt.

(** [~call_cleanup_guard_t]. *)
Fixpoint run_cleanup (ps : list param_t) : M unit :=
  match ps with
  | [] => ret tt
  | p :: rest =>
      modify (set_memory (cleanup p));;;
      modify (emit (ev_cleanup (p_name p)));;;
      run_cleanup rest
  end.

Definition cleanup_guard_dtor (c : call_t) (result : bool) : M unit :=
  if result then ret tt else run_cleanup (params c).

(** The first loop of [callSync]: the marshalled input parameters, or
    [None] when one of them gave NULL and [callSync] returns false. *)
Fixpoint marshal_inputs (ps : list param_t) (in_variants : list GVariant)
  : M (option (list GVariant)) :=
  match ps with
  | [] => ret (Some in_variants)
  | in_param :: rest =>
      match marshal in_param with
      | Some f =>
          in_variant <- gets (λ w, f (memory w));;
          ok <- logAssert "callSync" (bool_decide (in_variant ≠ None))
                  (d_marshalling (p_name in_param) (p_type in_param));;
          match in_variant with
          | Some v => marshal_inputs rest (in_variants ++ [v])
          | None => ret None
          end
      | None => marshal_inputs rest in_variants
      end
  end.

Definition MAX_ATTEMPTS : nat := 3.
Definition WAIT_MS : N := 250.

Definition retriableErrors : list errcode_t := [SERVICE_UNKNOWN; SERVER_DISCONNECT].

(** [g_dbus_proxy_call_sync]. *)
Definition g_dbus_proxy_call_sync (p : gpointer) (method : string) (in_tuple : GVariant)
  : M (GError + GVariant) :=
  k <- gets n_call;;
  modify (set_n_call (S k));;;
  modify (emit (ev_call p method in_tuple));;;
  ret (call_sync bus k p method in_tuple).

(** How the retry loop of [callSync] ends: by the [return false] inside
    it, or by leaving the loop with [out_tuple] and [err]. *)
Inductive loop_exit : Type :=
| returned_false
| left_loop (out_tuple : option GVariant) (err : option GError).

(** The part of a round of the retry loop after the test of the
    previous error: the proxy, the call, and the next round ([again]) when
    the call fails. *)
Definition attempt_call (c : call_t) (in_tuple : GVariant) (proxy_policy : Policy)
    (again : GError → M loop_exit) : M loop_exit :=
  px <- instanceFor (object c) proxy_policy;;
  valid <- proxy_verboseCheckNoErr "callSync" px;;
  match proxy px with
  | None => ret returned_false
  | Some p =>
      reply <- g_dbus_proxy_call_sync p (c_str (method c)) in_tuple;;
      match reply with
      | inr out_tuple => ret (left_loop (Some out_tuple) None)
      | inl e => again e
      end
  end.

(** The retry loop, entered with [out_tuple] null, [attempts] rounds left
    and the error of the previous round in [err]. *)
Fixpoint retry_loop (c : call_t) (in_tuple : GVariant) (attempts : nat)
    (err : option GError) : M loop_exit :=
  match attempts with
  | O => ret (left_loop None err)
  | S attempts' =>
      let proxy_policy :=
        if decide (attempts = MAX_ATTEMPTS) then USE_EXISTING else RECREATE in
      let round :=
        attempt_call c in_tuple proxy_policy
          (λ e, retry_loop c in_tuple attempts' (Some e)) in
      if bool_decide (errType err ∈ retriableErrors) then
        modify (emit (ev_sleep WAIT_MS));;;
        round
      else if bool_decide (errType err ≠ NOERR) then ret (left_loop None err)
      else round
  end.

(** The last loop of [callSync]: one reply field per output parameter,
    in order. *)
Fixpoint unmarshal_outputs (ps : list param_t) (out_variants : list GVariant)
  : M bool :=
  match ps with
  | [] => ret true
  | out_param :: rest =>
      match unmarshal out_param with
      | Some f =>
          match out_variants with
          | [] => ret false
          | v :: more =>
              r <- (λ w, let '(r, m) := f v (memory w) in
                         (r, set_memory (λ _, m) w));;
              ok <- logAssert "callSync" r
                      (d_unmarshalling (p_name out_param) (p_type out_param));;
              if ok then unmarshal_outputs rest more else ret false
          end
      | None => unmarshal_outputs rest out_variants
      end
  end.

(** [callSync] between the construction of [cleanup_guard] and the
    [return] statements. *)
Definition callSync_body (c : call_t) : M bool :=
  ins <- marshal_inputs (params c) [];;
  match ins with
  | None => ret false
  | Some in_variants =>
      let in_tuple := GTuple in_variants in
      exit <- retry_loop c in_tuple MAX_ATTEMPTS None;;
      match exit with
      | returned_false => ret false
      | left_loop out_tuple err =>
          no_err <- gerror_verboseCheckNoErr "callSync" err;;
          if negb no_err then ret false
          else
            match out_tuple with
            | None => logAssert "callSync" false (d_null "out_tuple");;; ret false
            | Some t => unmarshal_outputs (params c) (g_variant_children t)
            end
      end
  end.

(** [GDBusCall::callSync]. The locals are destroyed on return in the
    reverse order of their construction: the cleanup guard, then the call
    guard. *)
Definition callSync (this : addr) : M bool :=
  call_guard <- get this;;
  heap <- gets call_heap;;
  match call call_guard ≫= (λ p, rc.deref p heap) with
  | None => guard_dtor call_guard;;; ret false
  | Some c =>
      result <- callSync_body c;;
      cleanup_guard_dtor c result;;;
      guard_dtor call_guard;;;
      ret result
  end.

End client.
End Client.
(* ================================================================= *)
(** ** GDBusClient.cpp: signals *)

Module Signals.
Import Client.

Section signals.
(** What the callbacks of the application work on. *)
Context {U : Type}.

(** [GDBusSignal::callback_t], a [std::function] taking the name of the
    sender and the name of the signal; an empty one is [None]. *)
Definition callback_t : Type := option (string → string → U → U).

(** [signal_storage_t] with the state of the application beside it. *)
Record state := mk_state {
  signal_map : gmap string (list callback_t);
  user : U;
}.

(** [signal_storage_t::key]. *)
Definition key (sender_name sig_name : string) : string :=
  sender_name +:+ " " +:+ sig_name.

(** [signal_storage_t::add]; [signal_map[k]] creates an empty vector
    when there is none. *)
Definition add (sender : obj_desc_t) (signal_name : string) (callback : callback_t)
    (s : state) : state :=
  let k := key (name sender) signal_name in
  {| signal_map := <[k := default [] (signal_map s !! k) ++ [callback]]> (signal_map s);
     user := user s |}.

(** [signal_storage_t::get] returns a copy of the vector. *)
Definition get (sender_name signal_name : string) (s : state)
  : list callback_t * state :=
  let k := key sender_name signal_name in
  let callbacks := default [] (signal_map s !! k) in
  (callbacks, {| signal_map := <[k := callbacks]> (signal_map s); user := user s |}).

(** The call of one callback of the vector. *)
Definition invoke (sender_name signal_name : string) (u : U) (callback : callback_t)
  : U :=
  match callback with
  | Some f => f sender_name signal_name u
  | None => u
  end.

(** [onSignal]; [obj_name] is the user data the handler was connected
    with, the name of the object of the proxy. *)
Definition onSignal (signal_name obj_name : string) (s : state) : state :=
  let sender_name := obj_name in
  let '(callbacks, s1) := get sender_name signal_name s in
  {| signal_map := signal_map s1;
     user := foldl (invoke sender_name signal_name) (user s1) callbacks |}.

(** The two overloads of [GDBusSignal::registerCallback]. *)
Definition registerCallback_desc `{GDBusExt} (bus : bus_t) (sender : obj_desc_t)
    (signal_name : string) (callback : callback_t) (sw : state * world)
  : bool * (state * world) :=
  let s1 := add sender signal_name callback sw.1 in
  let '(px, w1) := instanceFor bus sender USE_EXISTING sw.2 in
  let '(r, w2) := proxy_verboseCheckNoErr "registerCallback" px w1 in
  (r, (s1, w2)).

Definition registerCallback `{GDBusExt} (bus : bus_t) (sender_name signal_name : string)
    (callback : callback_t) (sw : state * world) : bool * (state * world) :=
  registerCallback_desc bus (fromName sender_name) signal_name callback sw.

End signals.

Arguments callback_t : clear implicits.
Arguments state : clear implicits.

End Signals.
(* ================================================================= *)
(** ** GDBusConverters.cpp: the fields of a tuple and its life cycle *)

Module Fields.
Import Shadow Tuple.

Definition with_fields (f : gmap N field_ptr → gmap N field_ptr) (τ : state) : state :=
  {| shadow := shadow τ; fields := f (fields τ); tuples := tuples τ;
     curTuple := curTuple τ; brk := brk τ |}.

Definition with_curTuple (p : N) (τ : state) : state :=
  {| shadow := shadow τ; fields := fields τ; tuples := tuples τ;
     curTuple := p; brk := brk τ |}.

(** [std::find] over [handles] followed by [std::distance] from its
    beginning: the position of the first occurrence, or the length. *)
Fixpoint find_pos (fh : N) (hs : list N) : nat :=
  match hs with
  | [] => O
  | h :: rest => if decide (h = fh) then O else S (find_pos fh rest)
  end.

(** [tuple_t::getVarByHandle]. The result is a [GDBusVariant] returned
    by value: it is built in the object at [ret], the temporary of the
    caller, as a copy of [vars[pos]] or by the default constructor. *)
Definition getVarByHandle (fh ret : addr) (t : tuple_t) (σ : Shadow.state)
  : Shadow.state :=
  match vars t !! find_pos fh (handles t) with
  | Some a => GDBusVariant.ctor_copy ret a σ
  | None => GDBusVariant.ctor ret σ
  end.

(** [delField]. *)
Definition delField (fh : addr) (τ : state) : state := with_fields (delete fh) τ.

(** [getField]. *)
Definition getField (fh ret : addr) (τ : state) : state :=
  match fields τ !! fh with
  | None => with_shadow (GDBusVariant.ctor ret) τ
  | Some fp =>
      match tuples τ !! pt fp with
      | None => with_shadow (GDBusVariant.ctor ret) τ
      | Some tuple => with_shadow (getVarByHandle fh ret tuple) τ
      end
  end.

(** The conversion operators of the field classes: the getter is
    applied to the temporary that [getField] returned, and the temporary
    is destroyed at the end of the full expression. The flag goes to
    [unusedResult]. *)
Definition pint_to_int (this ret : addr) (τ : state) : Z * state :=
  let τ1 := getField this ret τ in
  let '((i, _), σ2) := GDBusVariant.getInt ret (shadow τ1) in
  (i, with_shadow (λ _, GDBusVariant.dtor ret σ2) τ1).

Definition pdouble_to_double (this ret : addr) (τ : state) : double * state :=
  let τ1 := getField this ret τ in
  let '((x, _), σ2) := GDBusVariant.getDouble ret (shadow τ1) in
  (x, with_shadow (λ _, GDBusVariant.dtor ret σ2) τ1).

Definition pbool_to_bool (this ret : addr) (τ : state) : bool * state :=
  let τ1 := getField this ret τ in
  let '((b, _), σ2) := GDBusVariant.getBool ret (shadow τ1) in
  (b, with_shadow (λ _, GDBusVariant.dtor ret σ2) τ1).

Definition pstring_to_string (this ret : addr) (τ : state) : string * state :=
  let τ1 := getField this ret τ in
  let '((s, _), σ2) := GDBusVariant.getString ret (shadow τ1) in
  (s, with_shadow (λ _, GDBusVariant.dtor ret σ2) τ1).

(** [tuples.erase(p)]: the [tuple_t] dies with its vector [vars], whose
    elements are destroyed from the first to the last. *)
Definition erase_tuple (p : addr) (τ : state) : state :=
  match tuples τ !! p with
  | Some t =>
      with_tuples (delete p) (with_shadow (destroy_elements (vars t)) τ)
  | None => τ
  end.

(** [GDBusTuple::~GDBusTuple]. *)
Definition dtor (this : addr) (τ : state) : state :=
  with_curTuple 0 (erase_tuple this τ).

(** [field::~field]. *)
Definition field_dtor (this : addr) (τ : state) : state := delField this τ.

(** The destructor of a class derived from [GDBusTuple] whose members are
    at [members], in declaration order: the members are destroyed in
    reverse order, then the base class. *)
Definition derived_dtor (this : addr) (members : list N) (τ : state) : state :=
  dtor this (foldl (λ s m, field_dtor m s) τ (reverse members)).

End Fields.
(* ================================================================= *)
(** ** GDBusConverters.cpp: arrays of tuples *)

(** Two more tests of GLib. The containers are the variant, the array,
    the tuple and the dictionary entry; [GOther] stands for the basic types
    the library has no marshaller for. *)
Definition g_variant_type_is_array (gv : GVariant) : bool :=
  match gv with GArray _ => true | _ => false end.

Definition g_variant_is_container (gv : GVariant) : bool :=
  match gv with
  | GBoxed _ | GArray _ | GTuple _ | GDictEntry _ _ => true
  | _ => false
  end.

Module Atup.
Import Shadow Tuple.

(** A [std::vector<GDBusVariant>]: the address of its buffer, the number
    of elements and the capacity. A [GDBusVariant] takes one byte, so the
    element [i] is at [base + i]. *)
Record vector := mk_vector { base : N; size : nat; capacity : nat }.

Definition vector_empty : vector := {| base := 0; size := 0; capacity := 0 |}.

Definition elements (v : vector) : list N := new_buffer (base v) (size v).

(** [&v.back()]. *)
Definition back (v : vector) : N := (base v + N.of_nat (size v - 1))%N.

Definition with_brk (f : N → N) (τ : state) : state :=
  {| shadow := shadow τ; fields := fields τ; tuples := tuples τ;
     curTuple := curTuple τ; brk := f (brk τ) |}.

Section growth.
(** The capacity a full vector of a given size grows to; the standard
    leaves the choice to the implementation. *)
Variable grow : nat → nat.

(** [v.emplace_back()]. The new element is default-constructed and
    stores nothing. In a full vector the elements move to a new buffer
    first: [GDBusVariant] has a copy constructor and no move constructor,
    so they are copy-constructed there and the old ones are destroyed. *)
Definition emplace_back (v : vector) (τ : state) : vector * state :=
  if decide (size v < capacity v)%nat then
    ({| base := base v; size := S (size v); capacity := capacity v |}, τ)
  else
    let new := new_buffer (brk τ) (size v) in
    let σ1 := copy_elements new (elements v) (shadow τ) in
    let σ2 := destroy_elements (elements v) σ1 in
    ({| base := brk τ; size := S (size v); capacity := grow (size v) |},
     with_brk (λ b, (b + N.of_nat (grow (size v)))%N) (with_shadow (λ _, σ2) τ)).

(** The inner loop of [unmarshal(TYPE_ATUP, ...)] over the fields of one
    tuple: [g_variant_iter_next_value] gives a new reference to the field,
    which the entry of the new element takes over. *)
Fixpoint fill_row (fields : list GVariant) (v : vector) (τ : state)
  : vector * state :=
  match fields with
  | [] => (v, τ)
  | field :: rest =>
      let '(p, os) := rc.new field (objects (shadow τ)) in
      let τ0 := with_shadow (with_objects (λ _, os)) τ in
      let '(v1, τ1) := emplace_back v τ0 in
      let τ2 := with_shadow (Shadow.insert (back v1) (mk_variant (Some p))) τ1 in
      fill_row rest v1 τ2
  end.

(** The outer loop, over the children of the array; a child that is not
    a container is passed over. The reference to the child itself is taken
    and dropped within the round. The rows are given by the addresses of
    their elements; a row that is complete does not move any more, since
    the outer vector moves its rows when it grows. *)
Fixpoint fill_rows (children : list GVariant) (arr : list (list N)) (τ : state)
  : list (list N) * state :=
  match children with
  | [] => (arr, τ)
  | tuple :: rest =>
      if g_variant_is_container tuple then
        let '(row, τ1) := fill_row (g_variant_children tuple) vector_empty τ in
        fill_rows rest (arr ++ [elements row]) τ1
      else fill_rows rest arr τ
  end.

(** [unmarshal(TYPE_ATUP, g, arr)]: the result, the new content of [arr]
    and the state. [arr.clear()] destroys the rows that were there. *)
Definition unmarshal_ATUP (g : GVariant) (arr : list (list N)) (τ : state)
  : (bool * list (list N)) * state :=
  let τ0 := with_shadow (release (n_tuple_arr arr)) τ in
  if g_variant_type_is_array g then
    let '(rows, τ1) := fill_rows (g_variant_children g) [] τ0 in
    ((true, rows), τ1)
  else ((false, []), τ0).

End growth.
End Atup.
(* ================================================================= *)
(** ** GDBusConverters.cpp: the vector of a tuple and its capacity *)

(** [vars = variants] in [tuple_t::assign] is the copy assignment of
    [std::vector<GDBusVariant>], which has three branches. [Tuple.vector_assign]
    is the first of them, the one taken after the constructor, when the
    vector owns no buffer. Here the vector is given with its buffer and
    its capacity, as in [Atup], and all the branches are followed. *)
Module Vars.
Import Shadow Tuple Atup.

(** [std::copy] onto elements that exist: each is assigned with
    [GDBusVariant::operator=], from the first to the last. *)
Definition assign_elements (dst src : list N) (σ : Shadow.state) : Shadow.state :=
  foldl (λ s ds, GDBusVariant.assign ds.1 ds.2 s) σ (zip dst src).

(** [v = x], for the vector [x] whose elements are at [src], as the GNU
    C++ library has it. Nothing is done when [x] is [v] itself: two
    vectors share no element, so [src] is [elements v] for [v] itself, or
    for two empty vectors, and then the other branches do nothing either.
    When the capacity of [v] is too small the
    elements are copy-constructed in a new buffer of [length src] objects
    and the old ones are destroyed. Otherwise the buffer stays: when [v]
    has as many elements as [x] or more, the first are assigned and the
    others destroyed; when it has fewer, its elements are assigned and the
    missing ones are copy-constructed behind them. *)
Definition copy_assign (v : vector) (src : list N) (τ : state) : vector * state :=
  let n := length src in
  if decide (src = elements v) then (v, τ)
  else if decide (capacity v < n)%nat then
    ({| base := brk τ; size := n; capacity := n |},
     (vector_assign (elements v) src τ).2)
  else if decide (n ≤ size v)%nat then
    let σ1 := assign_elements (new_buffer (base v) n) src (shadow τ) in
    let σ2 :=
      destroy_elements (new_buffer (base v + N.of_nat n) (size v - n)) σ1 in
    ({| base := base v; size := n; capacity := capacity v |},
     with_shadow (λ _, σ2) τ)
  else
    let σ1 := assign_elements (elements v) (take (size v) src) (shadow τ) in
    let σ2 :=
      copy_elements (new_buffer (base v + N.of_nat (size v)) (n - size v))
        (drop (size v) src) σ1 in
    ({| base := base v; size := n; capacity := capacity v |},
     with_shadow (λ _, σ2) τ).

(** [tuple_t::assign] on a tuple whose vector [vars] is [v]: the result,
    the vector afterwards, and the state. *)
Definition tuple_assign `{GLibExt} (v : vector) (gs : list getter_t) (hs : list N)
    (variants : list N) (τ : state) : (bool * vector) * state :=
  let '(v', τ1) := copy_assign v variants τ in
  let t' := {| vars := elements v'; getters := gs; handles := hs |} in
  let '(s, σ2) := toString t' (shadow τ1) in
  ((bool_decide (s ≠ ""), v'), with_shadow (λ _, σ2) τ1).

End Vars.
(* ================================================================= *)
(** ** Notions used in the statements *)

Module Inv.
Import Shadow.

(** What a handle resolves to: the variant its entry points to. *)
Definition resolve (σ : state) (a : addr) : option GVariant :=
  v ← variants σ !! a; payload v σ.

(** The owners of an object that the side table accounts for, and the
    count GLib keeps for it. *)
Definition refs (vs : gmap N variant_t) (p : gpointer) : nat :=
  size (filter (λ kv : N * variant_t, gv kv.2 = Some p) vs).

Definition count (os : gmap positive (GVariant * positive)) (p : gpointer) : nat :=
  match os !! p with
  | Some (_, n) => Pos.to_nat n
  | None => O
  end.

(** Every reference held by an entry is counted. *)
Definition consistent (σ : state) : Prop :=
  ∀ p, (refs (variants σ) p ≤ count (objects σ) p)%nat.

(** The type each getter looks for. *)
Definition expected (g : Tuple.getter_t) : GVariantType :=
  match g with
  | Tuple.strInt => G_VARIANT_TYPE_INT32
  | Tuple.strDouble => G_VARIANT_TYPE_DOUBLE
  | Tuple.strBool => G_VARIANT_TYPE_BOOLEAN
  | Tuple.strString => G_VARIANT_TYPE_STRING
  end.

(** A field of type [g] extracts its scalar from what a handle resolves to. *)
Definition extracts (g : Tuple.getter_t) (o : option GVariant) : bool :=
  match o with
  | Some x => g_variant_is_of_type x (expected g)
  | None => false
  end.

End Inv.

(** The world with one more owner of the call object [q]: what an acquire
    that succeeds leaves. *)
Definition held (q : gpointer) (w : Client.world) : Client.world :=
  Client.set_call_heap (rc.ref q) w.

(** What the statements about [callSync] look at in a trace: the calls
    sent to the bus, the sleeps, and the calls of cleanup closures. *)
Inductive step : Type :=
| attempt
| sleep (msec : N)
| reset_of (name : string).

Definition observe (e : Client.event) : option step :=
  match e with
  | Client.ev_call _ _ _ => Some attempt
  | Client.ev_sleep ms => Some (sleep ms)
  | Client.ev_cleanup n => Some (reset_of n)
  | _ => None
  end.

Definition steps (tr : list Client.event) : list step := omap observe tr.

Definition bus_step (s : step) : Prop :=
  match s with reset_of _ => False | _ => True end.

(** The parts of the process that only the call storage writes. *)
Definition same_storage (w w' : Client.world) : Prop :=
  Client.calls w' = Client.calls w
  ∧ Client.call_heap w' = Client.call_heap w
  ∧ Client.storage_destroyed w' = Client.storage_destroyed w.

(** An error that makes [callSync] try again. *)
Definition retriable `{GDBusExt} (e : GError) : Prop :=
  Client.errType (Some e) ∈ Client.retriableErrors.

(** Every input parameter marshals to a variant in the memory [m]. *)
Definition inputs_marshal (c : Client.call_t) (m : mem) : Prop :=
  Forall (λ p, ∀ f, Client.marshal p = Some f → is_Some (f m)) (Client.params c).

(** What the cleanup closure of a parameter does: nothing for an input
    parameter; for an output parameter it writes the initial value of
    the type into the cell of the parameter. *)
Inductive binding (p : Client.param_t) : option (N * native) → Prop :=
| binding_in : Client.cleanup p = (λ m, m) → binding p None
| binding_out (V : Type) `{!Cell V} (par : N) :
    Client.cleanup p = Client.reset V par →
    binding p (Some (par, to_native (value_init (V:=V)))).

(** The steps of a call that is tried [n] times in a row, the first time
    right away when there is no previous error. *)
Definition retries (n : nat) : list step :=
  concat (replicate n [sleep Client.WAIT_MS; attempt]).

Definition plan (n : nat) (err : option GError) : list step :=
  match err, n with
  | Some _, _ => retries n
  | None, O => []
  | None, S k => attempt :: retries k
  end.

(** The proxy cache owns its proxies: the proxy of an entry is a live
    GLib object, and no two entries hold the same one. *)
Definition pool_ok (w : Client.world) : Prop :=
  (∀ t px p, Client.proxies w !! t = Some px → Client.proxy px = Some p →
     p ∈ Client.gproxies w)
  ∧ (∀ t1 t2 px1 px2 p,
       Client.proxies w !! t1 = Some px1 → Client.proxies w !! t2 = Some px2 →
       Client.proxy px1 = Some p → Client.proxy px2 = Some p → t1 = t2).

(** The proxy that the cache holds for the target of [obj], if any, and
    the set of the objects it stands for. *)
Definition cached_proxy (obj : Client.obj_desc_t) (w : Client.world) : option gpointer :=
  Client.proxies w !! Client.target_of obj ≫= Client.proxy.

Definition proxy_set (o : option gpointer) : gset positive :=
  match o with Some p => {[p]} | None => ∅ end.
(* ================================================================= *)
(** ** Notions used in the further statements *)

(** The element of [vars] that a field reads: the one at the position of
    the handle of the field among the handles of its tuple. *)
Definition field_source (fh : N) (τ : Tuple.state) : option N :=
  fp ← Tuple.fields τ !! fh;
  t ← Tuple.tuples τ !! Tuple.pt fp;
  Tuple.vars t !! Fields.find_pos fh (Tuple.handles t).

(** The scalars a variant gives to the four kinds of field. *)
Definition int_of (o : option GVariant) : Z :=
  match o with Some (GInt32 i) => i | _ => 0 end.
Definition double_of (o : option GVariant) : double :=
  match o with Some (GDouble x) => x | _ => double_zero end.
Definition bool_of (o : option GVariant) : bool :=
  match o with Some (GBoolean b) => b | _ => false end.
Definition string_of (o : option GVariant) : string :=
  match o with Some (GString s) => s | _ => "" end.

(** The side table is within the allocated addresses. *)
Definition allocated (τ : Tuple.state) : Prop :=
  ∀ a, is_Some (Shadow.variants (Tuple.shadow τ) !! a) → (a < Tuple.brk τ)%N.

(** What the last loop of [callSync] does to the memory of the
    parameters, the reports left aside. *)
Fixpoint decode (ps : list Client.param_t) (outs : list GVariant) (m : mem)
  : bool * mem :=
  match ps with
  | [] => (true, m)
  | p :: rest =>
      match Client.unmarshal p with
      | Some f =>
          match outs with
          | [] => (false, m)
          | v :: more =>
              let '(r, m1) := f v m in
              if r then decode rest more m1 else (false, m1)
          end
      | None => decode rest outs m
      end
  end.

(** The number of output parameters of a call that are bound. *)
Definition n_outputs (ps : list Client.param_t) : nat :=
  length (omap Client.unmarshal ps).

(** The counters of the requests made to the bus: proxies asked for
    and method calls sent. *)
Definition counters (w : Client.world) : nat * nat :=
  (Client.n_new w, Client.n_call w).

(** Whether a name contains a space; D-Bus names do not. *)
Fixpoint has_space (s : string) : bool :=
  match s with
  | EmptyString => false
  | String c r => bool_decide (c = Ascii.ascii_of_nat 32) || has_space r
  end.

(** The statics of [mainLoopInstance] while the loop is alive, and after
    it was stopped. *)
Definition loop_alive : Loop.statics :=
  {| Loop.initialised := true; Loop.context := false; Loop.loop := Some true |}.

Definition loop_gone : Loop.statics :=
  {| Loop.initialised := true; Loop.context := false; Loop.loop := None |}.

(** The marshallers and the unmarshallers of the five integer types, in
    the order [TYPE_I], [TYPE_U], [TYPE_Y], [TYPE_N], [TYPE_T]. *)
Section integer_types.
Import converters.

Definition int_marshallers : list (Z → option GVariant) :=
  [marshal TYPE_I; marshal TYPE_U; marshal TYPE_Y; marshal TYPE_N; marshal TYPE_T].

Definition int_unmarshallers : list (GVariant → Z → bool * Z) :=
  [unmarshal TYPE_I; unmarshal TYPE_U; unmarshal TYPE_Y; unmarshal TYPE_N;
   unmarshal TYPE_T].

End integer_types.

(** A row of handles holds the given variants, one by one. *)
Definition row_holds (σ : Shadow.state) (row : list N) (vals : list GVariant) : Prop :=
  Forall2 (λ a f, Inv.resolve σ a = Some f) row vals.

(** No entry of the side table refers to the object [p]. *)
Definition unheld (σ : Shadow.state) (p : positive) : Prop :=
  ∀ a v, Shadow.variants σ !! a = Some v → gv v ≠ Some p.

(** A vector of handles that is being filled, in a state [τ]: its buffer
    is within the allocated addresses and was allocated at or after [b0],
    and the slots behind its elements hold no entry. *)
Definition vec_ok (b0 : N) (v : Atup.vector) (τ : Tuple.state) : Prop :=
  (Atup.size v ≤ Atup.capacity v)%nat
  ∧ (Atup.base v + N.of_nat (Atup.capacity v) ≤ Tuple.brk τ)%N
  ∧ (Atup.capacity v = O ∨ (b0 ≤ Atup.base v)%N)
  ∧ ∀ i, (Atup.size v ≤ i < Atup.capacity v)%nat →
         Shadow.variants (Tuple.shadow τ) !! (Atup.base v + N.of_nat i)%N = None.

(** The rows of a decoded array hold the fields of the tuples they were
    made from. *)
Definition rows_hold (σ : Shadow.state) (rows : list (list N))
    (children : list GVariant) : Prop :=
  Forall2 (λ row c, row_holds σ row (g_variant_children c)) rows children.

(** The tuples of a reply that [unmarshal(TYPE_ATUP, ...)] makes rows of. *)
Definition decoded_children (g : GVariant) : list GVariant :=
  if g_variant_type_is_array g
  then List.filter g_variant_is_container (g_variant_children g)
  else [].

(** The addresses of the buffer of a vector, elements and spare slots. *)
Definition storage (v : Atup.vector) : list N :=
  Tuple.new_buffer (Atup.base v) (Atup.capacity v).
(* ================================================================= *)
(** ** Sample data for the examples *)

Module Sample.

(** An instance of the external functions: strings print quoted, 32-bit
    integers in decimal, an object path starts with a slash. *)
Definition glib : GLibExt :=
  {| g_variant_print := λ g,
       match g with
       | GString s => "'" +:+ s +:+ "'"
       | GInt32 i => to_string i
       | GBoolean b => if b then "true" else "false"
       | _ => "?"
       end;
     g_utf8_validate := λ _, true;
     g_variant_is_object_path := λ s,
       match s with String c _ => bool_decide (c = Ascii.ascii_of_nat 47) | _ => false end;
     double_to_string := λ x,
       match x with S754_zero _ => "0.000000" | _ => "1.000000" end |}.

#[local] Existing Instance glib.
Import converters.

(** The double 2.5, in the canonical form of binary64. *)
Definition two_and_a_half : double := S754_finite false 5629499534213120 (-51).

(** The handle at address 5 owns the only reference to the integer 7; a
    second variant, the integer 9, is owned by the caller. *)
Definition store : Shadow.state :=
  {| Shadow.objects := {[ 1%positive := (GInt32 7, 1%positive);
                          2%positive := (GInt32 9, 1%positive) ]};
     Shadow.variants := {[ 5%N := mk_variant (Some 1%positive) ]} |}.

(** A decoded row ("eth0", 7): two handles at 10 and 11. *)
Definition row_store : Shadow.state :=
  {| Shadow.objects := {[ 1%positive := (GString "eth0", 1%positive);
                          2%positive := (GInt32 7, 1%positive) ]};
     Shadow.variants := {[ 10%N := mk_variant (Some 1%positive);
                           11%N := mk_variant (Some 2%positive) ]} |}.

(** [struct SITuple : GDBusTuple { pstring name; pint value; }] built at
    address 100, its members at 101 and 102. *)
Definition si_tuple : Tuple.state :=
  GDBusTuple.derived_ctor 100
    [(Tuple.strString, 101%N); (Tuple.strInt, 102%N)]
    {| Tuple.shadow := row_store; Tuple.fields := ∅; Tuple.tuples := ∅;
       Tuple.curTuple := 0; Tuple.brk := 200 |}.

(** A clock that advances 10 ms per reading and callbacks that never stop
    the loop. *)
Definition quiet : Loop.env :=
  {| Loop.now := λ k, (10 * N.of_nat k)%N; Loop.stops := λ _, false |}.

Definition process_start : Loop.state :=
  {| Loop.st := Loop.start; Loop.reads := 0; Loop.iterations := 0 |}.



(** The D-Bus side: a quark for the error domain and names that GLib
    accepts when they are not empty. *)
Definition dbus : GDBusExt :=
  {| G_DBUS_ERROR := 42;
     g_dbus_is_name := λ s, bool_decide (s ≠ "");
     g_dbus_is_interface_name := λ s, bool_decide (s ≠ "");
     g_dbus_is_member_name := λ s, bool_decide (s ≠ "") |}.

Definition service_unknown : GError :=
  {| domain := 42; code := G_DBUS_ERROR_SERVICE_UNKNOWN;
     message := "The name is not activatable" |}.

Definition access_denied : GError :=
  {| domain := 42; code := G_DBUS_ERROR_ACCESS_DENIED;
     message := "Rejected send message" |}.

(** Three buses: the service is never there; the policy rejects the
    call; the service answers (status 0, count 2). *)
Definition bus_down : Client.bus_t :=
  {| Client.proxy_new := λ _ _, None;
     Client.call_sync := λ _ _ _ _, inl service_unknown |}.

Definition bus_denied : Client.bus_t :=
  {| Client.proxy_new := λ _ _, None;
     Client.call_sync := λ _ _ _ _, inl access_denied |}.

Definition bus_up : Client.bus_t :=
  {| Client.proxy_new := λ _ _, None;
     Client.call_sync := λ _ _ _ _, inr (GTuple [GInt32 0; GUInt32 2]) |}.

(** A service that answers with one field only. *)
Definition bus_short : Client.bus_t :=
  {| Client.proxy_new := λ _ _, None;
     Client.call_sync := λ _ _ _ _, inr (GTuple [GInt32 5]) |}.

(** A service that is gone for good once the first proxy was made: every
    call fails with "service unknown", and the bus refuses every further
    proxy. *)
Definition bus_gone : Client.bus_t :=
  {| Client.proxy_new := λ k _, if decide (k = 0)%nat then None else Some service_unknown;
     Client.call_sync := λ _ _ _ _, inl service_unknown |}.

(** The process before any call is declared. *)
Definition boot : Client.world :=
  {| Client.calls := ∅; Client.call_heap := ∅;
     Client.storage_destroyed := false; Client.callUnderConstruction := 0;
     Client.proxies := ∅; Client.gproxies := ∅;
     Client.main_loop := Loop.start;
     Client.memory := {| cells := ∅; shadow := {| Shadow.objects := ∅; Shadow.variants := ∅ |} |};
     Client.n_new := 0; Client.n_call := 0; Client.trace := [] |}.

(** A call object at address 900 with one input and two outputs:
    [GDBusParam<TYPE_S, PARAM_IN, std::string> resourceType;
     GDBusParam<TYPE_I, PARAM_OUT, int> status;
     GDBusParam<TYPE_U, PARAM_OUT, unsigned> count]. *)
Definition declare : Client.M unit :=
  Client.bind
    (Client.GDBusCall_ctor_name (H:=glib) (H0:=dbus) 900 "com.lgi.rdk.utils.networkconfig1"
       "GetResourceIds")
    (λ _, Client.bind
       (Client.GDBusParam_in converters.TYPE_S 908 "resourceType" "dhcpv4")
       (λ _, Client.bind
          (Client.GDBusParam_out converters.TYPE_I 916 "status" 0)
          (λ _, Client.GDBusParam_out converters.TYPE_U 920 "count" 0))).

Definition declared : Client.world := (declare boot).2.

(** The same process after a first lookup of the target of the call,
    which the cache then holds. *)
Definition connected : Client.world :=
  (Client.instanceFor (H0:=dbus) bus_up
     (Client.fromName "com.lgi.rdk.utils.networkconfig1") Client.USE_EXISTING
     declared).2.

(** The same process while another thread is inside [callSync] on the
    call object 900 and holds its guard. *)
Definition in_use : Client.world := (Client.get 900 declared).2.

(** The [call_t] of the call object 900. *)
Definition the_call : Client.call_t :=
  default {| Client.params := []; Client.object := Client.fromName "";
             Client.method := "" |}
    (rc.deref 1%positive (Client.call_heap declared)).

(** The process after a call that the service answered: [status] holds 0
    and [count] holds 2. *)
Definition answered : Client.world :=
  (Client.callSync (H0:=dbus) bus_up 900 declared).2.


Definition answered_torn_down : Client.world :=
  {| Client.calls := Client.calls answered;
     Client.call_heap := Client.call_heap answered;
     Client.storage_destroyed := true;
     Client.callUnderConstruction := Client.callUnderConstruction answered;
     Client.proxies := Client.proxies answered;
     Client.gproxies := Client.gproxies answered;
     Client.main_loop := Client.main_loop answered;
     Client.memory := Client.memory answered;
     Client.n_new := Client.n_new answered;
     Client.n_call := Client.n_call answered;
     Client.trace := [] |}.

End Sample.
(* ================================================================= *)
(** ** More sample data *)

Module Scenario.
#[local] Existing Instance Sample.glib.
#[local] Existing Instance Sample.dbus.
Import converters.

(** The tuple [SITuple] of the samples after the row ("eth0", 7) was
    assigned to it. *)
Definition si_assigned : Tuple.state :=
  (GDBusTuple.assign 100 [10; 11]%N Sample.si_tuple).2.

(** Its entry before the assignment. *)
Definition si_entry : Tuple.tuple_t :=
  {| Tuple.vars := []; Tuple.getters := [Tuple.strString; Tuple.strInt];
     Tuple.handles := [101; 102]%N |}.

(** The process of the samples after the constructor of the call object
    at 900 and before the declaration of its parameters; the call it
    registered; the parameter [status], as its constructor builds it. *)
Definition constructed : Client.world :=
  (Client.GDBusCall_ctor_name 900 "com.lgi.rdk.utils.networkconfig1"
     "GetResourceIds" Sample.boot).2.

Definition bare_call : Client.call_t :=
  {| Client.params := [];
     Client.object := Client.fromName "com.lgi.rdk.utils.networkconfig1";
     Client.method := "GetResourceIds" |}.

Definition status_param : Client.param_t :=
  (Client.param_out TYPE_I 916 "status" 0 constructed).1.

(** The reply of the service of the samples, a bus on which the first
    call finds the service gone and the next ones are answered, and a bus
    that refuses to make proxies. *)
Definition reply : GVariant := GTuple [GInt32 0; GUInt32 2].

Definition bus_flaky : Client.bus_t :=
  {| Client.proxy_new := λ _ _, None;
     Client.call_sync := λ k _ _ _,
       match k with O => inl Sample.service_unknown | S _ => inr reply end |}.

Definition bus_no_proxy : Client.bus_t :=
  {| Client.proxy_new := λ _ _, Some Sample.service_unknown;
     Client.call_sync := λ _ _ _ _, inr reply |}.

(** A call object at 900 whose input is an object path:
    [GDBusParam<TYPE_O, PARAM_IN, std::string> device;
     GDBusParam<TYPE_S, PARAM_OUT, std::string> route]; the text given for
    [device] is not a path. *)
Definition declare_route : Client.M unit :=
  Client.bind
    (Client.GDBusCall_ctor_name 900 "com.lgi.rdk.utils.networkconfig1" "GetRoute")
    (λ _, Client.bind
       (Client.GDBusParam_in TYPE_O 908 "device" "eth0")
       (λ _, Client.GDBusParam_out TYPE_S 916 "route" "")).

Definition route_declared : Client.world := (declare_route Sample.boot).2.

Definition route_call : Client.call_t :=
  default bare_call (rc.deref 1%positive (Client.call_heap route_declared)).

(** An application that keeps a list of the signals it was told of, a
    callback that appends to it, and the storage before any registration. *)
Definition logger (tag : string) : Signals.callback_t (list string) :=
  Some (λ sender_name signal_name seen,
          seen ++ [tag +:+ ":" +:+ sender_name +:+ ":" +:+ signal_name]).

Definition no_signals : Signals.state (list string) :=
  {| Signals.signal_map := ∅; Signals.user := [] |}.

(** A clock that advances 10 ms per reading and an application whose
    callbacks stop the loop during the third iteration. *)
Definition third_stops : Loop.env :=
  {| Loop.now := λ k, (10 * N.of_nat k)%N;
     Loop.stops := λ k, bool_decide (k = 2%nat) |}.

(** The state in which the tuple [SITuple] of the samples is built, and
    its two members. *)
Definition row_state : Tuple.state :=
  {| Tuple.shadow := Sample.row_store; Tuple.fields := ∅; Tuple.tuples := ∅;
     Tuple.curTuple := 0; Tuple.brk := 200 |}.

Definition si_members : list (Tuple.getter_t * N) :=
  [(Tuple.strString, 101%N); (Tuple.strInt, 102%N)].

(** The growth of a full vector in the GNU C++ library: to twice the
    size, or to one element. *)
Definition double_or_one (n : nat) : nat := (n + Nat.max n 1)%nat.

(** A reply field with two rows, an integer between them, and the state
    of a process that holds no variant yet. *)
Definition interfaces : GVariant :=
  GArray [GTuple [GString "eth0"; GInt32 7]; GInt32 0;
          GTuple [GString "wlan0"; GInt32 9]].

Definition no_variants : Tuple.state :=
  {| Tuple.shadow := {| Shadow.objects := ∅; Shadow.variants := ∅ |};
     Tuple.fields := ∅; Tuple.tuples := ∅; Tuple.curTuple := 0;
     Tuple.brk := 1000 |}.

End Scenario.
(* ================================================================= *)
(** * Properties *)

(** ** The side table of variants *)

Section shadow_facts.
Import Shadow.

Lemma ref_unref {T} (p : positive) (h : gmap positive (T * positive)) :
  rc.unref p (rc.ref p h) = h.
Proof.
  unfold rc.unref, rc.ref. rewrite lookup_alter_eq.
  destruct (h !! p) as [[x n]|] eqn:E; simpl.
  - case_decide as Hn; [lia|].
    rewrite Pos.pred_succ. apply map_eq. intros i.
    destruct (decide (i = p)) as [->|Hne].
    + by rewrite lookup_insert_eq.
    + by rewrite lookup_insert_ne, lookup_alter_ne.
  - apply map_eq. intros i. destruct (decide (i = p)) as [->|Hne].
    + by rewrite lookup_alter_eq, E.
    + by rewrite lookup_alter_ne.
Qed.

(** A lookup hands out a reference and the caller gives it back: the
    store is as before. *)
Lemma at_then_destroy key σ :
  variant_destroy (at_ key σ).1 (at_ key σ).2 = σ.
Proof.
  unfold at_, variant_copy, variant_destroy.
  destruct σ as [os vs]; simpl.
  destruct (vs !! key) as [[[p|]]|]; simpl; try done.
  unfold with_objects; simpl. by rewrite ref_unref.
Qed.

Lemma at_fst key σ :
  (at_ key σ).1 = default (mk_variant None) (variants σ !! key).
Proof.
  unfold at_, variant_copy.
  destruct (variants σ !! key) as [[[p|]]|]; done.
Qed.

Lemma at_variants key σ : variants (at_ key σ).2 = variants σ.
Proof.
  unfold at_, variant_copy.
  destruct (variants σ !! key) as [[[p|]]|]; done.
Qed.


Lemma insert_lookup key v σ :
  variants (insert key v σ) !! key =
    Some (default v (variants σ !! key)).
Proof.
  unfold insert, variant_destroy.
  destruct (variants σ !! key) as [old|] eqn:E; simpl.
  - destruct (gv v); simpl; done.
  - by rewrite lookup_insert_eq.
Qed.

Lemma insert_lookup_ne key k v σ :
  k ≠ key → variants (insert key v σ) !! k = variants σ !! k.
Proof.
  intros Hne. unfold insert, variant_destroy.
  destruct (variants σ !! key) as [old|] eqn:E; simpl.
  - destruct (gv v); simpl; done.
  - by rewrite lookup_insert_ne.
Qed.

Lemma erase_lookup key σ : variants (erase key σ) !! key = None.
Proof.
  unfold erase, variant_destroy.
  destruct (variants σ !! key) as [old|] eqn:E; simpl; [|done].
  destruct (gv old); simpl; by rewrite lookup_delete_eq.
Qed.

Lemma erase_lookup_ne key k σ :
  k ≠ key → variants (erase key σ) !! k = variants σ !! k.
Proof.
  intros Hne. unfold erase, variant_destroy.
  destruct (variants σ !! key) as [old|] eqn:E; simpl; [|done].
  destruct (gv old); simpl; by rewrite lookup_delete_ne.
Qed.

(** C5, as stated, fails: an [insert] under a handle that already has an
    entry leaves the old value in place. *)
Lemma insert_does_not_replace :
  (at_ 5 (insert 5 (mk_variant (Some 2%positive)) Sample.store)).1
    = mk_variant (Some 1%positive)
  ∧ (at_ 5 (insert 5 (mk_variant (Some 2%positive)) Sample.store)).1
    ≠ mk_variant (Some 2%positive).
Proof. split; [by vm_compute|]. vm_compute. congruence. Qed.

(** C5, amended: [insert(h, v)] stores [v] under [h], taking over the
    reference [v] holds, only when [h] has no entry; an entry that is
    already there is kept and the reference of [v] is dropped. A lookup
    after the insert returns [v] in the first case and the old value in the
    second. *)
Theorem insert_then_at (h : N) (v : variant_t) (σ : state) :
  (at_ h (insert h v σ)).1 =
    match variants σ !! h with
    | None => v
    | Some old => old
    end
  ∧ objects (insert h v σ) =
      match variants σ !! h, gv v with
      | Some _, Some p => rc.unref p (objects σ)
      | _, _ => objects σ
      end.
Proof.
  split.
  - rewrite at_fst, insert_lookup. by destruct (variants σ !! h).
  - unfold insert, variant_destroy.
    destruct (variants σ !! h); destruct (gv v); done.
Qed.

Lemma ctor_copy_fresh this v p σ :
  variants σ !! v = Some (mk_variant (Some p)) →
  variants σ !! this = None →
  GDBusVariant.ctor_copy this v σ =
    {| objects := rc.ref p (objects σ);
       variants := <[this := mk_variant (Some p)]> (variants σ) |}.
Proof.
  intros Hv Hthis. unfold GDBusVariant.ctor_copy, at_, variant_copy, insert.
  rewrite Hv. simpl. by rewrite Hthis.
Qed.

Lemma dtor_owner this p σ :
  variants σ !! this = Some (mk_variant (Some p)) →
  GDBusVariant.dtor this σ =
    {| objects := rc.unref p (objects σ);
       variants := delete this (variants σ) |}.
Proof.
  intros Hthis. unfold GDBusVariant.dtor, erase, variant_destroy.
  by rewrite Hthis.
Qed.

(** C8: two handles copy-constructed from a handle that holds a value
    still resolve, once the original is destroyed, to the one object the
    original pointed to, which is alive with one more owner than before and
    not duplicated; once both copies are destroyed too, a lookup under each
    of the three addresses gives the empty [variant_t]. *)
Theorem copies_share_one_value (o c1 c2 : N) (p : positive) (g : GVariant)
    (n : positive) (σ : state) :
  variants σ !! o = Some (mk_variant (Some p)) →
  objects σ !! p = Some (g, n) →
  variants σ !! c1 = None →
  variants σ !! c2 = None →
  c1 ≠ c2 →
  let σ3 := GDBusVariant.dtor o
              (GDBusVariant.ctor_copy c2 o (GDBusVariant.ctor_copy c1 o σ)) in
  let σ5 := GDBusVariant.dtor c2 (GDBusVariant.dtor c1 σ3) in
  ((at_ c1 σ3).1 = mk_variant (Some p) ∧ (at_ c2 σ3).1 = mk_variant (Some p))
  ∧ (at_ o σ3).1 = mk_variant None
  ∧ objects σ3 !! p = Some (g, Pos.succ n)
  ∧ (∀ q, q ≠ p → objects σ3 !! q = objects σ !! q)
  ∧ ((at_ c1 σ5).1 = mk_variant None ∧ (at_ c2 σ5).1 = mk_variant None)
  ∧ objects σ5 = rc.unref p (objects σ).
Proof.
  intros Ho Hp Hc1 Hc2 Hne σ3 σ5.
  assert (Hoc1 : o ≠ c1) by congruence.
  assert (Hoc2 : o ≠ c2) by congruence.
  pose (vp := mk_variant (Some p)).
  assert (E3 : σ3 = {| objects := rc.ref p (objects σ);
                       variants := delete o (<[c2 := vp]> (<[c1 := vp]> (variants σ))) |}).
  { subst σ3. rewrite (ctor_copy_fresh c1 o p σ Ho Hc1).
    rewrite (ctor_copy_fresh c2 o p); simpl;
      [|by rewrite lookup_insert_ne|by rewrite lookup_insert_ne].
    rewrite (dtor_owner o p); simpl;
      [|by rewrite !lookup_insert_ne].
    by rewrite ref_unref. }
  assert (E5 : σ5 = {| objects := rc.unref p (objects σ);
                       variants := delete c2 (delete c1 (variants σ3)) |}).
  { subst σ5. rewrite (dtor_owner c1 p σ3).
    - rewrite (dtor_owner c2 p); simpl.
      + rewrite E3; simpl. by rewrite ref_unref.
      + rewrite E3; simpl.
        rewrite lookup_delete_ne, lookup_delete_ne, lookup_insert_eq by done.
        done.
    - rewrite E3; simpl.
      rewrite lookup_delete_ne, lookup_insert_ne, lookup_insert_eq by done.
      done. }
  rewrite !at_fst, E5; simpl. rewrite E3; simpl.
  repeat split.
  - by rewrite lookup_delete_ne, lookup_insert_ne, lookup_insert_eq.
  - by rewrite lookup_delete_ne, lookup_insert_eq.
  - by rewrite lookup_delete_eq.
  - unfold rc.ref. by rewrite lookup_alter_eq, Hp.
  - intros q Hq. unfold rc.ref. by rewrite lookup_alter_ne.
  - by rewrite lookup_delete_ne, lookup_delete_eq.
  - by rewrite lookup_delete_eq.
Qed.

(** A run of C8 on the sample store: the original is the handle at 5,
    the copies live at 6 and 7. *)
Lemma copies_share_one_value_witness :
  let σ3 := GDBusVariant.dtor 5
              (GDBusVariant.ctor_copy 7 5 (GDBusVariant.ctor_copy 6 5 Sample.store)) in
  let σ5 := GDBusVariant.dtor 7 (GDBusVariant.dtor 6 σ3) in
  ((at_ 6 σ3).1 = mk_variant (Some 1%positive)
   ∧ (at_ 7 σ3).1 = mk_variant (Some 1%positive))
  ∧ (at_ 5 σ3).1 = mk_variant None
  ∧ objects σ3 !! 1%positive = Some (GInt32 7, 2%positive)
  ∧ (∀ q, q ≠ 1%positive → objects σ3 !! q = objects Sample.store !! q)
  ∧ ((at_ 6 σ5).1 = mk_variant None ∧ (at_ 7 σ5).1 = mk_variant None)
  ∧ objects σ5 = rc.unref 1%positive (objects Sample.store).
Proof.
  apply (copies_share_one_value 5 6 7 1%positive (GInt32 7) 1%positive Sample.store);
    [reflexivity | reflexivity | reflexivity | reflexivity | lia].
Defined.

(** C10: assigning a handle that holds a value to itself loses the
    value: the entry under the handle is erased first, the lookup of the
    source (the same address) then finds nothing, and an empty [variant_t]
    is stored. Afterwards every getter reports failure with the default of
    its type and [print] gives the empty string. *)
Theorem self_assignment_erases `{GLibExt} (v : N) (p : positive) (σ : state) :
  variants σ !! v = Some (mk_variant (Some p)) →
  let σ' := GDBusVariant.assign v v σ in
  variants σ' !! v = Some (mk_variant None)
  ∧ (GDBusVariant.getInt v σ').1 = (0, false)
  ∧ (GDBusVariant.getBool v σ').1 = (false, false)
  ∧ (GDBusVariant.getDouble v σ').1 = (double_zero, false)
  ∧ (GDBusVariant.getString v σ').1 = ("", false)
  ∧ (GDBusVariant.print v σ').1 = "".
Proof.
  intros Hv σ'.
  assert (E : variants σ' !! v = Some (mk_variant None)).
  { subst σ'. unfold GDBusVariant.assign.
    destruct (at_ v (erase v σ)) as [x σ2] eqn:Eat.
    assert (Hx : x = mk_variant None).
    { change x with (x, σ2).1. rewrite <- Eat, at_fst, erase_lookup. done. }
    assert (Hσ2 : variants σ2 !! v = None).
    { change σ2 with (x, σ2).2. rewrite <- Eat, at_variants. apply erase_lookup. }
    rewrite insert_lookup, Hσ2, Hx. done. }
  split; [exact E|].
  unfold GDBusVariant.getInt, GDBusVariant.getBool, GDBusVariant.getDouble,
    GDBusVariant.getString, GDBusVariant.print, at_, variant_copy.
  rewrite E. simpl. done.
Qed.

End shadow_facts.

(** C10 on the sample store, for the handle at 5. *)
Lemma self_assignment_erases_witness :
  let σ' := GDBusVariant.assign 5 5 Sample.store in
  Shadow.variants σ' !! 5%N = Some (mk_variant None)
  ∧ (GDBusVariant.getInt 5 σ').1 = (0, false)
  ∧ (GDBusVariant.getBool 5 σ').1 = (false, false)
  ∧ (GDBusVariant.getDouble 5 σ').1 = (double_zero, false)
  ∧ (GDBusVariant.getString 5 σ').1 = ("", false)
  ∧ (GDBusVariant.print (H:=Sample.glib) 5 σ').1 = "".
Proof.
  apply (self_assignment_erases (H:=Sample.glib) 5 1%positive Sample.store).
  reflexivity.
Defined.

(** Before the self-assignment the same handle reads 7. *)
Example sample_getInt_before :
  (GDBusVariant.getInt 5 Sample.store).1 = (7, true).
Proof. reflexivity. Qed.

(** ** Reference counts under copies and destructions *)

Section refcount_facts.
Import Shadow Inv.

Lemma refs_insert_fresh (vs : gmap N variant_t) d v p :
  vs !! d = None →
  refs (<[d := v]> vs) p = if decide (gv v = Some p) then S (refs vs p) else refs vs p.
Proof.
  intros Hd. unfold refs. case_decide as Hv.
  - rewrite map_filter_insert_True by done.
    rewrite map_size_insert_None; [done|].
    by rewrite map_lookup_filter_None; left.
  - rewrite map_filter_insert_False by done.
    by rewrite delete_id.
Qed.

Lemma refs_delete (vs : gmap N variant_t) a p :
  refs (delete a vs) p =
    match vs !! a with
    | Some v => if decide (gv v = Some p) then pred (refs vs p) else refs vs p
    | None => refs vs p
    end.
Proof.
  unfold refs. rewrite map_filter_delete.
  destruct (vs !! a) as [v|] eqn:Ha.
  - case_decide as Hv.
    + rewrite map_size_delete_Some; [done|].
      exists v. by rewrite map_lookup_filter_Some.
    + rewrite map_size_delete_None; [done|].
      rewrite map_lookup_filter_None. right. intros x Hx. simpl. congruence.
  - rewrite map_size_delete_None; [done|].
    by rewrite map_lookup_filter_None; left.
Qed.

Lemma refs_pos (vs : gmap N variant_t) a p :
  vs !! a = Some (mk_variant (Some p)) → (0 < refs vs p)%nat.
Proof.
  intros Ha. unfold refs.
  enough (size (filter (λ kv : N * variant_t, gv kv.2 = Some p) vs) ≠ O) by lia.
  apply map_size_ne_0_lookup. exists a.
  exists (mk_variant (Some p)). by rewrite map_lookup_filter_Some.
Qed.

Lemma refs_two (vs : gmap N variant_t) a b p :
  a ≠ b →
  vs !! a = Some (mk_variant (Some p)) →
  vs !! b = Some (mk_variant (Some p)) →
  (2 ≤ refs vs p)%nat.
Proof.
  intros Hne Ha Hb.
  pose proof (refs_delete vs a p) as Hd. rewrite Ha in Hd. simpl in Hd.
  rewrite decide_True in Hd by done.
  assert (0 < refs (delete a vs) p)%nat.
  { apply (refs_pos _ b). by rewrite lookup_delete_ne. }
  lia.
Qed.

Lemma count_ref (os : gmap positive (GVariant * positive)) p q :
  count (rc.ref p os) q =
    if decide (q = p) then
      match os !! p with Some _ => S (count os p) | None => O end
    else count os q.
Proof.
  unfold count, rc.ref. case_decide as Hq.
  - subst q. rewrite lookup_alter_eq.
    destruct (os !! p) as [[x n]|]; simpl; [lia|done].
  - by rewrite lookup_alter_ne.
Qed.

Lemma count_unref (os : gmap positive (GVariant * positive)) p q :
  count (rc.unref p os) q =
    if decide (q = p) then pred (count os p) else count os q.
Proof.
  unfold count, rc.unref.
  destruct (os !! p) as [[x n]|] eqn:Hp.
  - case_decide as Hn; case_decide as Hq; subst.
    + rewrite lookup_delete_eq. simpl. lia.
    + by rewrite lookup_delete_ne.
    + rewrite lookup_insert_eq. lia.
    + by rewrite lookup_insert_ne.
  - case_decide as Hq; [|done]. subst. by rewrite Hp.
Qed.

Lemma count_alive (os : gmap positive (GVariant * positive)) p :
  (0 < count os p)%nat → is_Some (os !! p).
Proof. unfold count. destruct (os !! p); [eauto|lia]. Qed.

Lemma deref_ref (p q : positive) (h : gmap positive (GVariant * positive)) :
  rc.deref q (rc.ref p h) = rc.deref q h.
Proof.
  unfold rc.deref, rc.ref. destruct (decide (q = p)) as [->|Hq].
  - rewrite lookup_alter_eq. by destruct (h !! p) as [[]|].
  - by rewrite lookup_alter_ne.
Qed.

(** Dropping one reference to [p] leaves every object with another owner
    readable. *)
Lemma deref_unref (p q : positive) (h : gmap positive (GVariant * positive)) :
  (q ≠ p ∨ ∃ x n, h !! p = Some (x, n) ∧ n ≠ 1%positive) →
  rc.deref q (rc.unref p h) = rc.deref q h.
Proof.
  intros Hq. unfold rc.deref, rc.unref.
  destruct (h !! p) as [[x n]|] eqn:Hp; [|done].
  destruct (decide (q = p)) as [->|Hne].
  - destruct Hq as [?|(x' & n' & [= <- <-] & Hn)]; [done|].
    rewrite decide_False by done. by rewrite lookup_insert_eq, Hp.
  - case_decide; by rewrite ?lookup_delete_ne, ?lookup_insert_ne.
Qed.

Lemma resolve_unfold σ a :
  resolve σ a =
    match variants σ !! a with
    | Some (mk_variant (Some p)) => rc.deref p (objects σ)
    | _ => None
    end.
Proof.
  unfold resolve, payload. by destruct (variants σ !! a) as [[[p|]]|].
Qed.

(** Copy-constructing a handle at an address without an entry. *)
Lemma ctor_copy_step σ d s :
  variants σ !! d = None →
  consistent σ →
  consistent (GDBusVariant.ctor_copy d s σ)
  ∧ variants (GDBusVariant.ctor_copy d s σ) =
      <[d := default (mk_variant None) (variants σ !! s)]> (variants σ)
  ∧ ∀ a, resolve (GDBusVariant.ctor_copy d s σ) a =
         if decide (a = d) then resolve σ s else resolve σ a.
Proof.
  intros Hd Hc. unfold GDBusVariant.ctor_copy, at_, variant_copy, insert.
  destruct (variants σ !! s) as [[[p|]]|] eqn:Hs; simpl; rewrite Hd.
  - (* the source owns a reference to [p] *)
    assert (Hp : is_Some (objects σ !! p)).
    { apply count_alive. pose proof (refs_pos _ s p Hs). pose proof (Hc p). lia. }
    split; [|split].
    + intros q. simpl.
      rewrite (refs_insert_fresh _ d _ q Hd), count_ref. simpl.
      pose proof (Hc q). destruct Hp as [o Ho]. rewrite Ho.
      repeat case_decide; simplify_eq; lia.
    + done.
    + intros a. rewrite !resolve_unfold. simpl.
      case_decide as Ha.
      * subst a. rewrite lookup_insert_eq, Hs. apply deref_ref.
      * rewrite lookup_insert_ne by done.
        destruct (variants σ !! a) as [[[q|]]|]; try done. apply deref_ref.
  - (* the source has an entry without a variant *)
    split; [|split].
    + intros q. simpl. rewrite (refs_insert_fresh _ d _ q Hd).
      case_decide as Hx; [by simpl in Hx|apply Hc].
    + done.
    + intros a. rewrite !resolve_unfold. simpl.
      case_decide as Ha.
      * subst a. by rewrite lookup_insert_eq, Hs.
      * by rewrite lookup_insert_ne.
  - (* the source has no entry *)
    split; [|split].
    + intros q. simpl. rewrite (refs_insert_fresh _ d _ q Hd).
      case_decide as Hx; [by simpl in Hx|apply Hc].
    + done.
    + intros a. rewrite !resolve_unfold. simpl.
      case_decide as Ha.
      * subst a. by rewrite lookup_insert_eq, Hs.
      * by rewrite lookup_insert_ne.
Qed.

(** Destroying a handle. *)
Lemma dtor_step σ a :
  consistent σ →
  consistent (GDBusVariant.dtor a σ)
  ∧ variants (GDBusVariant.dtor a σ) = delete a (variants σ)
  ∧ ∀ b, b ≠ a → resolve (GDBusVariant.dtor a σ) b = resolve σ b.
Proof.
  intros Hc. unfold GDBusVariant.dtor, erase, variant_destroy.
  destruct (variants σ !! a) as [[[p|]]|] eqn:Ha; simpl.
  - split; [|split].
    + intros q. simpl. rewrite refs_delete, Ha, count_unref. simpl.
      pose proof (Hc q).
      repeat case_decide; simplify_eq; lia.
    + done.
    + intros b Hb. rewrite !resolve_unfold. simpl.
      rewrite lookup_delete_ne by done.
      destruct (variants σ !! b) as [[[q|]]|] eqn:Hq; try done.
      apply deref_unref.
      destruct (decide (q = p)) as [->|Hne]; [right|by left].
      pose proof (refs_two _ a b p (not_eq_sym Hb) Ha Hq) as H2.
      pose proof (Hc p) as Hcp. unfold count in Hcp.
      destruct (objects σ !! p) as [[x n]|]; [|lia].
      exists x, n. split; [done|lia].
  - split; [|split].
    + intros q. simpl. rewrite refs_delete, Ha.
      case_decide as Hx; [by simpl in Hx|apply Hc].
    + done.
    + intros b Hb. rewrite !resolve_unfold. simpl.
      by rewrite lookup_delete_ne.
  - split; [done|split].
    + by rewrite delete_id.
    + done.
Qed.

End refcount_facts.

(** ** Tuples *)

Section tuple_facts.
Import Shadow Inv Tuple.
Context `{GLibExt}.

Lemma variant_bool_some p : variant_bool (mk_variant (Some p)) = true.
Proof. reflexivity. Qed.

Lemma variant_bool_none : variant_bool (mk_variant None) = false.
Proof. reflexivity. Qed.

Lemma payload_at a σ : payload (at_ a σ).1 (at_ a σ).2 = resolve σ a.
Proof.
  rewrite resolve_unfold. unfold at_, variant_copy, payload.
  destruct (variants σ !! a) as [[[p|]]|]; simpl; try done.
  apply deref_ref.
Qed.

(** A getter gives its reference back and succeeds exactly when the
    handle resolves to a variant of the type it looks for. *)
Lemma call_getter_spec g v σ :
  (call_getter g v σ).2 = σ
  ∧ (call_getter g v σ).1.2 = extracts g (resolve σ v).
Proof.
  pose proof (at_then_destroy v σ) as Hs.
  pose proof (payload_at v σ) as Hp.
  unfold extracts.
  destruct g; simpl;
    unfold GDBusVariant.getInt, GDBusVariant.getDouble,
      GDBusVariant.getBool, GDBusVariant.getString;
    destruct (at_ v σ) as [[[p|]] σ1]; simpl in *;
    rewrite ?variant_bool_some, ?variant_bool_none; rewrite <- ?Hp; try done;
    rewrite Hp;
    (destruct (resolve σ v) as [gx|]; simpl; [|done]);
    match goal with |- context [g_variant_is_of_type ?a ?b] =>
      destruct (g_variant_is_of_type a b) end; done.
Qed.

Lemma toString_loop_spec items str σ :
  (toString_loop items str σ).2 = σ
  ∧ ((toString_loop items str σ).1 ≠ "" ↔
     Forall (λ vg : N * getter_t, extracts vg.2 (resolve σ vg.1) = true) items).
Proof.
  revert str. induction items as [|[v g] rest IH]; intros str; simpl.
  - split; [done|]. split; [constructor|done].
  - destruct (call_getter_spec g v σ) as [Hs Hr].
    destruct (call_getter g v σ) as [[s res] σ1]. simpl in *. subst σ1.
    destruct res.
    + match goal with |- context [toString_loop rest ?x σ] =>
        destruct (IH x) as [IH1 IH2] end.
      split; [done|]. rewrite IH2. split.
      * intros HF. constructor; [done|done].
      * by inversion 1.
    + split; [done|]. split; [intros Hx; by destruct Hx|].
      inversion 1 as [|?? Hx]; simplify_eq. simpl in Hx. congruence.
Qed.

Lemma toString_spec t σ :
  (toString t σ).2 = σ
  ∧ ((toString t σ).1 ≠ "" ↔
     length (vars t) = length (getters t)
     ∧ Forall (λ vg : N * getter_t, extracts vg.2 (resolve σ vg.1) = true)
         (zip (vars t) (getters t))).
Proof.
  unfold toString. case_decide as Hl.
  - split; [done|]. simpl. split; [intros Hx; by destruct Hx|].
    intros [? _]. done.
  - destruct (toString_loop_spec (zip (vars t) (getters t)) "" σ) as [H1 H2].
    split; [done|]. rewrite H2. split; [|by intros [_ ?]].
    intros HF. split; [|done].
    destruct (decide (length (vars t) = length (getters t))); [done|contradiction].
Qed.

Lemma copy_elements_spec dst : ∀ src σ,
  length dst = length src →
  NoDup dst →
  (∀ d, d ∈ dst → variants σ !! d = None) →
  (∀ d, d ∈ dst → d ∉ src) →
  consistent σ →
  consistent (copy_elements dst src σ)
  ∧ (∀ a, a ∉ dst → resolve (copy_elements dst src σ) a = resolve σ a)
  ∧ (∀ i d s, dst !! i = Some d → src !! i = Some s →
       resolve (copy_elements dst src σ) d = resolve σ s).
Proof.
  induction dst as [|d dst IH]; intros [|s src] σ Hlen Hnd Hfresh Hsep Hc;
    simplify_eq/=.
  - split; [done|]. split; [done|]. intros i ?? Hi. by rewrite lookup_nil in Hi.
  - inversion Hnd as [|?? Hd Hnd']; subst. clear Hnd. rename Hnd' into Hnd.
    destruct (ctor_copy_step σ d s) as (Hc1 & Hv1 & Hr1);
      [apply Hfresh; left|done|].
    destruct (IH src (GDBusVariant.ctor_copy d s σ)) as (Hc2 & Hr2 & Hi2).
    + done.
    + done.
    + intros d' Hd'. rewrite Hv1, lookup_insert_ne by (intros ->; done).
      apply Hfresh. by right.
    + intros d' Hd' Hin. apply (Hsep d'); [by right|by right].
    + done.
    + unfold copy_elements in *. simpl.
      split; [done|]. split.
      * intros a Ha. apply not_elem_of_cons in Ha as [Had Ha].
        rewrite Hr2 by done. rewrite Hr1. by rewrite decide_False.
      * intros [|i] d' s' Hd' Hs'; simplify_eq/=.
        -- rewrite Hr2 by done. rewrite Hr1. by rewrite decide_True.
        -- rewrite (Hi2 i d' s' Hd' Hs'). rewrite Hr1.
           rewrite decide_False; [done|].
           intros ->. apply (Hsep d); [by left|].
           right. by eapply list_elem_of_lookup_2.
Qed.

Lemma destroy_elements_spec old : ∀ σ,
  consistent σ →
  consistent (destroy_elements old σ)
  ∧ ∀ a, a ∉ old → resolve (destroy_elements old σ) a = resolve σ a.
Proof.
  induction old as [|o old IH]; intros σ Hc; [done|].
  destruct (dtor_step σ o Hc) as (Hc1 & _ & Hr1).
  destruct (IH (GDBusVariant.dtor o σ) Hc1) as (Hc2 & Hr2).
  unfold destroy_elements in *. simpl. split; [done|].
  intros a Ha. apply not_elem_of_cons in Ha as [Hao Ha].
  rewrite Hr2 by done. by apply Hr1.
Qed.

Lemma new_buffer_length base n : length (new_buffer base n) = n.
Proof. unfold new_buffer. by rewrite length_fmap, length_seq. Qed.

Lemma new_buffer_lookup base n i d :
  new_buffer base n !! i = Some d → d = (base + N.of_nat i)%N ∧ (i < n)%nat.
Proof.
  unfold new_buffer. rewrite list_lookup_fmap.
  destruct (seq 0 n !! i) as [j|] eqn:Hj; [|done].
  apply lookup_seq in Hj as [-> Hlt]. intros [= <-]. done.
Qed.

Lemma new_buffer_ge base n d : d ∈ new_buffer base n → (base ≤ d)%N.
Proof.
  intros [i Hi]%list_elem_of_lookup_1.
  apply new_buffer_lookup in Hi as [-> _]. lia.
Qed.

Lemma new_buffer_NoDup base n : NoDup (new_buffer base n).
Proof.
  unfold new_buffer. apply NoDup_fmap_2; [|apply NoDup_seq].
  intros i j Hij. lia.
Qed.

Lemma assign_result this variants τ :
  (GDBusTuple.assign this variants τ).1 =
    let t := default tuple_default (tuples τ !! this) in
    let new := new_buffer (brk τ) (length variants) in
    let σ2 := destroy_elements (vars t) (copy_elements new variants (shadow τ)) in
    bool_decide
      ((toString {| vars := new; getters := getters t; handles := handles t |} σ2).1
         ≠ "").
Proof.
  unfold GDBusTuple.assign, Tuple.assign, vector_assign. simpl.
  by destruct (toString _ _).
Qed.

(** C9: [GDBusTuple::assign] returns true exactly when as many variants
    are supplied as the tuple has declared fields and every field, taken
    with the variant at its position, extracts the scalar type it was
    declared with; a field that fails, or a different number of variants,
    gives false. *)
Theorem assign_succeeds_iff (this : N) (variants : list N) (t : tuple_t)
    (τ : state) :
  default tuple_default (tuples τ !! this) = t →
  consistent (shadow τ) →
  (∀ a, is_Some (Shadow.variants (shadow τ) !! a) → (a < brk τ)%N) →
  Forall (λ a, (a < brk τ)%N) variants →
  Forall (λ a, (a < brk τ)%N) (vars t) →
  (GDBusTuple.assign this variants τ).1 = true ↔
    length variants = length (getters t)
    ∧ ∀ i g a, getters t !! i = Some g → variants !! i = Some a →
        extracts g (resolve (shadow τ) a) = true.
Proof.
  intros Ht Hc Hdom Hsrc Hold.
  rewrite assign_result, Ht. simpl.
  set (new := new_buffer (brk τ) (length variants)).
  set (σ1 := copy_elements new variants (shadow τ)).
  set (σ2 := destroy_elements (vars t) σ1).
  destruct (copy_elements_spec new variants (shadow τ)) as (Hc1 & Hr1 & Hi1).
  { apply new_buffer_length. }
  { apply new_buffer_NoDup. }
  { intros d Hd%new_buffer_ge.
    destruct (Shadow.variants (shadow τ) !! d) eqn:E; [|done].
    assert (d < brk τ)%N by (apply Hdom; eauto). lia. }
  { intros d Hd%new_buffer_ge Hin.
    rewrite Forall_forall in Hsrc. specialize (Hsrc d Hin). lia. }
  { done. }
  destruct (destroy_elements_spec (vars t) σ1 Hc1) as (Hc2 & Hr2).
  assert (Hres : ∀ i d a, new !! i = Some d → variants !! i = Some a →
                   resolve σ2 d = resolve (shadow τ) a).
  { intros i d a Hd Ha. unfold σ2. rewrite Hr2.
    - by apply (Hi1 i).
    - intros Hin. rewrite Forall_forall in Hold. specialize (Hold d Hin).
      assert (brk τ ≤ d)%N by (eapply new_buffer_ge, list_elem_of_lookup_2; done).
      lia. }
  rewrite bool_decide_eq_true.
  destruct (toString_spec {| vars := new; getters := getters t;
                             handles := handles t |} σ2) as [_ ->].
  simpl. unfold new at 1. rewrite new_buffer_length.
  split; intros [Hlen HF]; (split; [done|]).
  - intros i g a Hg Ha.
    assert (is_Some (new !! i)) as [d Hd].
    { apply lookup_lt_is_Some. unfold new. rewrite new_buffer_length.
      by eapply lookup_lt_Some. }
    rewrite Forall_lookup in HF.
    specialize (HF i (d, g)). simpl in HF.
    rewrite <- (Hres i d a Hd Ha). apply HF.
    rewrite lookup_zip_with, Hd. simpl. by rewrite Hg.
  - apply Forall_lookup. intros i [d g] Hz. simpl.
    rewrite lookup_zip_with in Hz.
    destruct (new !! i) as [d'|] eqn:Hd; simpl in Hz; [|done].
    destruct (getters t !! i) as [g'|] eqn:Hg; simpl in Hz; [|done].
    simplify_eq.
    assert (is_Some (variants !! i)) as [a Ha].
    { apply lookup_lt_is_Some. rewrite Hlen. by eapply lookup_lt_Some. }
    rewrite (Hres i d a Hd Ha). by eapply HF.
Qed.

(** The tuple entry of a freshly constructed derived class lists the
    getters of the declared members, in declaration order. *)
Lemma derived_ctor_getters this members τ :
  members ≠ [] →
  ∃ t, tuples (GDBusTuple.derived_ctor this members τ) !! this = Some t
       ∧ getters t = members.*1 ∧ vars t = []
       ∧ shadow (GDBusTuple.derived_ctor this members τ) = shadow τ
       ∧ brk (GDBusTuple.derived_ctor this members τ) = brk τ.
Proof.
  intros Hne. unfold GDBusTuple.derived_ctor.
  assert (Hgen : ∀ ms τ0,
    curTuple τ0 = this →
    let t0 := default tuple_default (tuples τ0 !! this) in
    let τ1 := foldl (λ s m, GDBusTuple.field_ctor m.1 m.2 s) τ0 ms in
    curTuple τ1 = this ∧ shadow τ1 = shadow τ0 ∧ brk τ1 = brk τ0 ∧
    default tuple_default (tuples τ1 !! this) =
      {| vars := vars t0; getters := getters t0 ++ ms.*1;
         handles := handles t0 ++ ms.*2 |}
    ∧ (ms ≠ [] → is_Some (tuples τ1 !! this))).
  { induction ms as [|[g fh] ms IH]; intros τ0 Hcur; simpl.
    - rewrite !app_nil_r. repeat split; try done. by destruct (default _ _).
    - set (τ' := GDBusTuple.field_ctor g fh τ0).
      assert (Hτ' : curTuple τ' = this ∧ shadow τ' = shadow τ0 ∧ brk τ' = brk τ0
                ∧ tuples τ' !! this =
                    Some (newField fh g (default tuple_default (tuples τ0 !! this))).2).
      { unfold τ'. destruct g; simpl;
          unfold GDBusTuple.pint, GDBusTuple.pdouble, GDBusTuple.pbool,
            GDBusTuple.pstring, addField; simpl; rewrite Hcur;
          by rewrite lookup_insert_eq. }
      destruct Hτ' as (Hc' & Hs' & Hb' & Ht').
      destruct (IH τ' Hc') as (H1 & H2 & H3 & H4 & H5).
      repeat split; try congruence.
      + rewrite H4, Ht'. simpl. by rewrite <- !app_assoc.
      + intros _. destruct ms as [|m ms']; [simpl; rewrite Ht'; eauto|].
        apply H5. done. }
  destruct (Hgen members (GDBusTuple.ctor this τ) eq_refl) as (H1 & H2 & H3 & H4 & H5).
  destruct (H5 Hne) as [t Ht]. exists t. rewrite Ht in H4. simpl in H4.
  rewrite lookup_delete_eq in H4. simpl in H4. subst t.
  repeat split; done.
Qed.

End tuple_facts.

Section tuple_examples.
Import Shadow Inv Tuple.

Example si_tuple_assign_ok :
  (GDBusTuple.assign (H:=Sample.glib) 100 [10; 11]%N Sample.si_tuple).1 = true.
Proof. vm_compute. reflexivity. Qed.

Example si_tuple_assign_swapped :
  (GDBusTuple.assign (H:=Sample.glib) 100 [11; 10]%N Sample.si_tuple).1 = false.
Proof. vm_compute. reflexivity. Qed.

Example si_tuple_assign_short :
  (GDBusTuple.assign (H:=Sample.glib) 100 [10]%N Sample.si_tuple).1 = false.
Proof. vm_compute. reflexivity. Qed.

Example si_tuple_toString :
  (GDBusTuple.toString (H:=Sample.glib) 100
     (GDBusTuple.assign (H:=Sample.glib) 100 [10; 11]%N Sample.si_tuple).2).1
  = "(<eth0> <7>)".
Proof. vm_compute. reflexivity. Qed.

Lemma refs_empty p : refs ∅ p = O.
Proof. unfold refs. by rewrite map_filter_empty, map_size_empty. Qed.

Lemma row_store_consistent : consistent Sample.row_store.
Proof.
  intros p. unfold Sample.row_store. simpl.
  rewrite refs_insert_fresh by done.
  rewrite <- insert_empty, refs_insert_fresh by done.
  rewrite refs_empty. simpl.
  destruct (decide (p = 1%positive)) as [->|H1]; [vm_compute; lia|].
  destruct (decide (p = 2%positive)) as [->|H2]; [vm_compute; lia|].
  rewrite !decide_False by congruence. lia.
Qed.

Lemma row_store_bound a :
  is_Some (variants Sample.row_store !! a) → (a < 200)%N.
Proof.
  unfold Sample.row_store. simpl. intros [v Hv].
  apply lookup_insert_Some in Hv as [[<- _]|[_ Hv]]; [lia|].
  apply lookup_singleton_Some in Hv as [<- _]. lia.
Qed.

(** C9 for the tuple [SITuple] and the row ("eth0", 7). *)
Lemma assign_succeeds_iff_witness :
  (GDBusTuple.assign (H:=Sample.glib) 100 [10; 11]%N Sample.si_tuple).1 = true ↔
    length [10; 11]%N = length [strString; strInt]
    ∧ ∀ i g a, [strString; strInt] !! i = Some g → [10; 11]%N !! i = Some a →
        extracts g (resolve Sample.row_store a) = true.
Proof.
  apply (assign_succeeds_iff (H:=Sample.glib) 100 [10; 11]%N
           {| vars := []; getters := [strString; strInt];
              handles := [101; 102]%N |} Sample.si_tuple).
  - reflexivity.
  - exact row_store_consistent.
  - exact row_store_bound.
  - repeat constructor.
  - constructor.
Defined.

End tuple_examples.

(** ** Marshallers *)

Section converter_facts.
Import converters.
Context `{GLibExt}.

(** The scalar types other than [double] come back from the wire as they
    went. A string has to be a valid C string in UTF-8 and an object path a
    valid path, or there is nothing to send. *)
Lemma roundtrip_S (s old : string) :
  c_str s = s → g_utf8_validate s = true →
  ∃ g, marshal TYPE_S s = Some g ∧ unmarshal TYPE_S g old = (true, s).
Proof.
  intros Hs Hu. exists (GString s). unfold marshal, marshal_S, g_variant_new_string.
  by rewrite Hs, Hu.
Qed.

Lemma roundtrip_O (path old : string) :
  c_str path = path → g_variant_is_object_path path = true →
  ∃ g, marshal TYPE_O path = Some g ∧ unmarshal TYPE_O g old = (true, path).
Proof.
  intros Hs Hp. exists (GObjectPath path). unfold marshal, marshal_O.
  by rewrite Hs, Hp.
Qed.

Lemma roundtrip_integers (i old : Z) :
  (∃ g, marshal TYPE_I i = Some g ∧ unmarshal TYPE_I g old = (true, i))
  ∧ (∃ g, marshal TYPE_U i = Some g ∧ unmarshal TYPE_U g old = (true, i))
  ∧ (∃ g, marshal TYPE_Y i = Some g ∧ unmarshal TYPE_Y g old = (true, i))
  ∧ (∃ g, marshal TYPE_N i = Some g ∧ unmarshal TYPE_N g old = (true, i))
  ∧ (∃ g, marshal TYPE_T i = Some g ∧ unmarshal TYPE_T g old = (true, i)).
Proof. repeat split; eexists; split; reflexivity. Qed.

Lemma roundtrip_B (b old : bool) :
  ∃ g, marshal TYPE_B b = Some g ∧ unmarshal TYPE_B g old = (true, b).
Proof. eexists; split; reflexivity. Qed.

Lemma c_str_empty : c_str "" = "".
Proof. reflexivity. Qed.

(** C2 does not hold for [double]: the unmarshaller of [TYPE_D] succeeds,
    but what it stores is the encoded value cast to [bool] and back, that
    is 1.0 for every datum other than a zero and +0.0 for the zeros. The
    value 2.5 comes back as 1.0. *)
Theorem unmarshal_D_goes_through_bool :
  (∀ x old : double,
     ∃ g, marshal TYPE_D x = Some g
          ∧ unmarshal TYPE_D g old = (true, bool_to_double (double_to_bool x)))
  ∧ marshal TYPE_D Sample.two_and_a_half = Some (GDouble Sample.two_and_a_half)
  ∧ unmarshal TYPE_D (GDouble Sample.two_and_a_half) double_zero = (true, double_one)
  ∧ double_one ≠ Sample.two_and_a_half
  ∧ SpecFloat.bounded 53 1024 5629499534213120 (-51) = true.
Proof.
  split; [|repeat split].
  - intros x old. eexists; split; reflexivity.
  - discriminate.
Qed.

End converter_facts.

(** ** The signal main loop *)

Section loop_facts.
Import Loop.


Lemma mainLoopInstance_stopped :
  mainLoopInstance {| initialised := true; context := false; loop := None |} =
    (false, {| initialised := true; context := false; loop := None |}).
Proof. reflexivity. Qed.



End loop_facts.

(** ** The call storage *)

Section registry_facts.
Import Client.
Context `{GLibExt} `{GDBusExt}.

Local Arguments rc.use_count : simpl never.
Local Arguments rc.ref : simpl never.
Local Arguments rc.unref : simpl never.
Local Arguments rc.deref : simpl never.

Lemma logAssert_true func d w : logAssert func true d w = (true, w).
Proof. reflexivity. Qed.

Lemma logAssert_false func d w :
  logAssert func false d w = (false, emit (ev_log func d) w).
Proof. reflexivity. Qed.

Lemma use_count_ref q (c : call_t) n (heap : gmap positive (call_t * positive)) :
  heap !! q = Some (c, n) →
  rc.use_count (Some q) (rc.ref q heap) = Npos (Pos.succ n).
Proof.
  intros Hq. unfold rc.use_count, rc.ref. by rewrite lookup_alter_eq, Hq.
Qed.

(** An acquire that finds the call with the registry as its only owner. *)
Lemma get_sole_owner this q c w :
  storage_destroyed w = false →
  calls w !! this = Some (Some q) →
  call_heap w !! q = Some (c, 1%positive) →
  get this w = ({| call := Some q |}, held q w).
Proof.
  intros Hd Hc Hq. unfold get, verboseStateCheck, bind, gets, modify, ret.
  rewrite Hd. simpl. rewrite Hc. simpl.
  unfold verboseCheckOwnership, bind, gets. simpl.
  rewrite (use_count_ref q c 1 _ Hq). simpl. reflexivity.
Qed.

Lemma set_call_heap_ref_unref q w :
  set_call_heap (rc.unref q) (set_call_heap (rc.ref q) w) = w.
Proof.
  destruct w. unfold set_call_heap. simpl. by rewrite ref_unref.
Qed.

(** An acquire while the call has another owner beside the registry. *)
Lemma get_shared this q c n w :
  storage_destroyed w = false →
  calls w !! this = Some (Some q) →
  call_heap w !! q = Some (c, n) →
  n ≠ 1%positive →
  let report func :=
    ev_log func (d_ownership (iface (object c) +:+ ":" +:+ method c) 2
                   (Npos (Pos.succ n))) in
  get this w = ({| call := None |},
                emit (report "~call_guard_t") (emit (report "get") w)).
Proof.
  intros Hd Hc Hq Hn report.
  unfold get, verboseStateCheck, bind, gets, modify, ret.
  rewrite Hd. simpl. rewrite Hc. simpl.
  unfold verboseCheckOwnership, bind, gets. simpl.
  rewrite (use_count_ref q c n _ Hq).
  assert (Hd1 : rc.deref q (rc.ref q (call_heap w)) = Some c).
  { unfold rc.deref, rc.ref. by rewrite lookup_alter_eq, Hq. }
  rewrite Hd1.
  rewrite (bool_decide_eq_false_2 (Npos (Pos.succ n) = 2%N)) by (intros [=]; lia).
  rewrite (bool_decide_eq_false_2 (Npos (Pos.succ n) = 0%N)) by done.
  simpl. unfold guard_dtor, bind, gets, modify, ret. simpl. rewrite Hd.
  unfold verboseCheckOwnership, bind, gets. simpl.
  rewrite (use_count_ref q c n _ Hq), Hd1.
  rewrite (bool_decide_eq_false_2 (Npos (Pos.succ n) = 2%N)) by (intros [=]; lia).
  rewrite (bool_decide_eq_false_2 (Npos (Pos.succ n) = 0%N)) by done.
  simpl. f_equal.
  destruct w. unfold emit, set_call_heap. simpl. by rewrite ref_unref.
Qed.

(** C3, amended: when an acquire finds the call with an owner beside the
    registry, so that the count it observes is not two, the violation is
    reported (by the acquire and again when its guard is destroyed) and
    the acquire returns an empty guard, having given its reference back;
    [callSync] then returns false. *)
Theorem get_refuses_shared_call (bus : bus_t) (this : N) (q : positive)
    (c : call_t) (n : positive) (w : world) :
  storage_destroyed w = false →
  calls w !! this = Some (Some q) →
  call_heap w !! q = Some (c, n) →
  n ≠ 1%positive →
  let report func :=
    ev_log func (d_ownership (iface (object c) +:+ ":" +:+ method c) 2
                   (Npos (Pos.succ n))) in
  get this w = ({| call := None |},
                emit (report "~call_guard_t") (emit (report "get") w))
  ∧ (callSync bus this w).1 = false.
Proof.
  intros Hd Hc Hq Hn report.
  pose proof (get_shared this q c n w Hd Hc Hq Hn) as Hget. simpl in Hget.
  split; [exact Hget|].
  unfold callSync, bind. rewrite Hget.
  unfold gets. simpl. unfold guard_dtor, bind, gets. simpl. rewrite Hd.
  reflexivity.
Qed.

End registry_facts.

Section registry_examples.
Import Client.
#[local] Existing Instance Sample.dbus.

(** C3, as stated, fails: with a guard of the call 900 outstanding, the
    next acquire sees three owners, reports it and returns an empty guard,
    and the pointer does not get a further owner. Without the outstanding
    guard the same acquire gives a guard for the call. *)
Lemma acquire_of_used_call_is_empty :
  (get 900 Sample.declared).1 = {| call := Some 1%positive |}
  ∧ (get 900 Sample.in_use).1 = {| call := None |}
  ∧ trace (get 900 Sample.in_use).2 =
      [ev_log "get"
         (d_ownership "com.lgi.rdk.utils.networkconfig1:GetResourceIds" 2 3);
       ev_log "~call_guard_t"
         (d_ownership "com.lgi.rdk.utils.networkconfig1:GetResourceIds" 2 3)]
  ∧ rc.use_count (Some 1%positive) (call_heap (get 900 Sample.in_use).2) = 2%N.
Proof. vm_compute. repeat split. Qed.

(** The amended C3 on the sample process. *)
Lemma get_refuses_shared_call_witness :
  let c := default {| params := []; object := fromName ""; method := "" |}
             (rc.deref 1%positive (call_heap Sample.in_use)) in
  let report func :=
    ev_log func (d_ownership (iface (object c) +:+ ":" +:+ method c) 2 3) in
  get 900 Sample.in_use =
    ({| call := None |},
     emit (report "~call_guard_t") (emit (report "get") Sample.in_use))
  ∧ (callSync Sample.bus_up 900 Sample.in_use).1 = false.
Proof.
  apply (get_refuses_shared_call (H0:=Sample.dbus) Sample.bus_up 900 1%positive
           _ 2%positive Sample.in_use);
    [reflexivity | reflexivity | reflexivity | lia].
Defined.

End registry_examples.

(** ** The proxy cache *)

Section pool_facts.
Import Client.
Context `{GDBusExt} (bus : bus_t).

Lemma set_proxies_same target px w :
  proxies w !! target = Some px → set_proxies (<[target := px]>) w = w.
Proof.
  intros Hp. destruct w. unfold set_proxies. simpl in *. by rewrite insert_id.
Qed.

(** A lookup that finds a valid proxy returns it and changes nothing. *)
Lemma instanceFor_cached obj px w :
  proxies w !! target_of obj = Some px →
  proxy px ≠ None →
  instanceFor bus obj USE_EXISTING w = (px, w).
Proof.
  intros Hp Hv. unfold instanceFor, bind, gets, modify, ret. rewrite Hp. simpl.
  rewrite (bool_decide_eq_false_2 (proxy px = None)) by done.
  simpl. by rewrite (set_proxies_same _ px).
Qed.

(** A lookup that has to create the proxy: under [RECREATE], or when the
    cache has no valid proxy for the target. *)
Lemma instanceFor_creates obj policy w :
  policy = RECREATE
  ∨ default None (proxy <$> proxies w !! target_of obj) = None →
  let r := instanceFor bus obj policy w in
  n_new r.2 = S (n_new w)
  ∧ proxies r.2 !! target_of obj = Some r.1
  ∧ proxy r.1 = match proxy_new bus (n_new w) obj with
                | None => Some (fresh (gproxies w))
                | Some _ => None
                end
  ∧ n_call r.2 = n_call w.
Proof.
  intros Hcase. unfold instanceFor, bind, gets, modify, ret.
  set (cached := default {| proxy := None; obj_name := "" |}
                   (proxies w !! target_of obj)).
  assert (Hgo : bool_decide (policy = RECREATE) || bool_decide (proxy cached = None)
                = true).
  { destruct Hcase as [->|Hc]; [done|].
    apply orb_true_iff. right. apply bool_decide_eq_true.
    unfold cached. by destruct (proxies w !! target_of obj). }
  simpl. rewrite Hgo. unfold proxy_ctor, bind, gets, modify, ret. simpl.
  destruct (proxy_new bus (n_new w) obj) as [e|]; simpl.
  - unfold gerror_verboseCheckNoErr, proxy_assign, bind. simpl.
    destruct (decide (proxy cached ≠ None)) as [Hx|Hx]; simpl.
    + destruct (proxy cached); simpl; by rewrite lookup_insert_eq.
    + apply dec_stable in Hx. rewrite Hx. simpl. by rewrite lookup_insert_eq.
  - unfold proxy_assign, bind. simpl.
    destruct (decide (proxy cached ≠ Some (fresh (gproxies w)))) as [Hx|Hx]; simpl.
    + destruct (proxy cached); simpl; by rewrite lookup_insert_eq.
    + apply dec_stable in Hx. rewrite Hx. simpl. by rewrite lookup_insert_eq.
Qed.

(** A lookup for another target leaves the entry of this one alone. *)
Lemma instanceFor_other obj obj' policy w :
  target_of obj' ≠ target_of obj →
  proxies (instanceFor bus obj' policy w).2 !! target_of obj
    = proxies w !! target_of obj.
Proof.
  intros Hne. unfold instanceFor, bind, gets, modify, ret. simpl.
  destruct (_ || _); simpl.
  - unfold proxy_ctor, bind, gets, modify, ret. simpl.
    destruct (proxy_new bus (n_new w) obj'); simpl;
      unfold gerror_verboseCheckNoErr, proxy_assign, bind; simpl;
      destruct (decide _); simpl;
      try (destruct (proxy (default _ _)); simpl);
      by rewrite !lookup_insert_ne.
  - by rewrite lookup_insert_ne.
Qed.

Lemma lookups_cached obj px w n :
  proxies w !! target_of obj = Some px →
  proxy px ≠ None →
  lookups bus obj USE_EXISTING n w = (replicate n px, w).
Proof.
  intros Hp Hv. induction n as [|n IH]; [done|].
  simpl. unfold bind. rewrite (instanceFor_cached obj px w Hp Hv). by rewrite IH.
Qed.

(** A lookup that creates the proxy, in a cache that owns its proxies:
    the entry of the target becomes the proxy that is returned, the proxy
    the entry held is released, and a proxy that was created is an object
    that was not live before, so it is not the one the entry held. *)
Lemma instanceFor_created obj policy w :
  pool_ok w →
  policy = RECREATE ∨ cached_proxy obj w = None →
  let r := instanceFor bus obj policy w in
  proxies r.2 = <[target_of obj := r.1]> (proxies w)
  ∧ n_new r.2 = S (n_new w)
  ∧ match proxy_new bus (n_new w) obj with
    | None => (∃ q, proxy r.1 = Some q ∧ (q ∉ gproxies w)
                 ∧ cached_proxy obj w ≠ Some q
                 ∧ gproxies r.2
                   = {[q]} ∪ (gproxies w ∖ proxy_set (cached_proxy obj w)))
    | Some _ => proxy r.1 = None
                ∧ gproxies r.2 = gproxies w ∖ proxy_set (cached_proxy obj w)
    end.
Proof.
  intros [Hlive Hinj] Hcase. unfold instanceFor, bind, gets, modify, ret.
  unfold cached_proxy in *.
  set (cached := default {| proxy := None; obj_name := "" |}
                   (proxies w !! target_of obj)).
  assert (Hold : proxies w !! target_of obj ≫= proxy = proxy cached).
  { unfold cached. by destruct (proxies w !! target_of obj). }
  rewrite Hold in *.
  assert (Hgo : bool_decide (policy = RECREATE) || bool_decide (proxy cached = None)
                = true).
  { destruct Hcase as [->|Hc]; [done|].
    apply orb_true_iff. right. by apply bool_decide_eq_true. }
  assert (Hin : ∀ p, proxy cached = Some p → p ∈ gproxies w).
  { intros p Hp. unfold cached in Hp.
    destruct (proxies w !! target_of obj) as [px|] eqn:E; [|done].
    by eapply Hlive. }
  pose proof (is_fresh (gproxies w)) as Hfresh.
  simpl. rewrite Hgo. unfold proxy_ctor, bind, gets, modify, ret. simpl.
  destruct (proxy_new bus (n_new w) obj) as [e|]; simpl.
  - unfold gerror_verboseCheckNoErr, proxy_assign, bind. simpl.
    destruct (decide (proxy cached ≠ None)) as [Hx|Hx]; simpl.
    + destruct (proxy cached) as [p|] eqn:Hp; [|done]. simpl.
      split; [apply (insert_insert_eq (proxies w))|]. done.
    + apply dec_stable in Hx. rewrite Hx. simpl.
      split; [apply (insert_insert_eq (proxies w))|]. split; [done|]. split; [done|].
      by rewrite difference_empty_L.
  - unfold proxy_assign, bind. simpl.
    destruct (decide (proxy cached ≠ Some (fresh (gproxies w)))) as [Hx|Hx]; simpl.
    + destruct (proxy cached) as [p|] eqn:Hp; simpl.
      * split; [apply (insert_insert_eq (proxies w))|]. split; [done|].
        exists (fresh (gproxies w)). split; [done|]. split; [done|].
        split; [done|]. apply set_eq. intros x.
        assert (p ≠ fresh (gproxies w)) by congruence.
        rewrite elem_of_difference, !elem_of_union, elem_of_difference,
          !elem_of_singleton. intuition congruence.
      * split; [apply (insert_insert_eq (proxies w))|]. split; [done|].
        exists (fresh (gproxies w)). split; [done|]. split; [done|].
        split; [done|]. by rewrite difference_empty_L.
    + apply dec_stable in Hx. exfalso. apply Hfresh. by apply Hin.
Qed.

Lemma pool_ok_empty w : proxies w = ∅ → pool_ok w.
Proof.
  intros Hw. split.
  - intros t px p Ht. by rewrite Hw, lookup_empty in Ht.
  - intros t1 t2 px1 px2 p Ht. by rewrite Hw, lookup_empty in Ht.
Qed.

(** The lookups keep the cache the owner of its proxies. *)
Lemma instanceFor_pool_ok obj policy w :
  pool_ok w → pool_ok (instanceFor bus obj policy w).2.
Proof.
  intros Hok.
  destruct (decide (policy = RECREATE ∨ cached_proxy obj w = None)) as [Hcase|Hcase].
  - destruct (instanceFor_created obj policy w Hok Hcase) as (Hp & _ & Hnew).
    destruct Hok as [Hlive Hinj].
    set (r := instanceFor bus obj policy w) in *.
    assert (Hkeep : ∀ t px p, t ≠ target_of obj → proxies w !! t = Some px →
              proxy px = Some p → p ∈ gproxies w ∖ proxy_set (cached_proxy obj w)).
    { intros t px p Ht Hpx Hpp. apply elem_of_difference. split; [by eapply Hlive|].
      unfold cached_proxy. destruct (proxies w !! target_of obj) as [old|] eqn:E;
        simpl; [|by apply not_elem_of_empty].
      destruct (proxy old) as [p'|] eqn:E'; simpl; [|by apply not_elem_of_empty].
      rewrite elem_of_singleton. intros ->. apply Ht. by eapply Hinj. }
    assert (Hr : ∀ p, proxy r.1 = Some p →
              p ∈ gproxies r.2 ∧ p ∉ gproxies w).
    { intros p Hpp. destruct (proxy_new bus (n_new w) obj).
      - destruct Hnew as [Hnone _]. congruence.
      - destruct Hnew as (q & Hq & Hfresh & _ & Hg).
        assert (p = q) by congruence. subst q. split; [|done].
        rewrite Hg. apply elem_of_union. left. by apply elem_of_singleton. }
    assert (Hsub : gproxies w ∖ proxy_set (cached_proxy obj w) ⊆ gproxies r.2).
    { destruct (proxy_new bus (n_new w) obj).
      - destruct Hnew as [_ ->]. done.
      - destruct Hnew as (q & _ & _ & _ & ->). apply union_subseteq_r. }
    split.
    + intros t px p. rewrite Hp. intros Ht Hpp.
      apply lookup_insert_Some in Ht as [[<- <-]|[Hne Ht]].
      * by apply Hr.
      * apply Hsub. by eapply Hkeep.
    + intros t1 t2 px1 px2 p. rewrite Hp. intros Ht1 Ht2 Hp1 Hp2.
      apply lookup_insert_Some in Ht1 as [[<- <-]|[Hne1 Ht1]];
        apply lookup_insert_Some in Ht2 as [[<- <-]|[Hne2 Ht2]].
      * done.
      * exfalso. apply (Hr p Hp1). by eapply Hlive.
      * exfalso. apply (Hr p Hp2). by eapply Hlive.
      * by eapply Hinj.
  - assert (Hpol : policy = USE_EXISTING).
    { destruct policy; [done|]. exfalso. apply Hcase. by left. }
    assert (Hc : cached_proxy obj w ≠ None) by (intros Hn; apply Hcase; by right).
    unfold cached_proxy in Hc.
    destruct (proxies w !! target_of obj) as [px|] eqn:E; [|done].
    simpl in Hc. subst policy. by rewrite (instanceFor_cached obj px w E Hc).
Qed.

(** C7: with [USE_EXISTING], lookups for one triple that follow each
    other return one and the same proxy, the cached one, which the first
    lookup creates if the cache has no valid proxy for the triple (the
    creation not failing); the later lookups create nothing and leave the
    process as it is. With [RECREATE], in a cache that owns its proxies, a
    lookup always asks the bus for a new proxy, and the entry of the
    triple, and of no other, becomes what is returned. When the bus gives
    the proxy, it is a new object: one that was not live before the
    lookup, hence not the proxy the entry held, and it is live afterwards,
    while the proxy the entry held is released. When the bus refuses, the
    entry is left without a proxy. The cache still owns its proxies
    afterwards, so that the same holds of the next lookup. *)
Theorem instanceFor_policies (obj : obj_desc_t) (w : world) (n : nat) :
  (proxy_new bus (n_new w) obj = None →
   let first := instanceFor bus obj USE_EXISTING w in
   let later := lookups bus obj USE_EXISTING n first.2 in
   (∃ p, proxy first.1 = Some p)
   ∧ later.1 = replicate n first.1
   ∧ later.2 = first.2
   ∧ proxies later.2 !! target_of obj = Some first.1
   ∧ (∀ old, proxies w !! target_of obj = Some old → proxy old ≠ None →
        first = (old, w)))
  ∧ (pool_ok w →
     let r := instanceFor bus obj RECREATE w in
     n_new r.2 = S (n_new w)
     ∧ proxies r.2 = <[target_of obj := r.1]> (proxies w)
     ∧ match proxy_new bus (n_new w) obj with
       | None =>
           (∃ q, proxy r.1 = Some q
              ∧ (q ∉ gproxies w)
              ∧ cached_proxy obj w ≠ Some q
              ∧ gproxies r.2
                = {[q]} ∪ (gproxies w ∖ proxy_set (cached_proxy obj w)))
       | Some _ =>
           proxy r.1 = None
           ∧ gproxies r.2 = gproxies w ∖ proxy_set (cached_proxy obj w)
       end
     ∧ pool_ok r.2).
Proof.
  split.
  - intros Hnew first later.
    assert (Hfirst : (∃ p, proxy first.1 = Some p)
                     ∧ proxies first.2 !! target_of obj = Some first.1
                     ∧ (∀ old, proxies w !! target_of obj = Some old →
                          proxy old ≠ None → first = (old, w))).
    { subst first.
      destruct (proxies w !! target_of obj) as [old|] eqn:Hold.
      - destruct (proxy old) as [p|] eqn:Hp.
        + assert (Hv : proxy old ≠ None) by congruence.
          rewrite (instanceFor_cached obj old w Hold Hv). simpl.
          split; [eauto|]. split; [done|]. by intros ? [= <-] _.
        + destruct (instanceFor_creates obj USE_EXISTING w) as (H1 & H2 & H3 & _).
          { right. by rewrite Hold; simpl. }
          rewrite Hnew in H3. split; [eauto|]. split; [done|].
          intros ? [= <-] Hv. congruence.
      - destruct (instanceFor_creates obj USE_EXISTING w) as (H1 & H2 & H3 & _).
        { right. by rewrite Hold. }
        rewrite Hnew in H3. split; [eauto|]. split; [done|]. intros ? [=]. }
    destruct Hfirst as ([p Hp] & Hc & Hold).
    assert (Hv : proxy first.1 ≠ None) by congruence.
    subst later. rewrite (lookups_cached obj first.1 first.2 n Hc Hv). simpl.
    split; [eauto|]. done.
  - intros Hok r.
    destruct (instanceFor_created obj RECREATE w Hok) as (H1 & H2 & H3); [by left|].
    split; [done|]. split; [done|]. split; [exact H3|].
    by apply instanceFor_pool_ok.
Qed.

End pool_facts.

Lemma connected_pool_ok : pool_ok Sample.connected.
Proof.
  apply (instanceFor_pool_ok (H:=Sample.dbus)). by apply pool_ok_empty.
Qed.

(** C7 for the target of the sample call, in the process whose cache
    holds a proxy for it: four lookups that use it, and one that replaces
    it. *)
Lemma instanceFor_policies_witness :
  let obj := Client.fromName "com.lgi.rdk.utils.networkconfig1" in
  let w := Sample.connected in
  (let first := Client.instanceFor (H0:=Sample.dbus) Sample.bus_up obj
                  Client.USE_EXISTING w in
   let later := Client.lookups (H0:=Sample.dbus) Sample.bus_up obj
                  Client.USE_EXISTING 3 first.2 in
   (∃ p, Client.proxy first.1 = Some p)
   ∧ later.1 = replicate 3 first.1
   ∧ later.2 = first.2
   ∧ Client.proxies later.2 !! Client.target_of obj = Some first.1
   ∧ (∀ old, Client.proxies w !! Client.target_of obj = Some old →
        Client.proxy old ≠ None → first = (old, w)))
  ∧ (let r := Client.instanceFor (H0:=Sample.dbus) Sample.bus_up obj
                Client.RECREATE w in
     Client.n_new r.2 = S (Client.n_new w)
     ∧ Client.proxies r.2 = <[Client.target_of obj := r.1]> (Client.proxies w)
     ∧ match Client.proxy_new Sample.bus_up (Client.n_new w) obj with
       | None =>
           (∃ q, Client.proxy r.1 = Some q
              ∧ (q ∉ Client.gproxies w)
              ∧ cached_proxy obj w ≠ Some q
              ∧ Client.gproxies r.2
                = {[q]} ∪ (Client.gproxies w ∖ proxy_set (cached_proxy obj w)))
       | Some _ =>
           Client.proxy r.1 = None
           ∧ Client.gproxies r.2
             = Client.gproxies w ∖ proxy_set (cached_proxy obj w)
       end
     ∧ pool_ok r.2).
Proof.
  intros obj w.
  destruct (instanceFor_policies (H:=Sample.dbus) Sample.bus_up obj w 3)
    as [Huse Hre].
  split; [apply Huse; reflexivity|apply Hre; exact connected_pool_ok].
Defined.

Example three_lookups_one_proxy :
  (Client.lookups (H0:=Sample.dbus) Sample.bus_up
     (Client.fromName "com.lgi.rdk.utils.networkconfig1") Client.USE_EXISTING 3
     Sample.declared).1
  = replicate 3 {| Client.proxy := Some 1%positive;
                   Client.obj_name := "com.lgi.rdk.utils.networkconfig1" |}.
Proof. vm_compute. reflexivity. Qed.

(** The proxy of the sample target is the object 1; a lookup with
    [RECREATE] makes the object 2 of it and releases the object 1. *)
Example recreate_replaces_the_proxy :
  let obj := Client.fromName "com.lgi.rdk.utils.networkconfig1" in
  let r := Client.instanceFor (H0:=Sample.dbus) Sample.bus_up obj Client.RECREATE
             Sample.connected in
  cached_proxy obj Sample.connected = Some 1%positive
  ∧ Client.proxy r.1 = Some 2%positive
  ∧ cached_proxy obj r.2 = Some 2%positive
  ∧ Client.gproxies r.2 = {[2%positive]}.
Proof. vm_compute. repeat split. Qed.

(** ** [callSync] *)

Section callsync_facts.
Import Client.
Context `{GDBusExt} (bus : bus_t).

Local Arguments rc.use_count : simpl never.
Local Arguments rc.ref : simpl never.
Local Arguments rc.unref : simpl never.
Local Arguments rc.deref : simpl never.
Local Arguments retry_loop : simpl never.

Lemma steps_app tr1 tr2 : steps (tr1 ++ tr2) = steps tr1 ++ steps tr2.
Proof. apply omap_app. Qed.

Lemma same_storage_refl w : same_storage w w.
Proof. done. Qed.

Lemma same_storage_trans w1 w2 w3 :
  same_storage w1 w2 → same_storage w2 w3 → same_storage w1 w3.
Proof. unfold same_storage. intros (?&?&?) (?&?&?). repeat split; congruence. Qed.

Ltac mstep := unfold bind, gets, modify, ret, logAssert; simpl.

(** [logAssert] adds at most a report. *)
Lemma logAssert_frame func b d w :
  (logAssert func b d w).1 = b
  ∧ same_storage w (logAssert func b d w).2
  ∧ memory (logAssert func b d w).2 = memory w
  ∧ n_call (logAssert func b d w).2 = n_call w
  ∧ steps (trace (logAssert func b d w).2) = steps (trace w).
Proof.
  destruct b; mstep; repeat split; try done.
  rewrite steps_app. simpl. by rewrite app_nil_r.
Qed.

(** A lookup in the proxy cache leaves the call storage, the memory of
    the parameters and the observed steps alone, and gives an invalid
    proxy only when the creation of a proxy fails. *)
Lemma instanceFor_frame obj policy w :
  same_storage w (instanceFor bus obj policy w).2
  ∧ memory (instanceFor bus obj policy w).2 = memory w
  ∧ n_call (instanceFor bus obj policy w).2 = n_call w
  ∧ steps (trace (instanceFor bus obj policy w).2) = steps (trace w)
  ∧ (proxy (instanceFor bus obj policy w).1 = None →
     is_Some (proxy_new bus (n_new w) obj)).
Proof.
  unfold instanceFor. mstep.
  set (cached := default {| proxy := None; obj_name := "" |}
                   (proxies w !! target_of obj)).
  destruct (bool_decide (policy = RECREATE) || bool_decide (proxy cached = None))
    eqn:Hgo; simpl.
  - unfold proxy_ctor. mstep.
    destruct (proxy_new bus (n_new w) obj) as [e|]; simpl.
    + unfold gerror_verboseCheckNoErr, proxy_assign. mstep.
      destruct (decide (proxy cached ≠ None)) as [Hx|Hx]; simpl.
      * destruct (proxy cached); simpl; repeat split; eauto;
          rewrite !steps_app; simpl; by rewrite !app_nil_r.
      * repeat split; eauto; rewrite !steps_app; simpl; by rewrite !app_nil_r.
    + unfold proxy_assign. mstep.
      destruct (decide (proxy cached ≠ Some (fresh (gproxies w)))) as [Hx|Hx]; simpl.
      * destruct (proxy cached); simpl; repeat split; try done;
          rewrite !steps_app; simpl; by rewrite !app_nil_r.
      * apply dec_stable in Hx.
        repeat split; try done.
        -- rewrite !steps_app; simpl; by rewrite !app_nil_r.
        -- rewrite Hx. done.
  - apply orb_false_iff in Hgo as [_ Hc%bool_decide_eq_false].
    repeat split; try done.
Qed.

Lemma marshal_inputs_frame ps : ∀ acc w,
  same_storage w (marshal_inputs ps acc w).2
  ∧ memory (marshal_inputs ps acc w).2 = memory w
  ∧ n_call (marshal_inputs ps acc w).2 = n_call w
  ∧ steps (trace (marshal_inputs ps acc w).2) = steps (trace w).
Proof.
  induction ps as [|p ps IH]; intros acc w; simpl; [done|].
  destruct (marshal p) as [f|]; [|apply IH].
  mstep. destruct (f (memory w)) as [v|]; simpl.
  - apply IH.
  - repeat split; try done. rewrite steps_app. simpl. by rewrite app_nil_r.
Qed.

(** When every input marshals, the first loop gives the input tuple and
    reports nothing. *)
Lemma marshal_inputs_ok ps : ∀ acc w,
  Forall (λ p, ∀ f, marshal p = Some f → is_Some (f (memory w))) ps →
  ∃ ins, marshal_inputs ps acc w = (Some ins, w).
Proof.
  induction ps as [|p ps IH]; intros acc w Hall; simpl; [by eexists|].
  inversion Hall as [|?? Hp Hps]; subst.
  destruct (marshal p) as [f|] eqn:Hf; [|by apply IH].
  destruct (Hp f eq_refl) as [v Hv]. mstep. rewrite Hv. simpl. by apply IH.
Qed.

(** One round, given what is known of the rounds that follow. *)
Lemma attempt_call_frame c t policy again w0 :
  (∀ e w, same_storage w (again e w).2 ∧ memory (again e w).2 = memory w
          ∧ ∃ sts, steps (trace (again e w).2) = steps (trace w) ++ sts
                   ∧ Forall bus_step sts) →
  same_storage w0 (attempt_call bus c t policy again w0).2
  ∧ memory (attempt_call bus c t policy again w0).2 = memory w0
  ∧ ∃ sts, steps (trace (attempt_call bus c t policy again w0).2)
             = steps (trace w0) ++ sts
           ∧ Forall bus_step sts.
Proof.
  intros IH. unfold attempt_call, bind, proxy_verboseCheckNoErr.
  pose proof (instanceFor_frame (object c) policy w0) as (F1 & F2 & F3 & F4 & _).
  destruct (instanceFor bus (object c) policy w0) as [px w1]. simpl in *.
  destruct (proxy px) as [p|]; mstep.
  - unfold g_dbus_proxy_call_sync. mstep.
    destruct (call_sync bus (n_call w1) p (c_str (method c)) t) as [e|out]; simpl.
    + match goal with |- context [again e ?w3] =>
        destruct (IH e w3) as (I1 & I2 & sts & I3 & I4) end.
      simpl in *. split; [|split].
      * eapply same_storage_trans; [exact F1|exact I1].
      * congruence.
      * exists (attempt :: sts). rewrite I3, steps_app. simpl.
        rewrite F4, <- app_assoc. split; [done|]. by constructor.
    + split; [|split].
      * exact F1.
      * congruence.
      * exists [attempt]. rewrite steps_app. simpl. rewrite F4.
        split; [done|]. by repeat constructor.
  - split; [|split].
    + exact F1.
    + congruence.
    + exists []. rewrite steps_app, app_nil_r. simpl. rewrite app_nil_r.
      split; [congruence|done].
Qed.

Lemma retry_loop_O c t err :
  retry_loop bus c t 0 err = ret (left_loop None err).
Proof. reflexivity. Qed.

Lemma retry_loop_S c t n err :
  retry_loop bus c t (S n) err =
    let round :=
      attempt_call bus c t
        (if decide (S n = MAX_ATTEMPTS) then USE_EXISTING else RECREATE)
        (λ e, retry_loop bus c t n (Some e)) in
    if bool_decide (errType err ∈ retriableErrors)
    then bind (modify (emit (ev_sleep WAIT_MS))) (λ _, round)
    else if bool_decide (errType err ≠ NOERR) then ret (left_loop None err)
    else round.
Proof. reflexivity. Qed.

(** The retry loop, whatever the bus answers. *)
Lemma retry_loop_frame c t attempts : ∀ err w,
  same_storage w (retry_loop bus c t attempts err w).2
  ∧ memory (retry_loop bus c t attempts err w).2 = memory w
  ∧ ∃ sts, steps (trace (retry_loop bus c t attempts err w).2)
             = steps (trace w) ++ sts
           ∧ Forall bus_step sts.
Proof.
  induction attempts as [|n IH]; intros err w.
  - rewrite retry_loop_O. unfold ret. simpl. repeat split. exists [].
    by rewrite app_nil_r.
  - rewrite retry_loop_S. cbv zeta.
    destruct (bool_decide (errType err ∈ retriableErrors)).
    + unfold bind, modify.
      match goal with |- context [attempt_call bus c t ?pol ?again ?w0] =>
        destruct (attempt_call_frame c t pol again w0)
          as (A1 & A2 & sts & A3 & A4) end.
      { intros e w'. apply IH. }
      split; [exact A1|]. split; [exact A2|].
      exists (sleep WAIT_MS :: sts). rewrite A3. simpl. rewrite steps_app. simpl.
      rewrite <- app_assoc. split; [done|]. by constructor.
    + destruct (bool_decide (errType err ≠ NOERR)).
      * simpl. repeat split. exists []. by rewrite app_nil_r.
      * apply attempt_call_frame. intros e w'. apply IH.
Qed.

Lemma unmarshal_outputs_frame ps : ∀ outs w,
  same_storage w (unmarshal_outputs ps outs w).2
  ∧ steps (trace (unmarshal_outputs ps outs w).2) = steps (trace w).
Proof.
  induction ps as [|p ps IH]; intros outs w; simpl; [done|].
  destruct (unmarshal p) as [f|]; [|apply IH].
  destruct outs as [|v more]; [done|].
  mstep. destruct (f v (memory w)) as [r m]. simpl.
  destruct r; simpl.
  - match goal with |- context [unmarshal_outputs ps more ?w1] =>
      destruct (IH more w1) as [I1 I2] end.
    split; [exact I1|]. by rewrite I2.
  - split; [done|]. rewrite steps_app. simpl. by rewrite app_nil_r.
Qed.

(** The destructor of the cleanup guard after a failure: every cleanup
    closure is called, in the order of the parameters. *)
Lemma run_cleanup_spec ps : ∀ w,
  same_storage w (run_cleanup ps w).2
  ∧ memory (run_cleanup ps w).2 = foldl (λ m p, cleanup p m) (memory w) ps
  ∧ steps (trace (run_cleanup ps w).2)
      = steps (trace w) ++ (reset_of ∘ p_name <$> ps).
Proof.
  induction ps as [|p ps IH]; intros w; simpl.
  - repeat split. by rewrite app_nil_r.
  - mstep.
    match goal with |- context [run_cleanup ps ?w1] =>
      destruct (IH w1) as (I1 & I2 & I3) end.
    simpl in *. split; [exact I1|]. split; [exact I2|].
    rewrite I3, steps_app. simpl. by rewrite <- app_assoc.
Qed.

Lemma callSync_body_frame c w :
  same_storage w (callSync_body bus c w).2
  ∧ ∃ sts, steps (trace (callSync_body bus c w).2) = steps (trace w) ++ sts
           ∧ Forall bus_step sts.
Proof.
  unfold callSync_body, bind.
  pose proof (marshal_inputs_frame (params c) [] w) as (M1 & M2 & _ & M4).
  destruct (marshal_inputs (params c) [] w) as [[ins|] w1]; simpl in *.
  - pose proof (retry_loop_frame c (GTuple ins) MAX_ATTEMPTS None w1)
      as (R1 & R2 & sts & R3 & R4).
    destruct (retry_loop bus c (GTuple ins) MAX_ATTEMPTS None w1)
      as [[|out err] w2]; simpl in *.
    + split; [exact (same_storage_trans _ _ _ M1 R1)|].
      exists sts. by rewrite R3, M4.
    + unfold gerror_verboseCheckNoErr. destruct err as [e|]; mstep.
      * split; [exact (same_storage_trans _ _ _ M1 R1)|].
        exists sts. rewrite steps_app, R3, M4. simpl. by rewrite app_nil_r.
      * destruct out as [t|]; mstep.
        -- pose proof (unmarshal_outputs_frame (params c) (g_variant_children t) w2)
             as (U1 & U2).
           split.
           ++ eapply same_storage_trans; [exact M1|].
              eapply same_storage_trans; [exact R1|exact U1].
           ++ exists sts. by rewrite U2, R3, M4.
        -- split; [exact (same_storage_trans _ _ _ M1 R1)|].
           exists sts. rewrite steps_app, R3, M4. simpl. by rewrite app_nil_r.
  - split; [done|]. exists []. by rewrite app_nil_r.
Qed.

(** The destructor of a guard that, with the registry, is one of two
    owners: no report, and the call is back with the registry alone. *)
Lemma guard_dtor_held q c w :
  storage_destroyed w = false →
  call_heap w !! q = Some (c, 2%positive) →
  guard_dtor {| call := Some q |} w = (tt, set_call_heap (rc.unref q) w).
Proof.
  intros Hd Hq. unfold guard_dtor, verboseCheckOwnership. mstep.
  rewrite Hd. simpl. unfold rc.use_count. rewrite Hq. simpl. reflexivity.
Qed.

(** [callSync] once the call is acquired: the body, the cleanup closures
    if the body failed, and the release of the guard. *)
Lemma callSync_acquired this q c w :
  storage_destroyed w = false →
  calls w !! this = Some (Some q) →
  call_heap w !! q = Some (c, 1%positive) →
  let body := callSync_body bus c (held q w) in
  callSync bus this w =
    (body.1,
     set_call_heap (rc.unref q)
       (if body.1 then body.2 else (run_cleanup (params c) body.2).2)).
Proof.
  intros Hd Hc Hq body. unfold callSync. unfold bind at 1.
  rewrite (get_sole_owner this q c w Hd Hc Hq).
  assert (Hq2 : call_heap (held q w) !! q = Some (c, 2%positive)).
  { unfold held. simpl. unfold rc.ref. by rewrite lookup_alter_eq, Hq. }
  unfold bind at 1. unfold gets at 1. simpl.
  assert (Hdr : rc.deref q (rc.ref q (call_heap w)) = Some c).
  { unfold rc.deref, rc.ref. by rewrite lookup_alter_eq, Hq. }
  rewrite Hdr.
  unfold bind at 1.
  pose proof (callSync_body_frame c (held q w)) as ((B1 & B2 & B3) & _).
  subst body. destruct (callSync_body bus c (held q w)) as [r wb]. simpl in *.
  unfold cleanup_guard_dtor. destruct r.
  - mstep. rewrite (guard_dtor_held q c wb); [done|congruence|congruence].
  - unfold bind at 1.
    pose proof (run_cleanup_spec (params c) wb) as ((C1 & C2 & C3) & _).
    destruct (run_cleanup (params c) wb) as [[] wc]. simpl in *.
    unfold bind. rewrite (guard_dtor_held q c wc); [done|congruence|congruence].
Qed.

(** [errType] of an error that is set is never [NOERR]. *)
Lemma errType_set e : errType (Some e) ≠ NOERR.
Proof.
  unfold errType, errorMap.
  destruct (_ !! (domain e, code e)) as [k|] eqn:Hk; simpl; [|done].
  apply lookup_insert_Some in Hk as [[_ <-]|[_ Hk]]; [done|].
  apply lookup_insert_Some in Hk as [[_ <-]|[_ Hk]]; [done|].
  apply lookup_singleton_Some in Hk as [_ <-]. done.
Qed.

(** One round whose proxy is valid and whose call fails. *)
Lemma attempt_call_fails c t policy again w :
  proxy_new bus (n_new w) (object c) = None →
  (∀ p, ∃ e, call_sync bus (n_call w) p (c_str (method c)) t = inl e) →
  ∃ p e w1,
    call_sync bus (n_call w) p (c_str (method c)) t = inl e
    ∧ attempt_call bus c t policy again w = again e w1
    ∧ same_storage w w1 ∧ memory w1 = memory w
    ∧ n_call w1 = S (n_call w) ∧ n_new w1 = n_new (instanceFor bus (object c) policy w).2
    ∧ steps (trace w1) = steps (trace w) ++ [attempt].
Proof.
  intros Hnew Hfail. unfold attempt_call, bind, proxy_verboseCheckNoErr.
  pose proof (instanceFor_frame (object c) policy w) as (F1 & F2 & F3 & F4 & F5).
  destruct (instanceFor bus (object c) policy w) as [px w1]. simpl in *.
  destruct (proxy px) as [p|]; [|destruct F5 as [? F5]; congruence].
  mstep. unfold g_dbus_proxy_call_sync. mstep. rewrite F3.
  destruct (Hfail p) as [e He]. rewrite He.
  exists p, e. eexists. split; [done|]. split; [reflexivity|].
  simpl. repeat split; try apply F1; try done.
  rewrite steps_app. simpl. by rewrite F4.
Qed.

Lemma instanceFor_n_new obj policy w :
  (n_new w ≤ n_new (instanceFor bus obj policy w).2)%nat.
Proof.
  unfold instanceFor. mstep.
  destruct (_ || _); simpl; [|lia].
  unfold proxy_ctor. mstep.
  destruct (proxy_new bus (n_new w) obj); simpl.
  - unfold gerror_verboseCheckNoErr, proxy_assign. mstep.
    destruct (decide _); simpl; [destruct (proxy _)|]; simpl; lia.
  - unfold proxy_assign. mstep.
    destruct (decide _); simpl; [destruct (proxy _)|]; simpl; lia.
Qed.

(** The retry loop on a bus where proxies can be created and every call
    fails with a retriable error. *)
Lemma retry_loop_retriable c t :
  (∀ k, proxy_new bus k (object c) = None) →
  (∀ k p m t', ∃ e, call_sync bus k p m t' = inl e ∧ retriable e) →
  ∀ n err w,
    (err = None ∨ ∃ e, err = Some e ∧ retriable e) →
    ∃ err' w',
      retry_loop bus c t n err w = (left_loop None err', w')
      ∧ (n ≠ O → ∃ e, err' = Some e)
      ∧ same_storage w w' ∧ memory w' = memory w
      ∧ steps (trace w') = steps (trace w) ++ plan n err.
Proof.
  intros Hnew Hfail. induction n as [|n IH]; intros err w Herr.
  - rewrite retry_loop_O. exists err, w. unfold ret.
    split; [done|]. split; [done|]. split; [done|]. split; [done|].
    destruct err; simpl; by rewrite app_nil_r.
  - rewrite retry_loop_S. cbv zeta.
    assert (Hround : ∀ w0 policy,
      ∃ err' w',
        attempt_call bus c t policy (λ e, retry_loop bus c t n (Some e)) w0
          = (left_loop None err', w')
        ∧ (∃ e, err' = Some e)
        ∧ same_storage w0 w' ∧ memory w' = memory w0
        ∧ steps (trace w') = steps (trace w0) ++ attempt :: retries n).
    { intros w0 policy.
      destruct (attempt_call_fails c t policy
                  (λ e, retry_loop bus c t n (Some e)) w0)
        as (p & e & w1 & He & -> & S1 & M1 & _ & _ & T1).
      { apply Hnew. }
      { intros p. destruct (Hfail (n_call w0) p (c_str (method c)) t) as (e & He & _).
        eauto. }
      destruct (Hfail (n_call w0) p (c_str (method c)) t) as (e' & He' & Hr).
      assert (e' = e) by congruence. subst e'.
      destruct (IH (Some e) w1) as (err' & w' & E & Hsome & S2 & M2 & T2).
      { right. eauto. }
      exists err', w'. split; [exact E|]. split.
      - destruct n; [|by apply Hsome].
        rewrite retry_loop_O in E. unfold ret in E. simplify_eq. eauto.
      - split; [by eapply same_storage_trans|]. split; [congruence|].
        rewrite T2, T1, <- app_assoc. done. }
    destruct Herr as [->|(e & -> & Hr)].
    + rewrite bool_decide_eq_false_2.
      2:{ simpl. unfold retriableErrors. rewrite !elem_of_cons, elem_of_nil.
          intros [?|[?|[]]]; done. }
      rewrite bool_decide_eq_false_2 by (simpl; congruence).
      destruct (Hround w (if decide (S n = MAX_ATTEMPTS) then USE_EXISTING else RECREATE))
        as (err' & w' & E & Hs & S1 & M1 & T1).
      exists err', w'. split; [exact E|]. split; [done|]. done.
    + rewrite bool_decide_eq_true_2 by exact Hr.
      unfold bind at 1. unfold modify at 1.
      destruct (Hround (emit (ev_sleep WAIT_MS) w)
                  (if decide (S n = MAX_ATTEMPTS) then USE_EXISTING else RECREATE))
        as (err' & w' & E & Hs & S1 & M1 & T1).
      exists err', w'. split; [exact E|]. split; [done|].
      split; [exact S1|]. split; [exact M1|].
      rewrite T1. simpl. rewrite steps_app. simpl. by rewrite <- app_assoc.
Qed.

(** C1, amended: on a bus that gives a proxy whenever it is asked for
    one, a [callSync] that has acquired its call and marshalled its
    inputs, and whose every call to the bus fails with a retriable error
    (service unknown, disconnected), makes exactly three attempts, sleeps
    250 ms before the second and before the third, and returns false.
    When the first call fails with any other error (access denied, say),
    that attempt is the only one, there is no sleep, and [callSync]
    returns false. The condition on proxies is needed: a retry recreates
    the proxy and returns false at once when the bus refuses it. So when
    the cache holds no proxy for the call, the bus gives the first one and
    refuses the second, and the call fails with a retriable error, there
    is one attempt and one sleep, and [callSync] returns false. In all
    three cases the cleanup closures run afterwards. *)
Theorem callSync_retry_budget (this : N) (q : positive) (c : call_t) (w : world) :
  storage_destroyed w = false →
  calls w !! this = Some (Some q) →
  call_heap w !! q = Some (c, 1%positive) →
  inputs_marshal c (memory w) →
  ((∀ k, proxy_new bus k (object c) = None) →
   (∀ k p m t, ∃ e, call_sync bus k p m t = inl e ∧ retriable e) →
   (callSync bus this w).1 = false
   ∧ steps (trace (callSync bus this w).2) =
       steps (trace w)
       ++ [attempt; sleep 250; attempt; sleep 250; attempt]
       ++ (reset_of ∘ p_name <$> params c))
  ∧ (proxy_new bus (n_new w) (object c) = None →
     (∀ p m t, ∃ e, call_sync bus (n_call w) p m t = inl e ∧ ¬ retriable e) →
     (callSync bus this w).1 = false
     ∧ steps (trace (callSync bus this w).2) =
         steps (trace w) ++ [attempt] ++ (reset_of ∘ p_name <$> params c))
  ∧ (default None (proxy <$> proxies w !! target_of (object c)) = None →
     proxy_new bus (n_new w) (object c) = None →
     is_Some (proxy_new bus (S (n_new w)) (object c)) →
     (∀ p m t, ∃ e, call_sync bus (n_call w) p m t = inl e ∧ retriable e) →
     (callSync bus this w).1 = false
     ∧ steps (trace (callSync bus this w).2) =
         steps (trace w) ++ [attempt; sleep 250]
         ++ (reset_of ∘ p_name <$> params c)).
Proof.
  intros Hd Hc Hq Hin.
  pose proof (callSync_acquired this q c w Hd Hc Hq) as Hcs. cbv zeta in Hcs.
  destruct (marshal_inputs_ok (params c) [] (held q w) Hin) as [ins Hins].
  split; [|split].
  - intros Hnew Hfail.
    destruct (retry_loop_retriable c (GTuple ins) Hnew Hfail MAX_ATTEMPTS None (held q w))
      as (err' & w' & E & Hs & S1 & M1 & T1); [by left|].
    destruct Hs as [e ->]; [done|].
    assert (Hbody : callSync_body bus c (held q w)
                    = (false, emit (ev_log "callSync" (d_gerror (errType (Some e)) e)) w')).
    { unfold callSync_body. unfold bind at 1. rewrite Hins.
      unfold bind at 1. rewrite E. reflexivity. }
    rewrite Hbody in Hcs. simpl in Hcs. rewrite Hcs. simpl. split; [done|].
    match goal with |- context [run_cleanup (params c) ?w0] =>
      destruct (run_cleanup_spec (params c) w0) as (_ & _ & C3) end.
    rewrite C3. simpl. rewrite steps_app, T1. simpl.
    rewrite app_nil_r, <- app_assoc. done.
  - intros Hnew Hfail.
    destruct (attempt_call_fails c (GTuple ins) USE_EXISTING
                (λ e, retry_loop bus c (GTuple ins) 2 (Some e)) (held q w))
      as (p & e & w1 & He & Ha & S1 & M1 & _ & _ & T1).
    { exact Hnew. }
    { intros p. destruct (Hfail p (c_str (method c)) (GTuple ins)) as (e & He & _).
      eauto. }
    destruct (Hfail p (c_str (method c)) (GTuple ins)) as (e' & He' & Hr).
    assert (e' = e) by (simpl in He; congruence). subst e'.
    assert (Hloop : retry_loop bus c (GTuple ins) MAX_ATTEMPTS None (held q w)
                    = (left_loop None (Some e), w1)).
    { unfold MAX_ATTEMPTS. rewrite retry_loop_S. cbv zeta.
      rewrite bool_decide_eq_false_2.
      2:{ simpl. unfold retriableErrors. rewrite !elem_of_cons, elem_of_nil.
          intros [?|[?|[]]]; done. }
      rewrite bool_decide_eq_false_2 by (simpl; congruence).
      rewrite decide_True by done. rewrite Ha.
      rewrite retry_loop_S. cbv zeta.
      rewrite bool_decide_eq_false_2 by exact Hr.
      rewrite bool_decide_eq_true_2 by apply errType_set. reflexivity. }
    assert (Hbody : callSync_body bus c (held q w)
                    = (false, emit (ev_log "callSync" (d_gerror (errType (Some e)) e)) w1)).
    { unfold callSync_body. unfold bind at 1. rewrite Hins.
      unfold bind at 1. rewrite Hloop. reflexivity. }
    rewrite Hbody in Hcs. simpl in Hcs. rewrite Hcs. simpl. split; [done|].
    match goal with |- context [run_cleanup (params c) ?w0] =>
      destruct (run_cleanup_spec (params c) w0) as (_ & _ & C3) end.
    rewrite C3. simpl. rewrite steps_app, T1. simpl.
    rewrite app_nil_r, <- app_assoc. done.
  - intros Hcache Hnew [e' Hnext] Hfail.
    pose proof (instanceFor_creates bus (object c) USE_EXISTING (held q w)
                  (or_intror Hcache)) as (I1 & _).
    destruct (attempt_call_fails c (GTuple ins) USE_EXISTING
                (λ e, retry_loop bus c (GTuple ins) 2 (Some e)) (held q w))
      as (p & e & w1 & He & Ha & S1 & M1 & _ & N1 & T1).
    { exact Hnew. }
    { intros p. destruct (Hfail p (c_str (method c)) (GTuple ins)) as (e & He & _).
      eauto. }
    destruct (Hfail p (c_str (method c)) (GTuple ins)) as (e0 & He0 & Hr).
    assert (e0 = e) by (simpl in He; congruence). subst e0.
    rewrite I1 in N1. simpl in N1.
    set (ws := emit (ev_sleep WAIT_MS) w1).
    pose proof (instanceFor_creates bus (object c) RECREATE ws (or_introl eq_refl))
      as (_ & _ & I3 & _).
    pose proof (instanceFor_frame (object c) RECREATE ws) as (_ & _ & _ & F4 & _).
    simpl in I3. rewrite N1, Hnext in I3.
    assert (Hloop : ∃ w2, retry_loop bus c (GTuple ins) MAX_ATTEMPTS None (held q w)
                          = (returned_false, w2)
                          ∧ steps (trace w2) = steps (trace w) ++ [attempt; sleep 250]).
    { unfold MAX_ATTEMPTS. rewrite retry_loop_S. cbv zeta.
      rewrite bool_decide_eq_false_2.
      2:{ simpl. unfold retriableErrors. rewrite !elem_of_cons, elem_of_nil.
          intros [?|[?|[]]]; done. }
      rewrite bool_decide_eq_false_2 by (simpl; congruence).
      rewrite decide_True by done. rewrite Ha.
      rewrite retry_loop_S. cbv zeta.
      rewrite bool_decide_eq_true_2 by exact Hr.
      rewrite decide_False by done.
      unfold bind at 1. unfold modify at 1. fold ws.
      unfold attempt_call. unfold bind at 1.
      destruct (instanceFor bus (object c) RECREATE ws) as [px w2].
      simpl in I3, F4. unfold proxy_verboseCheckNoErr. rewrite I3. mstep.
      eexists. split; [reflexivity|]. simpl.
      rewrite steps_app. simpl. rewrite app_nil_r, F4. unfold ws. simpl.
      rewrite steps_app, T1. simpl. by rewrite <- app_assoc. }
    destruct Hloop as (w2 & Hloop & T2).
    assert (Hbody : callSync_body bus c (held q w) = (false, w2)).
    { unfold callSync_body. unfold bind at 1. rewrite Hins.
      unfold bind at 1. rewrite Hloop. reflexivity. }
    rewrite Hbody in Hcs. simpl in Hcs. rewrite Hcs. simpl. split; [done|].
    destruct (run_cleanup_spec (params c) w2) as (_ & _ & C3).
    rewrite C3, T2. by rewrite <- app_assoc.
Qed.




(** The constructors of [param_t] give closures of the two kinds. *)
Lemma param_in_binding `{GLibExt} T V `{!converters.Marshaller T V} `{!Cell V}
    par name (v : V) w :
  binding (param_in T par name v w).1 None.
Proof.
  unfold param_in, param_verboseCheckNoErr. mstep.
  repeat (match goal with |- context [if ?b then _ else _] => destruct b end;
          simpl);
    by constructor.
Qed.

Lemma param_out_binding `{GLibExt} T V `{!converters.Unmarshaller T V} `{!Cell V}
    par name (v : V) w :
  binding (param_out T par name v w).1 (Some (par, to_native (value_init (V:=V)))).
Proof.
  unfold param_out, param_verboseCheckNoErr. mstep.
  repeat (match goal with |- context [if ?b then _ else _] => destruct b end;
          simpl);
    by constructor.
Qed.

End callsync_facts.

Section callsync_examples.
Import Client.
#[local] Existing Instance Sample.dbus.

Lemma service_unknown_retriable : retriable Sample.service_unknown.
Proof. unfold retriable. vm_compute. apply list_elem_of_here. Qed.

Lemma access_denied_fatal : ¬ retriable Sample.access_denied.
Proof.
  unfold retriable.
  replace (errType (Some Sample.access_denied)) with ACCESS_DENIED by (by vm_compute).
  unfold retriableErrors. rewrite !elem_of_cons, elem_of_nil.
  intros [?|[?|[]]]; done.
Qed.

Lemma the_call_inputs_marshal :
  inputs_marshal Sample.the_call (memory Sample.declared).
Proof.
  unfold inputs_marshal.
  let ps := eval vm_compute in (params Sample.the_call) in
  replace (params Sample.the_call) with ps by (by vm_compute).
  repeat constructor.
  - intros f [= <-]. vm_compute. eauto.
  - intros f [=].
  - intros f [=].
Qed.

(** C1 on the sample call: a bus without the service, a bus whose
    policy rejects the call, and a bus that gives one proxy only. *)
Lemma callSync_retry_budget_witness :
  ((callSync Sample.bus_down 900 Sample.declared).1 = false
   ∧ steps (trace (callSync Sample.bus_down 900 Sample.declared).2) =
       steps (trace Sample.declared)
       ++ [attempt; sleep 250; attempt; sleep 250; attempt]
       ++ (reset_of ∘ p_name <$> params Sample.the_call))
  ∧ ((callSync Sample.bus_denied 900 Sample.declared).1 = false
     ∧ steps (trace (callSync Sample.bus_denied 900 Sample.declared).2) =
         steps (trace Sample.declared) ++ [attempt]
         ++ (reset_of ∘ p_name <$> params Sample.the_call))
  ∧ ((callSync Sample.bus_gone 900 Sample.declared).1 = false
     ∧ steps (trace (callSync Sample.bus_gone 900 Sample.declared).2) =
         steps (trace Sample.declared) ++ [attempt; sleep 250]
         ++ (reset_of ∘ p_name <$> params Sample.the_call)).
Proof.
  split; [|split].
  - apply (proj1 (callSync_retry_budget Sample.bus_down 900 1%positive
                    Sample.the_call Sample.declared eq_refl eq_refl eq_refl
                    the_call_inputs_marshal)).
    + intros k. reflexivity.
    + intros k p m t. exists Sample.service_unknown.
      split; [reflexivity|exact service_unknown_retriable].
  - apply (proj1 (proj2 (callSync_retry_budget Sample.bus_denied 900 1%positive
                           Sample.the_call Sample.declared eq_refl eq_refl eq_refl
                           the_call_inputs_marshal))).
    + reflexivity.
    + intros p m t. exists Sample.access_denied.
      split; [reflexivity|exact access_denied_fatal].
  - apply (proj2 (proj2 (callSync_retry_budget Sample.bus_gone 900 1%positive
                           Sample.the_call Sample.declared eq_refl eq_refl eq_refl
                           the_call_inputs_marshal))).
    + reflexivity.
    + reflexivity.
    + by eexists.
    + intros p m t. exists Sample.service_unknown.
      split; [reflexivity|exact service_unknown_retriable].
Defined.

(** C1, as stated, fails: every call to the bus [bus_gone] fails with
    "service unknown", a retriable error, and yet [callSync] makes one
    attempt only. After the sleep the retry asks for a new proxy, the bus
    refuses it, and [callSync] returns false there: one attempt, one
    sleep, two requests for a proxy, and the cleanup closures. *)
Lemma retry_ends_when_proxy_is_refused :
  (∀ k p m t, ∃ e, call_sync Sample.bus_gone k p m t = inl e ∧ retriable e)
  ∧ (callSync Sample.bus_gone 900 Sample.declared).1 = false
  ∧ steps (trace (callSync Sample.bus_gone 900 Sample.declared).2) =
      [attempt; sleep 250;
       reset_of "resourceType"; reset_of "status"; reset_of "count"]
  ∧ n_call (callSync Sample.bus_gone 900 Sample.declared).2 = 1%nat
  ∧ n_new (callSync Sample.bus_gone 900 Sample.declared).2 = 2%nat.
Proof.
  split.
  - intros k p m t. exists Sample.service_unknown.
    split; [reflexivity|exact service_unknown_retriable].
  - vm_compute. repeat split.
Qed.

Example service_unknown_trace :
  steps (trace (callSync Sample.bus_down 900 Sample.declared).2) =
    [attempt; sleep 250; attempt; sleep 250; attempt;
     reset_of "resourceType"; reset_of "status"; reset_of "count"].
Proof. vm_compute. reflexivity. Qed.

Example access_denied_trace :
  steps (trace (callSync Sample.bus_denied 900 Sample.declared).2) =
    [attempt; reset_of "resourceType"; reset_of "status"; reset_of "count"].
Proof. vm_compute. reflexivity. Qed.




Example short_reply_resets_both_outputs :
  let r := callSync Sample.bus_short 900 Sample.declared in
  r.1 = false
  ∧ cells (memory r.2) !! 916%N = Some (n_int 0)
  ∧ cells (memory r.2) !! 920%N = Some (n_int 0)
  ∧ cells (memory (callSync_body Sample.bus_short Sample.the_call
                     (held 1%positive Sample.declared)).2) !! 916%N
      = Some (n_int 5).
Proof. vm_compute. repeat split. Qed.

Example good_reply_decodes_outputs :
  let r := callSync Sample.bus_up 900 Sample.declared in
  r.1 = true
  ∧ cells (memory r.2) !! 916%N = Some (n_int 0)
  ∧ cells (memory r.2) !! 920%N = Some (n_int 2)
  ∧ steps (trace r.2) = [attempt].
Proof. vm_compute. repeat split. Qed.

End callsync_examples.
(* ================================================================= *)
(** * Further properties *)

(** ** Handles: reading, copying, assigning *)

Section variant_more.
Import Shadow Inv.
Context `{GLibExt}.

Lemma getInt_value this σ :
  (GDBusVariant.getInt this σ).1 =
    match resolve σ this with Some (GInt32 i) => (i, true) | _ => (0, false) end.
Proof.
  pose proof (payload_at this σ) as Hp. unfold GDBusVariant.getInt.
  destruct (at_ this σ) as [[[p|]] σ1]; simpl in *.
  - rewrite ?variant_bool_some, Hp. by destruct (resolve σ this) as [[]|].
  - rewrite ?variant_bool_none, <- ?Hp. done.
Qed.

Lemma getBool_value this σ :
  (GDBusVariant.getBool this σ).1 =
    match resolve σ this with Some (GBoolean b) => (b, true) | _ => (false, false) end.
Proof.
  pose proof (payload_at this σ) as Hp. unfold GDBusVariant.getBool.
  destruct (at_ this σ) as [[[p|]] σ1]; simpl in *.
  - rewrite ?variant_bool_some, Hp. by destruct (resolve σ this) as [[]|].
  - rewrite ?variant_bool_none, <- ?Hp. done.
Qed.

Lemma getDouble_value this σ :
  (GDBusVariant.getDouble this σ).1 =
    match resolve σ this with
    | Some (GDouble x) => (x, true)
    | _ => (double_zero, false)
    end.
Proof.
  pose proof (payload_at this σ) as Hp. unfold GDBusVariant.getDouble.
  destruct (at_ this σ) as [[[p|]] σ1]; simpl in *.
  - rewrite ?variant_bool_some, Hp. by destruct (resolve σ this) as [[]|].
  - rewrite ?variant_bool_none, <- ?Hp. done.
Qed.

Lemma getString_value this σ :
  (GDBusVariant.getString this σ).1 =
    match resolve σ this with Some (GString s) => (s, true) | _ => ("", false) end.
Proof.
  pose proof (payload_at this σ) as Hp. unfold GDBusVariant.getString.
  destruct (at_ this σ) as [[[p|]] σ1]; simpl in *.
  - rewrite ?variant_bool_some, Hp. by destruct (resolve σ this) as [[]|].
  - rewrite ?variant_bool_none, <- ?Hp. done.
Qed.

Lemma getInt_state this σ : (GDBusVariant.getInt this σ).2 = σ.
Proof.
  pose proof (at_then_destroy this σ) as Hs. unfold GDBusVariant.getInt.
  by destruct (at_ this σ).
Qed.

Lemma getBool_state this σ : (GDBusVariant.getBool this σ).2 = σ.
Proof.
  pose proof (at_then_destroy this σ) as Hs. unfold GDBusVariant.getBool.
  by destruct (at_ this σ).
Qed.

Lemma getDouble_state this σ : (GDBusVariant.getDouble this σ).2 = σ.
Proof.
  pose proof (at_then_destroy this σ) as Hs. unfold GDBusVariant.getDouble.
  by destruct (at_ this σ).
Qed.

Lemma getString_state this σ : (GDBusVariant.getString this σ).2 = σ.
Proof.
  pose proof (at_then_destroy this σ) as Hs. unfold GDBusVariant.getString.
  by destruct (at_ this σ).
Qed.

(** X1: the four getters and [print] work on a copy of the entry, which
    takes a reference and gives it back: the side table and the counts of
    the GLib objects are afterwards exactly what they were. *)
Theorem getters_leave_store (this : N) (σ : state) :
  (GDBusVariant.getInt this σ).2 = σ
  ∧ (GDBusVariant.getBool this σ).2 = σ
  ∧ (GDBusVariant.getDouble this σ).2 = σ
  ∧ (GDBusVariant.getString this σ).2 = σ
  ∧ (GDBusVariant.print this σ).2 = σ.
Proof.
  split; [apply getInt_state|]. split; [apply getBool_state|].
  split; [apply getDouble_state|]. split; [apply getString_state|].
  pose proof (at_then_destroy this σ) as Hs. unfold GDBusVariant.print.
  by destruct (at_ this σ).
Qed.

(** X2: what the getters return is decided by the variant the handle
    resolves to: a getter succeeds, with the stored value, exactly on a
    variant of its own type, and gives the default of its type with
    [result] false otherwise (no entry, an empty entry, another type); so
    at most one of the four succeeds for a handle. [print] gives the text
    of the variant, or the empty string. *)
Theorem getters_read_resolved (this : N) (σ : state) :
  (GDBusVariant.getInt this σ).1 =
    match resolve σ this with Some (GInt32 i) => (i, true) | _ => (0, false) end
  ∧ (GDBusVariant.getBool this σ).1 =
    match resolve σ this with Some (GBoolean b) => (b, true) | _ => (false, false) end
  ∧ (GDBusVariant.getDouble this σ).1 =
    match resolve σ this with
    | Some (GDouble x) => (x, true)
    | _ => (double_zero, false)
    end
  ∧ (GDBusVariant.getString this σ).1 =
    match resolve σ this with Some (GString s) => (s, true) | _ => ("", false) end
  ∧ (GDBusVariant.print this σ).1 =
    match resolve σ this with Some g => g_variant_print g | None => "" end.
Proof.
  split; [apply getInt_value|]. split; [apply getBool_value|].
  split; [apply getDouble_value|]. split; [apply getString_value|].
  pose proof (payload_at this σ) as Hp. unfold GDBusVariant.print.
  destruct (at_ this σ) as [[[p|]] σ1]; simpl in *.
  - rewrite ?variant_bool_some, Hp. done.
  - rewrite ?variant_bool_none, <- ?Hp. done.
Qed.

Lemma ctor_copy_then_dtor this v σ :
  variants σ !! this = None →
  GDBusVariant.dtor this (GDBusVariant.ctor_copy this v σ) = σ.
Proof.
  intros Hthis. destruct σ as [os vs]. simpl in Hthis.
  unfold GDBusVariant.dtor, GDBusVariant.ctor_copy, at_, variant_copy, insert,
    erase, variant_destroy, with_objects, with_variants.
  simpl.
  destruct (vs !! v) as [[[p|]]|]; simpl; rewrite Hthis; simpl;
    rewrite lookup_insert_eq; simpl; rewrite delete_insert_id by done;
    by rewrite ?ref_unref.
Qed.

(** X3: a handle copy-constructed at an address that has no entry and
    then destroyed leaves no trace: the side table and the reference counts
    are back to what they were, whatever the source handle held (a value,
    an empty entry, or nothing). *)
Theorem copy_then_destroy_restores (this v : N) (σ : state) :
  variants σ !! this = None →
  GDBusVariant.dtor this (GDBusVariant.ctor_copy this v σ) = σ.
Proof. apply ctor_copy_then_dtor. Qed.

Lemma assign_is_dtor_then_copy this v σ :
  GDBusVariant.assign this v σ =
    GDBusVariant.ctor_copy this v (GDBusVariant.dtor this σ).
Proof. reflexivity. Qed.

(** X4: the assignment of a handle to another one, on a store whose
    counts cover the references of its entries: the left-hand side
    afterwards resolves to what the right-hand side resolves to, every
    other handle resolves to what it did, and the counts still cover the
    references. (The old value of the left-hand side lost a reference and
    is freed if that was the last.) *)
Theorem assign_between_handles (this v : N) (σ : state) :
  this ≠ v →
  consistent σ →
  consistent (GDBusVariant.assign this v σ)
  ∧ resolve (GDBusVariant.assign this v σ) this = resolve σ v
  ∧ (∀ a, a ≠ this → resolve (GDBusVariant.assign this v σ) a = resolve σ a).
Proof.
  intros Hne Hc. rewrite assign_is_dtor_then_copy.
  destruct (dtor_step σ this Hc) as (Hc1 & Hv1 & Hr1).
  destruct (ctor_copy_step (GDBusVariant.dtor this σ) this v) as (Hc2 & _ & Hr2).
  { by rewrite Hv1, lookup_delete_eq. }
  { done. }
  split; [done|]. split.
  - rewrite Hr2, decide_True by done. apply Hr1. congruence.
  - intros a Ha. rewrite Hr2, decide_False by done. by apply Hr1.
Qed.

End variant_more.

Section variant_more_examples.
Import Shadow Inv.

Lemma store_consistent : consistent Sample.store.
Proof.
  intros p. unfold Sample.store. simpl.
  rewrite <- insert_empty, refs_insert_fresh by done.
  rewrite refs_empty. simpl.
  destruct (decide (p = 1%positive)) as [->|H1]; [vm_compute; lia|].
  rewrite !decide_False by congruence. lia.
Qed.

(** X3 on the sample store: a copy of the handle 5 made at 6. *)
Lemma copy_then_destroy_restores_witness :
  GDBusVariant.dtor 6 (GDBusVariant.ctor_copy 6 5 Sample.store) = Sample.store.
Proof. apply (copy_then_destroy_restores 6 5 Sample.store). reflexivity. Defined.

(** X4 on the sample store: the handle 6, which holds nothing, is
    assigned the handle 5. *)
Lemma assign_between_handles_witness :
  consistent (GDBusVariant.assign 6 5 Sample.store)
  ∧ resolve (GDBusVariant.assign 6 5 Sample.store) 6 = resolve Sample.store 5
  ∧ (∀ a, a ≠ 6%N →
       resolve (GDBusVariant.assign 6 5 Sample.store) a = resolve Sample.store a).
Proof.
  apply (assign_between_handles 6 5 Sample.store); [lia|exact store_consistent].
Defined.

End variant_more_examples.
(** ** The fields of a tuple *)

Section field_facts.
Import Shadow Inv Tuple Fields.

Lemma with_shadow_same (τ : Tuple.state) : with_shadow (λ _, shadow τ) τ = τ.
Proof. by destruct τ. Qed.

Lemma find_pos_lookup (hs : list N) : ∀ i fh,
  NoDup hs → hs !! i = Some fh → find_pos fh hs = i.
Proof.
  induction hs as [|h hs IH]; intros [|i] fh Hnd Hi; simplify_eq/=.
  - by rewrite decide_True.
  - inversion Hnd as [|?? Hh Hnd']; subst.
    rewrite decide_False.
    + f_equal. by apply IH.
    + intros ->. apply Hh. by eapply list_elem_of_lookup_2.
Qed.

(** What a copy made at an address without an entry resolves to. *)
Lemma ctor_copy_resolve d s σ :
  variants σ !! d = None →
  resolve (GDBusVariant.ctor_copy d s σ) d = resolve σ s.
Proof.
  intros Hd. rewrite !resolve_unfold.
  unfold GDBusVariant.ctor_copy, at_, variant_copy, insert.
  destruct (variants σ !! s) as [[[p|]]|] eqn:Hs; simpl; rewrite Hd; simpl;
    rewrite lookup_insert_eq; try done.
  apply deref_ref.
Qed.

Lemma dtor_absent a σ : variants σ !! a = None → GDBusVariant.dtor a σ = σ.
Proof. intros Ha. unfold GDBusVariant.dtor, erase. by rewrite Ha. Qed.

Lemma getField_spec fh ret τ :
  variants (shadow τ) !! ret = None →
  resolve (shadow (getField fh ret τ)) ret
    = field_source fh τ ≫= resolve (shadow τ)
  ∧ GDBusVariant.dtor ret (shadow (getField fh ret τ)) = shadow τ
  ∧ with_shadow (λ _, shadow τ) (getField fh ret τ) = τ.
Proof.
  intros Hret. unfold getField, field_source.
  assert (Hnone : resolve (shadow τ) ret = None).
  { by rewrite resolve_unfold, Hret. }
  destruct (fields τ !! fh) as [fp|]; simpl.
  - destruct (tuples τ !! pt fp) as [t|]; simpl.
    + unfold getVarByHandle.
      destruct (vars t !! find_pos fh (handles t)) as [a|]; simpl.
      * split; [by apply ctor_copy_resolve|].
        split; [by apply ctor_copy_then_dtor|by destruct τ].
      * split; [done|]. split; [by apply dtor_absent|by destruct τ].
    + split; [done|]. split; [by apply dtor_absent|by destruct τ].
  - split; [done|]. split; [by apply dtor_absent|by destruct τ].
Qed.

Lemma conversions_spec (fh ret : N) (τ : Tuple.state) :
  variants (shadow τ) !! ret = None →
  let src := field_source fh τ ≫= resolve (shadow τ) in
  pint_to_int fh ret τ = (int_of src, τ)
  ∧ pdouble_to_double fh ret τ = (double_of src, τ)
  ∧ pbool_to_bool fh ret τ = (bool_of src, τ)
  ∧ pstring_to_string fh ret τ = (string_of src, τ).
Proof.
  intros Hret src.
  destruct (getField_spec fh ret τ Hret) as (Hr & Hd & Hτ).
  fold src in Hr.
  unfold pint_to_int, pdouble_to_double, pbool_to_bool, pstring_to_string.
  set (τ1 := getField fh ret τ) in *.
  split; [|split; [|split]].
  - pose proof (getInt_value ret (shadow τ1)) as Hv.
    pose proof (getInt_state ret (shadow τ1)) as Hs.
    destruct (GDBusVariant.getInt ret (shadow τ1)) as [[i r] σ2].
    simpl in *. subst σ2. rewrite Hr in Hv.
    f_equal.
    + unfold int_of, double_of, bool_of, string_of.
      by destruct src as [[]|]; simplify_eq.
    + rewrite Hd. exact Hτ.
  - pose proof (getDouble_value ret (shadow τ1)) as Hv.
    pose proof (getDouble_state ret (shadow τ1)) as Hs.
    destruct (GDBusVariant.getDouble ret (shadow τ1)) as [[i r] σ2].
    simpl in *. subst σ2. rewrite Hr in Hv.
    f_equal.
    + unfold int_of, double_of, bool_of, string_of.
      by destruct src as [[]|]; simplify_eq.
    + rewrite Hd. exact Hτ.
  - pose proof (getBool_value ret (shadow τ1)) as Hv.
    pose proof (getBool_state ret (shadow τ1)) as Hs.
    destruct (GDBusVariant.getBool ret (shadow τ1)) as [[i r] σ2].
    simpl in *. subst σ2. rewrite Hr in Hv.
    f_equal.
    + unfold int_of, double_of, bool_of, string_of.
      by destruct src as [[]|]; simplify_eq.
    + rewrite Hd. exact Hτ.
  - pose proof (getString_value ret (shadow τ1)) as Hv.
    pose proof (getString_state ret (shadow τ1)) as Hs.
    destruct (GDBusVariant.getString ret (shadow τ1)) as [[i r] σ2].
    simpl in *. subst σ2. rewrite Hr in Hv.
    f_equal.
    + unfold int_of, double_of, bool_of, string_of.
      by destruct src as [[]|]; simplify_eq.
    + rewrite Hd. exact Hτ.
Qed.

(** X5: a conversion operator of a field class reads the element of
    [vars] at the position of the field among the handles of its tuple,
    through a temporary copy that is destroyed again: it returns the scalar
    of that element when the element has the type of the field, the
    default of the type otherwise (also for a field that no tuple knows),
    and leaves the whole state as it was. [ret] is the address of the
    temporary, which holds no entry. *)
Theorem field_conversions (fh ret : N) (τ : Tuple.state) :
  variants (shadow τ) !! ret = None →
  let src := field_source fh τ ≫= resolve (shadow τ) in
  pint_to_int fh ret τ = (int_of src, τ)
  ∧ pdouble_to_double fh ret τ = (double_of src, τ)
  ∧ pbool_to_bool fh ret τ = (bool_of src, τ)
  ∧ pstring_to_string fh ret τ = (string_of src, τ).
Proof. apply conversions_spec. Qed.

Lemma copy_elements_dom dst : ∀ src σ,
  length dst = length src →
  NoDup dst →
  (∀ d, d ∈ dst → variants σ !! d = None) →
  consistent σ →
  ∀ a, is_Some (variants (copy_elements dst src σ) !! a)
       ↔ a ∈ dst ∨ is_Some (variants σ !! a).
Proof.
  induction dst as [|d dst IH]; intros [|s src] σ Hlen Hnd Hfresh Hc a;
    simplify_eq/=.
  - rewrite elem_of_nil. split; [by right|by intros [[]|?]].
  - inversion Hnd as [|?? Hd Hnd']; subst.
    destruct (ctor_copy_step σ d s) as (Hc1 & Hv1 & _);
      [apply Hfresh; left|done|].
    unfold copy_elements in *. simpl. rewrite (IH src); try done.
    + rewrite Hv1, elem_of_cons.
      destruct (decide (a = d)) as [->|Hne].
      * rewrite lookup_insert_eq. split; [intros _; by left; left|eauto].
      * rewrite lookup_insert_ne by done.
        split; [intros [?|?]; [left; by right|by right]|].
        intros [[?|?]|?]; [done|by left|by right].
    + intros d' Hd'. rewrite Hv1, lookup_insert_ne by (intros ->; done).
      apply Hfresh. by right.
Qed.

Lemma destroy_elements_dom old : ∀ σ a,
  consistent σ →
  variants (destroy_elements old σ) !! a
    = if decide (a ∈ old) then None else variants σ !! a.
Proof.
  induction old as [|o old IH]; intros σ a Hc.
  - rewrite decide_False; [done|]. apply not_elem_of_nil.
  - destruct (dtor_step σ o Hc) as (Hc1 & Hv1 & _).
    unfold destroy_elements in *. simpl. rewrite (IH _ a Hc1), Hv1.
    destruct (decide (a = o)) as [->|Hne].
    + rewrite lookup_delete_eq, (decide_True (P := o ∈ o :: old)) by left.
      by destruct (decide _).
    + rewrite lookup_delete_ne by done.
      destruct (decide (a ∈ old)) as [Hin|Hin].
      * rewrite decide_True; [done|by right].
      * rewrite decide_False; [done|].
        intros [?|?]%elem_of_cons; done.
Qed.

(** The copy assignment of the vector of a tuple, on a state whose side
    table is consistent and within the allocated addresses. *)
Lemma vector_assign_spec old src τ :
  consistent (shadow τ) →
  allocated τ →
  Forall (λ a, (a < brk τ)%N) src →
  Forall (λ a, (a < brk τ)%N) old →
  let r := vector_assign old src τ in
  r.1 = new_buffer (brk τ) (length src)
  ∧ consistent (shadow r.2)
  ∧ allocated r.2
  ∧ brk r.2 = (brk τ + N.of_nat (length src))%N
  ∧ (∀ i d a, r.1 !! i = Some d → src !! i = Some a →
       resolve (shadow r.2) d = resolve (shadow τ) a)
  ∧ (∀ a, (a < brk τ)%N → a ∉ old →
       resolve (shadow r.2) a = resolve (shadow τ) a)
  ∧ (∀ a, a ∈ old → variants (shadow r.2) !! a = None).
Proof.
  intros Hc Hdom Hsrc Hold r. subst r. unfold vector_assign. simpl.
  set (new := new_buffer (brk τ) (length src)).
  set (σ1 := copy_elements new src (shadow τ)).
  assert (Hfresh : ∀ d, d ∈ new → variants (shadow τ) !! d = None).
  { intros d Hd%new_buffer_ge.
    destruct (variants (shadow τ) !! d) eqn:E; [|done].
    assert (d < brk τ)%N by (apply Hdom; eauto). lia. }
  destruct (copy_elements_spec new src (shadow τ)) as (Hc1 & Hr1 & Hi1).
  { apply new_buffer_length. }
  { apply new_buffer_NoDup. }
  { done. }
  { intros d Hd%new_buffer_ge Hin.
    rewrite Forall_forall in Hsrc. specialize (Hsrc d Hin). lia. }
  { done. }
  pose proof (copy_elements_dom new src (shadow τ)
                (new_buffer_length _ _) (new_buffer_NoDup _ _) Hfresh Hc) as Hd1.
  destruct (destroy_elements_spec old σ1 Hc1) as (Hc2 & Hr2).
  assert (Hsep : ∀ d, d ∈ new → d ∉ old).
  { intros d Hd%new_buffer_ge Hin.
    rewrite Forall_forall in Hold. specialize (Hold d Hin). lia. }
  split; [done|]. split; [done|]. split; [|split; [done|split; [|split]]].
  - intros a. simpl. rewrite (destroy_elements_dom old σ1 a Hc1).
    case_decide as Ho; [by intros [? ?]|].
    intros [Hin|Hin]%Hd1.
    + apply list_elem_of_lookup_1 in Hin as [i Hi].
      apply new_buffer_lookup in Hi as [-> Hi]. lia.
    + specialize (Hdom a Hin). lia.
  - intros i d a Hd Ha. rewrite Hr2.
    + by apply (Hi1 i).
    + apply Hsep. by eapply list_elem_of_lookup_2.
  - intros a Ha Hno. rewrite Hr2 by done. apply Hr1.
    intros Hin%new_buffer_ge. lia.
  - intros a Ha. rewrite (destroy_elements_dom old σ1 a Hc1).
    by rewrite decide_True.
Qed.

Context `{GLibExt}.

Lemma assign_state this variants τ :
  let t := default tuple_default (tuples τ !! this) in
  (GDBusTuple.assign this variants τ).2 =
    with_tuples
      (<[this := {| vars := (vector_assign (vars t) variants τ).1;
                    getters := getters t; handles := handles t |}]>)
      (vector_assign (vars t) variants τ).2.
Proof.
  intros t. unfold GDBusTuple.assign, Tuple.assign. fold t.
  destruct (vector_assign (vars t) variants τ) as [new τ1]. simpl.
  pose proof (toString_spec {| vars := new; getters := getters t;
                               handles := handles t |} (shadow τ1)) as [Hs _].
  destruct (toString _ (shadow τ1)) as [s σ2]. simpl in *. subst σ2.
  by rewrite with_shadow_same.
Qed.

Lemma assign_read_spec (this : N) (variants : list N) (t : tuple_t) (i : nat)
    (fh : N) (fp : field_ptr) (a ret : N) (τ : Tuple.state) :
  tuples τ !! this = Some t →
  NoDup (handles t) →
  handles t !! i = Some fh →
  fields τ !! fh = Some fp →
  pt fp = this →
  variants !! i = Some a →
  consistent (shadow τ) →
  allocated τ →
  Forall (λ a, (a < brk τ)%N) variants →
  Forall (λ a, (a < brk τ)%N) (vars t) →
  (brk τ + N.of_nat (length variants) ≤ ret)%N →
  let τ' := (GDBusTuple.assign this variants τ).2 in
  Shadow.variants (shadow τ') !! ret = None
  ∧ field_source fh τ' ≫= resolve (shadow τ') = resolve (shadow τ) a.
Proof.
  intros Ht Hnd Hh Hf Hpt Ha Hc Hdom Hsrc Hold Hret τ'. subst τ'.
  rewrite assign_state. cbv zeta. rewrite Ht.
  change (default tuple_default (Some t)) with t.
  destruct (vector_assign_spec (vars t) variants τ Hc Hdom Hsrc Hold)
    as (Hnew & Hc' & Hdom' & Hbrk & Hres & _ & _).
  assert (Hfields : fields (vector_assign (vars t) variants τ).2 = fields τ) by done.
  destruct (vector_assign (vars t) variants τ) as [new τ1]. simpl in *.
  split.
  - destruct (Shadow.variants (shadow τ1) !! ret) eqn:E; [|done].
    assert (ret < brk τ1)%N by (apply Hdom'; eauto). lia.
  - unfold field_source. simpl. rewrite Hfields, Hf. simpl.
    rewrite Hpt, lookup_insert_eq. simpl.
    rewrite (find_pos_lookup (handles t) i fh Hnd Hh).
    assert (is_Some (new !! i)) as [d Hd].
    { apply lookup_lt_is_Some. subst new. rewrite new_buffer_length.
      by eapply lookup_lt_Some. }
    rewrite Hd. simpl. by apply (Hres i).
Qed.

(** X7: after [GDBusTuple::assign] the conversion operator of the field
    declared at position [i] of the tuple reads the variant that was
    supplied at position [i]: its scalar when the types agree, the
    default of the type of the field otherwise; the read leaves the state
    as the assignment left it. *)
Theorem assign_then_read (this : N) (variants : list N) (t : tuple_t) (i : nat)
    (fh : N) (fp : field_ptr) (a ret : N) (τ : Tuple.state) :
  tuples τ !! this = Some t →
  NoDup (handles t) →
  handles t !! i = Some fh →
  fields τ !! fh = Some fp →
  pt fp = this →
  variants !! i = Some a →
  consistent (shadow τ) →
  allocated τ →
  Forall (λ a, (a < brk τ)%N) variants →
  Forall (λ a, (a < brk τ)%N) (vars t) →
  (brk τ + N.of_nat (length variants) ≤ ret)%N →
  let τ' := (GDBusTuple.assign this variants τ).2 in
  let x := resolve (shadow τ) a in
  pint_to_int fh ret τ' = (int_of x, τ')
  ∧ pdouble_to_double fh ret τ' = (double_of x, τ')
  ∧ pbool_to_bool fh ret τ' = (bool_of x, τ')
  ∧ pstring_to_string fh ret τ' = (string_of x, τ').
Proof.
  intros Ht Hnd Hh Hf Hpt Ha Hc Hdom Hsrc Hold Hret τ' x.
  destruct (assign_read_spec this variants t i fh fp a ret τ
              Ht Hnd Hh Hf Hpt Ha Hc Hdom Hsrc Hold Hret) as [Hfree Hsrc'].
  fold τ' in Hfree, Hsrc'.
  pose proof (conversions_spec fh ret τ' Hfree) as Hconv. cbv zeta in Hconv.
  rewrite Hsrc' in Hconv. exact Hconv.
Qed.

End field_facts.

Section field_examples.
Import Shadow Inv Tuple Fields.

Lemma si_tuple_allocated : allocated Sample.si_tuple.
Proof. exact row_store_bound. Qed.

Lemma si_handles_NoDup : NoDup (handles Scenario.si_entry).
Proof.
  apply NoDup_cons. split; [|apply NoDup_singleton].
  rewrite list_elem_of_singleton. done.
Qed.

(** X5 on the tuple [SITuple] holding the row ("eth0", 7): the member
    [value], at 102, converted through a temporary at 300. *)
Lemma field_conversions_witness :
  let src := field_source 102 Scenario.si_assigned
               ≫= resolve (shadow Scenario.si_assigned) in
  pint_to_int 102 300 Scenario.si_assigned = (int_of src, Scenario.si_assigned)
  ∧ pdouble_to_double 102 300 Scenario.si_assigned
      = (double_of src, Scenario.si_assigned)
  ∧ pbool_to_bool 102 300 Scenario.si_assigned = (bool_of src, Scenario.si_assigned)
  ∧ pstring_to_string 102 300 Scenario.si_assigned
      = (string_of src, Scenario.si_assigned).
Proof. apply (field_conversions 102 300 Scenario.si_assigned). reflexivity. Defined.

(** The member [value] reads 7 and the member [name] reads "eth0". *)
Example si_assigned_reads :
  (pint_to_int 102 300 Scenario.si_assigned).1 = 7
  ∧ (pstring_to_string 101 300 Scenario.si_assigned).1 = "eth0".
Proof. by vm_compute. Qed.

(** X7 for the member [value] of [SITuple], at position 1, and the row
    ("eth0", 7), whose second variant is the handle 11. *)
Lemma assign_then_read_witness :
  let τ' := (GDBusTuple.assign (H:=Sample.glib) 100 [10; 11]%N Sample.si_tuple).2 in
  let x := resolve (shadow Sample.si_tuple) 11 in
  pint_to_int 102 300 τ' = (int_of x, τ')
  ∧ pdouble_to_double 102 300 τ' = (double_of x, τ')
  ∧ pbool_to_bool 102 300 τ' = (bool_of x, τ')
  ∧ pstring_to_string 102 300 τ' = (string_of x, τ').
Proof.
  apply (assign_then_read (H:=Sample.glib) 100 [10; 11]%N Scenario.si_entry 1 102
           (mk_field_ptr 100 strInt) 11 300 Sample.si_tuple).
  - reflexivity.
  - exact si_handles_NoDup.
  - reflexivity.
  - reflexivity.
  - reflexivity.
  - reflexivity.
  - exact row_store_consistent.
  - exact si_tuple_allocated.
  - repeat constructor.
  - constructor.
  - vm_compute. discriminate.
Defined.

End field_examples.
(** ** Errors and the call storage *)

Section registry_more.
Import Client.
Context `{GLibExt} `{GDBusExt}.

Local Arguments rc.use_count : simpl never.
Local Arguments rc.ref : simpl never.
Local Arguments rc.unref : simpl never.
Local Arguments rc.deref : simpl never.

Ltac mrun := unfold bind, gets, modify, ret, logAssert; simpl.

Lemma errType_cases (e : GError) :
  errType (Some e) =
    if decide (domain e = G_DBUS_ERROR) then
      if decide (code e = G_DBUS_ERROR_SERVICE_UNKNOWN) then SERVICE_UNKNOWN
      else if decide (code e = G_DBUS_ERROR_DISCONNECTED) then SERVER_DISCONNECT
      else if decide (code e = G_DBUS_ERROR_ACCESS_DENIED) then ACCESS_DENIED
      else UNSPECIFIED
    else UNSPECIFIED.
Proof.
  unfold errType, errorMap.
  destruct e as [d c m]. simpl.
  destruct (decide (d = G_DBUS_ERROR)) as [->|Hd].
  - destruct (decide (c = G_DBUS_ERROR_SERVICE_UNKNOWN)) as [->|H1].
    { by rewrite lookup_insert_eq. }
    rewrite lookup_insert_ne by congruence.
    destruct (decide (c = G_DBUS_ERROR_DISCONNECTED)) as [->|H2].
    { by rewrite lookup_insert_eq. }
    rewrite lookup_insert_ne by congruence.
    destruct (decide (c = G_DBUS_ERROR_ACCESS_DENIED)) as [->|H3].
    { by rewrite lookup_singleton_eq. }
    by rewrite lookup_singleton_ne by congruence.
  - rewrite !lookup_insert_ne by congruence.
    by rewrite lookup_singleton_ne by congruence.
Qed.

(** X8: [errType] knows three errors, all of the D-Bus error domain:
    service unknown, disconnected and access denied; every other error is
    unspecified. The errors that make [callSync] try again are the first
    two. *)
Theorem errType_classifies (e : GError) :
  errType (Some e) =
    (if decide (domain e = G_DBUS_ERROR) then
       if decide (code e = G_DBUS_ERROR_SERVICE_UNKNOWN) then SERVICE_UNKNOWN
       else if decide (code e = G_DBUS_ERROR_DISCONNECTED) then SERVER_DISCONNECT
       else if decide (code e = G_DBUS_ERROR_ACCESS_DENIED) then ACCESS_DENIED
       else UNSPECIFIED
     else UNSPECIFIED)
  ∧ (retriable e ↔
     domain e = G_DBUS_ERROR
     ∧ (code e = G_DBUS_ERROR_SERVICE_UNKNOWN ∨ code e = G_DBUS_ERROR_DISCONNECTED)).
Proof.
  split; [apply errType_cases|].
  unfold retriable, retriableErrors. rewrite errType_cases.
  rewrite !elem_of_cons, elem_of_nil.
  repeat case_decide; split; intros Hx.
  all: try (destruct Hx as [Hx|[Hx|[]]]; discriminate Hx).
  all: try (split; [done|]; by left).
  all: try (split; [done|]; by right).
  all: try (by left).
  all: try (right; by left).
  all: destruct Hx as [Hd [Hc|Hc]]; congruence.
Qed.

(** X9: once the call storage is destroyed (the process is exiting),
    [add], [get] and [remove] only report the access and change nothing
    else; [get] gives an empty guard, and [callSync] returns false after
    the one report of its [get], without touching the parameters. *)
Theorem storage_destroyed_is_inert (bus : bus_t) (p : N) (c : call_t) (w : world) :
  storage_destroyed w = true →
  add p c w = (tt, emit (ev_log "add" d_destroyed) w)
  ∧ get p w = ({| call := None |}, emit (ev_log "get" d_destroyed) w)
  ∧ remove p w = (tt, emit (ev_log "remove" d_destroyed) w)
  ∧ callSync bus p w = (false, emit (ev_log "get" d_destroyed) w).
Proof.
  intros Hd.
  assert (Hget : get p w = ({| call := None |}, emit (ev_log "get" d_destroyed) w)).
  { unfold get, verboseStateCheck. mrun. rewrite Hd. reflexivity. }
  split; [|split; [exact Hget|split]].
  - unfold add, verboseStateCheck. mrun. rewrite Hd. reflexivity.
  - unfold remove, verboseStateCheck. mrun. rewrite Hd. reflexivity.
  - unfold callSync. unfold bind at 1. rewrite Hget.
    unfold guard_dtor. mrun. rewrite Hd. reflexivity.
Qed.

Lemma get_unregistered p w :
  storage_destroyed w = false →
  calls w !! p = None →
  get p w = ({| call := None |}, set_calls (<[p := None]>) w).
Proof.
  intros Hd Hp. unfold get, verboseStateCheck. mrun. rewrite Hd. simpl.
  rewrite Hp. simpl. unfold verboseCheckOwnership. mrun. reflexivity.
Qed.

Lemma get_null_entry p w :
  storage_destroyed w = false →
  calls w !! p = Some None →
  get p w = ({| call := None |}, w).
Proof.
  intros Hd Hp. unfold get, verboseStateCheck. mrun. rewrite Hd. simpl.
  rewrite Hp. simpl. unfold verboseCheckOwnership. mrun. reflexivity.
Qed.

(** X10: a [get] for an address that is not registered leaves a null
    entry behind ([calls[p]] creates it) and reports nothing. The entry
    stays: an [add] for that address afterwards is ignored, because
    [emplace] keeps the entry that is there, and [callSync] on the address
    returns false. *)
Theorem get_before_add_blocks_registration (bus : bus_t) (p : N) (c : call_t)
    (w : world) :
  storage_destroyed w = false →
  calls w !! p = None →
  let w1 := (get p w).2 in
  (get p w).1 = {| call := None |}
  ∧ w1 = set_calls (<[p := None]>) w
  ∧ add p c w1 = (tt, w1)
  ∧ callSync bus p w1 = (false, w1).
Proof.
  intros Hd Hp w1. subst w1. rewrite (get_unregistered p w Hd Hp). simpl.
  split; [done|]. split; [done|].
  set (w1 := set_calls (<[p := None]>) w).
  assert (Hp1 : calls w1 !! p = Some None) by (simpl; by rewrite lookup_insert_eq).
  split.
  - unfold add, verboseStateCheck. mrun. rewrite Hd. simpl.
    rewrite lookup_insert_eq. reflexivity.
  - unfold callSync. unfold bind at 1.
    rewrite (get_null_entry p w1 Hd Hp1).
    unfold guard_dtor. mrun. rewrite Hd. simpl.
    unfold verboseCheckOwnership. mrun. reflexivity.
Qed.

(** The constructor of [call_t] checks the four names and reports the
    bad ones; it changes nothing else. *)
Lemma call_ctor_frame obj m w :
  (call_ctor obj m w).1 = {| params := []; object := obj; method := m |}
  ∧ calls (call_ctor obj m w).2 = calls w
  ∧ call_heap (call_ctor obj m w).2 = call_heap w
  ∧ storage_destroyed (call_ctor obj m w).2 = storage_destroyed w
  ∧ callUnderConstruction (call_ctor obj m w).2 = callUnderConstruction w
  ∧ memory (call_ctor obj m w).2 = memory w.
Proof.
  unfold call_ctor, call_verboseCheckNoErr. mrun.
  destruct (g_dbus_is_name _), (g_variant_is_object_path _),
    (g_dbus_is_interface_name _), (g_dbus_is_member_name _); simpl; done.
Qed.

Lemma unref_new (c : call_t) (heap : gmap positive (call_t * positive)) :
  rc.unref (rc.new c heap).1 (rc.new c heap).2 = heap.
Proof.
  unfold rc.new, rc.unref. simpl. rewrite lookup_insert_eq.
  rewrite decide_True by done. apply delete_insert_id.
  apply not_elem_of_dom, is_fresh.
Qed.

(** X11: the constructor of [GDBusCall] at an address the storage does
    not know registers a call without parameters, for the given object and
    method, that the storage alone owns, and makes it the call under
    construction; the destructor then takes the entry away and frees the
    call: the map and the heap of the storage are what they were before
    the constructor, and no call is under construction. *)
Theorem call_registration_roundtrip (this : N) (obj : obj_desc_t) (m : string)
    (w : world) :
  storage_destroyed w = false →
  calls w !! this = None →
  let w1 := (GDBusCall_ctor this obj m w).2 in
  let q := fresh (dom (call_heap w)) in
  let w2 := (GDBusCall_dtor this w1).2 in
  (calls w1 !! this = Some (Some q)
   ∧ call_heap w1 !! q
       = Some ({| params := []; object := obj; method := m |}, 1%positive)
   ∧ callUnderConstruction w1 = this)
  ∧ (calls w2 = calls w ∧ call_heap w2 = call_heap w
     ∧ callUnderConstruction w2 = 0%N ∧ memory w2 = memory w).
Proof.
  intros Hd Hc w1 q w2. subst w2 w1.
  assert (Hctor : GDBusCall_ctor this obj m w =
            add this (call_ctor obj m (set_callUnderConstruction this w)).1
              (call_ctor obj m (set_callUnderConstruction this w)).2).
  { unfold GDBusCall_ctor, bind, modify. by destruct (call_ctor _ _ _). }
  rewrite Hctor. clear Hctor.
  pose proof (call_ctor_frame obj m (set_callUnderConstruction this w))
    as (F1 & F2 & F3 & F4 & F5 & F6).
  destruct (call_ctor obj m (set_callUnderConstruction this w)) as [c wc].
  simpl in *. subst c.
  unfold add, verboseStateCheck. mrun. rewrite F4, Hd. simpl.
  rewrite F2, Hc. simpl. rewrite F3. fold q.
  split.
  - rewrite !lookup_insert_eq. done.
  - unfold GDBusCall_dtor, remove, verboseStateCheck. mrun. rewrite F4, Hd. simpl.
    rewrite lookup_insert_eq. simpl. rewrite F5, decide_True by done. simpl.
    rewrite F2, F6.
    split; [by apply delete_insert_id|]. split; [|done].
    apply (unref_new {| params := []; object := obj; method := m |} (call_heap w)).
Qed.

(** X12: a parameter constructed while its call is under construction
    is appended to the parameters of that call, behind those declared
    before it; the storage is again the only owner of the call, so the
    next declaration finds it in the same way. *)
Theorem moveIntoCall_appends (p : param_t) (this : N) (q : positive) (c : call_t)
    (w : world) :
  storage_destroyed w = false →
  callUnderConstruction w = this →
  calls w !! this = Some (Some q) →
  call_heap w !! q = Some (c, 1%positive) →
  moveIntoCall p w =
    (tt, set_call_heap
           (<[q := ({| params := params c ++ [p]; object := object c;
                       method := method c |}, 1%positive)]>) w).
Proof.
  intros Hd Hcuc Hc Hq. unfold moveIntoCall. unfold bind at 1. unfold gets at 1.
  rewrite Hcuc. unfold bind at 1.
  rewrite (get_sole_owner this q c w Hd Hc Hq). simpl.
  unfold bind at 1. unfold modify at 1.
  set (c' := {| params := params c ++ [p]; object := object c; method := method c |}).
  match goal with |- guard_dtor _ ?w0 = _ => set (w1 := w0) end.
  assert (Hq1 : call_heap w1 !! q = Some (c', 2%positive)).
  { unfold w1, held. simpl. unfold rc.ref.
    by rewrite !lookup_alter_eq, Hq. }
  rewrite (guard_dtor_held q c' w1 Hd Hq1). f_equal.
  destruct w. unfold w1, held, set_call_heap. simpl in *. f_equal.
  unfold rc.unref. rewrite lookup_alter_eq. unfold rc.ref.
  rewrite lookup_alter_eq, Hq. simpl.
  apply map_eq. intros i. destruct (decide (i = q)) as [->|Hne].
  - by rewrite !lookup_insert_eq.
  - by rewrite !lookup_insert_ne, !lookup_alter_ne.
Qed.

(** X13: a parameter that is not a member of the call under
    construction (there is no such call, or the address of the parameter
    is outside the body of the call) is reported and left unbound: its
    initial value is not stored, it has no marshaller and no unmarshaller,
    so that the loops of [callSync] pass over it. An output parameter of
    this kind keeps its cleanup closure. *)
Theorem stray_parameter_is_inert (T : converters.GDBusType) (V : Type)
    `{!converters.Marshaller T V} `{!converters.Unmarshaller T V} `{!Cell V}
    (par : N) (name : string) (v : V) (ps : list param_t)
    (acc outs : list GVariant) (w w' : world) :
  (callUnderConstruction w = 0
   ∨ par < callUnderConstruction w
   ∨ callUnderConstruction w + MAX_CALL_BODY_SIZE * sizeof_GDBusCall ≤ par)%N →
  let r_in := param_in T par name v w in
  let r_out := param_out T par name v w in
  (marshal r_in.1 = None ∧ unmarshal r_in.1 = None ∧ memory r_in.2 = memory w)
  ∧ (marshal r_out.1 = None ∧ unmarshal r_out.1 = None
     ∧ cleanup r_out.1 = reset V par ∧ memory r_out.2 = memory w)
  ∧ (marshal_inputs (r_in.1 :: ps) acc w' = marshal_inputs ps acc w'
     ∧ unmarshal_outputs (r_out.1 :: ps) outs w' = unmarshal_outputs ps outs w').
Proof.
  intros Hstray r_in r_out. subst r_in r_out.
  unfold param_in, param_out, param_verboseCheckNoErr. mrun.
  destruct (decide (callUnderConstruction w = 0%N)) as [Hz|Hz].
  - rewrite (bool_decide_eq_false_2 (callUnderConstruction w ≠ 0%N)) by tauto.
    simpl. done.
  - rewrite (bool_decide_eq_true_2 (callUnderConstruction w ≠ 0%N)) by done.
    simpl.
    assert (Hout : bool_decide (callUnderConstruction w ≤ par)%N
                   && bool_decide (par < callUnderConstruction w
                                         + MAX_CALL_BODY_SIZE * sizeof_GDBusCall)%N
                   = false).
    { apply andb_false_iff. destruct Hstray as [?|[?|?]]; [done| |].
      - left. apply bool_decide_eq_false. lia.
      - right. apply bool_decide_eq_false. lia. }
    rewrite Hout. simpl. done.
Qed.

End registry_more.

Section registry_more_examples.
Import converters.
Import Client.
#[local] Existing Instance Sample.glib.
#[local] Existing Instance Sample.dbus.

(** X9 for the process of the samples after its storage was destroyed. *)
Lemma storage_destroyed_is_inert_witness :
  add 900 Sample.the_call Sample.answered_torn_down
    = (tt, emit (ev_log "add" d_destroyed) Sample.answered_torn_down)
  ∧ get 900 Sample.answered_torn_down
    = ({| call := None |}, emit (ev_log "get" d_destroyed) Sample.answered_torn_down)
  ∧ remove 900 Sample.answered_torn_down
    = (tt, emit (ev_log "remove" d_destroyed) Sample.answered_torn_down)
  ∧ callSync Sample.bus_up 900 Sample.answered_torn_down
    = (false, emit (ev_log "get" d_destroyed) Sample.answered_torn_down).
Proof.
  apply (storage_destroyed_is_inert Sample.bus_up 900 Sample.the_call
           Sample.answered_torn_down).
  reflexivity.
Defined.

(** X10 at the address 700, which the process of the samples does not
    know. *)
Lemma get_before_add_blocks_registration_witness :
  let w1 := (get 700 Sample.declared).2 in
  (get 700 Sample.declared).1 = {| call := None |}
  ∧ w1 = set_calls (<[700%N := None]>) Sample.declared
  ∧ add 700 Sample.the_call w1 = (tt, w1)
  ∧ callSync Sample.bus_up 700 w1 = (false, w1).
Proof.
  apply (get_before_add_blocks_registration Sample.bus_up 700 Sample.the_call
           Sample.declared);
    reflexivity.
Defined.

(** X11 for a call object at 700 in the process of the samples. *)
Lemma call_registration_roundtrip_witness :
  let obj := fromName "com.lgi.rdk.utils.networkconfig1" in
  let w1 := (GDBusCall_ctor 700 obj "GetStatus" Sample.declared).2 in
  let q := fresh (dom (call_heap Sample.declared)) in
  let w2 := (GDBusCall_dtor 700 w1).2 in
  (calls w1 !! 700%N = Some (Some q)
   ∧ call_heap w1 !! q
       = Some ({| params := []; object := obj; method := "GetStatus" |}, 1%positive)
   ∧ callUnderConstruction w1 = 700%N)
  ∧ (calls w2 = calls Sample.declared ∧ call_heap w2 = call_heap Sample.declared
     ∧ callUnderConstruction w2 = 0%N ∧ memory w2 = memory Sample.declared).
Proof.
  apply (call_registration_roundtrip 700
           (fromName "com.lgi.rdk.utils.networkconfig1") "GetStatus" Sample.declared);
    reflexivity.
Defined.

(** X12 for the first parameter declared by the call object at 900. *)
Lemma moveIntoCall_appends_witness :
  moveIntoCall Scenario.status_param Scenario.constructed =
    (tt, set_call_heap
           (<[1%positive :=
                ({| params := params Scenario.bare_call ++ [Scenario.status_param];
                    object := object Scenario.bare_call;
                    method := method Scenario.bare_call |}, 1%positive)]>)
           Scenario.constructed).
Proof.
  apply (moveIntoCall_appends Scenario.status_param 900 1%positive
           Scenario.bare_call Scenario.constructed);
    reflexivity.
Defined.

(** X13 for a 32-bit integer at 40000, far behind the call object at
    900 that is under construction. *)
Lemma stray_parameter_is_inert_witness :
  let r_in := param_in converters.TYPE_I 40000 "far" 1 Sample.declared in
  let r_out := param_out converters.TYPE_I 40000 "far" 1 Sample.declared in
  (marshal r_in.1 = None ∧ unmarshal r_in.1 = None
   ∧ memory r_in.2 = memory Sample.declared)
  ∧ (marshal r_out.1 = None ∧ unmarshal r_out.1 = None
     ∧ cleanup r_out.1 = reset Z 40000 ∧ memory r_out.2 = memory Sample.declared)
  ∧ (marshal_inputs (r_in.1 :: []) [] Sample.declared
       = marshal_inputs [] [] Sample.declared
     ∧ unmarshal_outputs (r_out.1 :: []) [] Sample.declared
       = unmarshal_outputs [] [] Sample.declared).
Proof.
  apply (stray_parameter_is_inert converters.TYPE_I Z 40000 "far" 1 [] [] []
           Sample.declared Sample.declared).
  right. right. vm_compute. discriminate.
Defined.

End registry_more_examples.
(** ** [callSync]: what it asks of the bus *)

Section callsync_more.
Import Client.
Context `{GDBusExt} (bus : bus_t).

Local Arguments rc.use_count : simpl never.
Local Arguments rc.ref : simpl never.
Local Arguments rc.unref : simpl never.
Local Arguments rc.deref : simpl never.
Local Arguments retry_loop : simpl never.

Ltac mrun := unfold bind, gets, modify, ret, logAssert; simpl.

Ltac case_if :=
  match goal with |- context [if ?b then _ else _] => destruct b end.

Lemma logAssert_counters func b d w :
  counters (logAssert func b d w).2 = counters w.
Proof. by destruct b. Qed.

Lemma guard_dtor_counters g w : counters (guard_dtor g w).2 = counters w.
Proof.
  unfold guard_dtor, verboseCheckOwnership. mrun.
  destruct (storage_destroyed w); simpl.
  - by destruct (call g).
  - case_if; simpl; by destruct (call g).
Qed.

Lemma get_counters p w : counters (get p w).2 = counters w.
Proof.
  unfold get, verboseStateCheck. mrun.
  destruct (storage_destroyed w); simpl; [done|].
  destruct (calls w !! p) as [[q|]|]; simpl;
    unfold guard_dtor, verboseCheckOwnership; mrun;
    repeat (case_if; simpl; try done); done.
Qed.

Lemma marshal_inputs_counters ps : ∀ acc w,
  counters (marshal_inputs ps acc w).2 = counters w.
Proof.
  induction ps as [|p ps IH]; intros acc w; simpl; [done|].
  destruct (marshal p) as [f|]; [|apply IH].
  mrun. destruct (f (memory w)) as [v|]; simpl; [apply IH|done].
Qed.

Lemma unmarshal_outputs_counters ps : ∀ outs w,
  counters (unmarshal_outputs ps outs w).2 = counters w.
Proof.
  induction ps as [|p ps IH]; intros outs w; simpl; [done|].
  destruct (unmarshal p) as [f|]; [|apply IH].
  destruct outs as [|v more]; [done|].
  mrun. destruct (f v (memory w)) as [r m]. simpl.
  destruct r; simpl; [|done].
  match goal with |- context [unmarshal_outputs ps more ?w1] =>
    rewrite (IH more w1) end.
  done.
Qed.

Lemma run_cleanup_counters ps : ∀ w, counters (run_cleanup ps w).2 = counters w.
Proof.
  induction ps as [|p ps IH]; intros w; simpl; [done|].
  mrun. match goal with |- context [run_cleanup ps ?w1] => rewrite (IH w1) end.
  done.
Qed.

(** A lookup in the proxy cache asks for at most one proxy and makes no
    call. *)
Lemma instanceFor_counters obj policy w :
  (n_new w ≤ n_new (instanceFor bus obj policy w).2 ≤ S (n_new w))%nat
  ∧ n_call (instanceFor bus obj policy w).2 = n_call w.
Proof.
  unfold instanceFor. mrun.
  destruct (_ || _); simpl; [|lia].
  unfold proxy_ctor. mrun.
  destruct (proxy_new bus (n_new w) obj); simpl.
  - unfold gerror_verboseCheckNoErr, proxy_assign. mrun.
    destruct (decide _); simpl; [destruct (proxy _)|]; simpl; lia.
  - unfold proxy_assign. mrun.
    destruct (decide _); simpl; [destruct (proxy _)|]; simpl; lia.
Qed.

(** One round adds at most one request of each kind to those of the
    rounds that follow. *)
Lemma attempt_call_counters c t policy again k w0 :
  (∀ e w, (n_new (again e w).2 ≤ n_new w + k)%nat
          ∧ (n_call (again e w).2 ≤ n_call w + k)%nat) →
  (n_new (attempt_call bus c t policy again w0).2 ≤ n_new w0 + S k)%nat
  ∧ (n_call (attempt_call bus c t policy again w0).2 ≤ n_call w0 + S k)%nat.
Proof.
  intros IH. unfold attempt_call, bind, proxy_verboseCheckNoErr.
  pose proof (instanceFor_counters (object c) policy w0) as [Hn Hc].
  destruct (instanceFor bus (object c) policy w0) as [px w1]. simpl in *.
  destruct (proxy px) as [p|]; mrun; [|lia].
  unfold g_dbus_proxy_call_sync. mrun.
  destruct (call_sync bus (n_call w1) p (c_str (method c)) t) as [e|out]; simpl.
  - match goal with |- context [again e ?w3] =>
      destruct (IH e w3) as [I1 I2] end.
    simpl in *. lia.
  - lia.
Qed.

Lemma retry_loop_counters c t attempts : ∀ err w,
  (n_new (retry_loop bus c t attempts err w).2 ≤ n_new w + attempts)%nat
  ∧ (n_call (retry_loop bus c t attempts err w).2 ≤ n_call w + attempts)%nat.
Proof.
  induction attempts as [|n IH]; intros err w.
  - rewrite retry_loop_O. unfold ret. simpl. lia.
  - rewrite retry_loop_S. cbv zeta.
    destruct (bool_decide (errType err ∈ retriableErrors)).
    + unfold bind, modify.
      match goal with |- context [attempt_call bus c t ?pol ?again ?w0] =>
        destruct (attempt_call_counters c t pol again n w0) as [A1 A2] end.
      { intros e w'. apply IH. }
      simpl in *. lia.
    + destruct (bool_decide (errType err ≠ NOERR)).
      * simpl. lia.
      * apply attempt_call_counters. intros e w'. apply IH.
Qed.

Lemma callSync_body_counters c w :
  (n_new (callSync_body bus c w).2 ≤ n_new w + MAX_ATTEMPTS)%nat
  ∧ (n_call (callSync_body bus c w).2 ≤ n_call w + MAX_ATTEMPTS)%nat.
Proof.
  unfold callSync_body, bind.
  pose proof (marshal_inputs_counters (params c) [] w) as M.
  destruct (marshal_inputs (params c) [] w) as [[ins|] w1]; simpl in *.
  - pose proof (retry_loop_counters c (GTuple ins) MAX_ATTEMPTS None w1) as [R1 R2].
    injection M as M1 M2.
    destruct (retry_loop bus c (GTuple ins) MAX_ATTEMPTS None w1)
      as [[|out err] w2]; simpl in *.
    + lia.
    + unfold gerror_verboseCheckNoErr. destruct err as [e|]; mrun; [lia|].
      destruct out as [t|]; mrun; [|lia].
      pose proof (unmarshal_outputs_counters (params c) (g_variant_children t) w2)
        as U. injection U as U1 U2. lia.
  - injection M as M1 M2. lia.
Qed.

(** X14: whatever the bus answers and whatever state the process is in,
    one [callSync] sends at most three method calls and asks for at most
    three proxies. *)
Theorem callSync_request_bound (this : N) (w : world) :
  (n_call (callSync bus this w).2 ≤ n_call w + 3)%nat
  ∧ (n_new (callSync bus this w).2 ≤ n_new w + 3)%nat.
Proof.
  unfold callSync, bind, gets.
  pose proof (get_counters this w) as G. injection G as G1 G2.
  destruct (get this w) as [g w1]. simpl in *.
  destruct (call g ≫= λ p, rc.deref p (call_heap w1)) as [c|].
  - pose proof (callSync_body_counters c w1) as [B1 B2].
    destruct (callSync_body bus c w1) as [r w2]. simpl in *.
    assert (C : counters (cleanup_guard_dtor c r w2).2 = counters w2).
    { unfold cleanup_guard_dtor. destruct r; [done|apply run_cleanup_counters]. }
    injection C as C1 C2.
    destruct (cleanup_guard_dtor c r w2) as [[] w3]. simpl in *.
    pose proof (guard_dtor_counters g w3) as D. injection D as D1 D2.
    destruct (guard_dtor g w3) as [[] w4]. simpl in *.
    unfold MAX_ATTEMPTS in *. lia.
  - pose proof (guard_dtor_counters g w1) as D. injection D as D1 D2.
    destruct (guard_dtor g w1) as [[] w4]. simpl in *. lia.
Qed.

(** ** [callSync]: replies *)

Lemma unmarshal_outputs_decode ps : ∀ outs w,
  (unmarshal_outputs ps outs w).1 = (decode ps outs (memory w)).1
  ∧ memory (unmarshal_outputs ps outs w).2 = (decode ps outs (memory w)).2.
Proof.
  induction ps as [|p ps IH]; intros outs w; simpl; [done|].
  destruct (unmarshal p) as [f|]; [|apply IH].
  destruct outs as [|v more]; [done|].
  mrun. destruct (f v (memory w)) as [r m]. simpl.
  destruct r; simpl; [|done].
  match goal with |- context [unmarshal_outputs ps more ?w1] =>
    destruct (IH more w1) as [I1 I2] end.
  simpl in *. done.
Qed.

(** One round whose proxy is valid and whose call is answered. *)
Lemma attempt_call_answers c tin t policy again w :
  proxy_new bus (n_new w) (object c) = None →
  (∀ p, call_sync bus (n_call w) p (c_str (method c)) tin = inr t) →
  ∃ w1,
    attempt_call bus c tin policy again w = (left_loop (Some t) None, w1)
    ∧ same_storage w w1 ∧ memory w1 = memory w
    ∧ steps (trace w1) = steps (trace w) ++ [attempt].
Proof.
  intros Hnew Hans. unfold attempt_call, bind, proxy_verboseCheckNoErr.
  pose proof (instanceFor_frame bus (object c) policy w) as (F1 & F2 & F3 & F4 & F5).
  destruct (instanceFor bus (object c) policy w) as [px w1]. simpl in *.
  destruct (proxy px) as [p|]; [|destruct F5 as [? F5]; congruence].
  mrun. unfold g_dbus_proxy_call_sync. mrun. rewrite F3, (Hans p).
  eexists. split; [reflexivity|]. simpl.
  split; [apply F1|]. split; [done|].
  rewrite steps_app. simpl. by rewrite F4.
Qed.

Lemma not_retriable_None : errType None ∉ retriableErrors.
Proof.
  simpl. unfold retriableErrors. rewrite !elem_of_cons, elem_of_nil.
  intros [?|[?|[]]]; done.
Qed.

(** The retry loop on a bus where proxies can be created, the next [k]
    calls fail with a retriable error and the call after them is
    answered. *)
Lemma retry_loop_succeeds c tin t :
  (∀ j, proxy_new bus j (object c) = None) →
  ∀ k n err w,
    (k < n)%nat →
    (err = None ∨ ∃ e, err = Some e ∧ retriable e) →
    (∀ i, (i < k)%nat → ∀ p m x,
       ∃ e, call_sync bus (n_call w + i) p m x = inl e ∧ retriable e) →
    (∀ p m x, call_sync bus (n_call w + k) p m x = inr t) →
    ∃ w',
      retry_loop bus c tin n err w = (left_loop (Some t) None, w')
      ∧ same_storage w w' ∧ memory w' = memory w
      ∧ steps (trace w') = steps (trace w) ++ plan (S k) err.
Proof.
  intros Hnew. induction k as [|k IH]; intros n err w Hlt Herr Hfail Hans;
    (destruct n as [|n]; [lia|]); rewrite retry_loop_S; cbv zeta.
  - (* answered at once *)
    assert (Hround : ∀ w0 policy, n_call w0 = n_call w →
      ∃ w',
        attempt_call bus c tin policy (λ e, retry_loop bus c tin n (Some e)) w0
          = (left_loop (Some t) None, w')
        ∧ same_storage w0 w' ∧ memory w' = memory w0
        ∧ steps (trace w') = steps (trace w0) ++ [attempt]).
    { intros w0 policy Hn. apply attempt_call_answers; [apply Hnew|].
      intros p. rewrite Hn. specialize (Hans p (c_str (method c)) tin).
      by rewrite Nat.add_0_r in Hans. }
    destruct Herr as [->|(e & -> & Hr)].
    + rewrite bool_decide_eq_false_2 by apply not_retriable_None.
      rewrite bool_decide_eq_false_2 by (simpl; congruence).
      destruct (Hround w (if decide (S n = MAX_ATTEMPTS) then USE_EXISTING
                          else RECREATE) eq_refl) as (w' & E & S1 & M1 & T1).
      exists w'. done.
    + rewrite bool_decide_eq_true_2 by exact Hr.
      unfold bind at 1. unfold modify at 1.
      destruct (Hround (emit (ev_sleep WAIT_MS) w)
                  (if decide (S n = MAX_ATTEMPTS) then USE_EXISTING else RECREATE)
                  eq_refl) as (w' & E & S1 & M1 & T1).
      exists w'. split; [exact E|]. split; [exact S1|]. split; [exact M1|].
      rewrite T1. simpl. rewrite steps_app. simpl. by rewrite <- app_assoc.
  - (* a retriable failure first *)
    assert (Hround : ∀ w0 policy, n_call w0 = n_call w →
      same_storage w w0 → memory w0 = memory w →
      ∃ w',
        attempt_call bus c tin policy (λ e, retry_loop bus c tin n (Some e)) w0
          = (left_loop (Some t) None, w')
        ∧ same_storage w w' ∧ memory w' = memory w
        ∧ steps (trace w') = steps (trace w0) ++ attempt :: retries (S k)).
    { intros w0 policy Hn Hs0 Hm0.
      destruct (attempt_call_fails bus c tin policy
                  (λ e, retry_loop bus c tin n (Some e)) w0)
        as (p & e & w1 & He & -> & S1 & M1 & N1 & _ & T1).
      { apply Hnew. }
      { intros p. rewrite Hn.
        destruct (Hfail O (Nat.lt_0_succ k) p (c_str (method c)) tin) as (e & He & _).
        rewrite Nat.add_0_r in He. eauto. }
      assert (Hr : retriable e).
      { destruct (Hfail O (Nat.lt_0_succ k) p (c_str (method c)) tin)
          as (e' & He' & Hr).
        rewrite Nat.add_0_r, <- Hn in He'. congruence. }
      destruct (IH n (Some e) w1) as (w' & E & S2 & M2 & T2).
      { lia. }
      { right. eauto. }
      { intros i Hi p' m x. rewrite N1, Hn.
        replace (S (n_call w) + i)%nat with (n_call w + S i)%nat by lia.
        apply Hfail. lia. }
      { intros p' m x. rewrite N1, Hn.
        replace (S (n_call w) + k)%nat with (n_call w + S k)%nat by lia.
        apply Hans. }
      exists w'. split; [exact E|].
      split; [eapply same_storage_trans; [exact Hs0|];
              by eapply same_storage_trans|].
      split; [congruence|].
      rewrite T2, T1, <- app_assoc. done. }
    destruct Herr as [->|(e & -> & Hr)].
    + rewrite bool_decide_eq_false_2 by apply not_retriable_None.
      rewrite bool_decide_eq_false_2 by (simpl; congruence).
      destruct (Hround w (if decide (S n = MAX_ATTEMPTS) then USE_EXISTING
                          else RECREATE) eq_refl (same_storage_refl w) eq_refl)
        as (w' & E & S1 & M1 & T1).
      exists w'. done.
    + rewrite bool_decide_eq_true_2 by exact Hr.
      unfold bind at 1. unfold modify at 1.
      destruct (Hround (emit (ev_sleep WAIT_MS) w)
                  (if decide (S n = MAX_ATTEMPTS) then USE_EXISTING else RECREATE)
                  eq_refl (same_storage_refl w) eq_refl)
        as (w' & E & S1 & M1 & T1).
      exists w'. split; [exact E|]. split; [exact S1|]. split; [exact M1|].
      rewrite T1. simpl. rewrite steps_app. simpl. by rewrite <- app_assoc.
Qed.

(** X15: on a bus where proxies can be created, a [callSync] that has
    acquired its call and marshalled its inputs, whose first [k] calls
    ([k] is 0, 1 or 2) fail with a retriable error and whose next call is
    answered, makes [k + 1] attempts with a sleep of 250 ms before each but
    the first, and then decodes the reply: it returns what the decoding of
    the reply fields into the output parameters returns. When that is true
    the memory holds the decoded values and no cleanup closure is called;
    when it is false the cleanup closures are called. *)
Theorem callSync_succeeds_after_retries (this : N) (q : positive) (c : call_t)
    (t : GVariant) (k : nat) (w : world) :
  storage_destroyed w = false →
  calls w !! this = Some (Some q) →
  call_heap w !! q = Some (c, 1%positive) →
  inputs_marshal c (memory w) →
  (∀ j, proxy_new bus j (object c) = None) →
  (k < 3)%nat →
  (∀ i, (i < k)%nat → ∀ p m x,
     ∃ e, call_sync bus (n_call w + i) p m x = inl e ∧ retriable e) →
  (∀ p m x, call_sync bus (n_call w + k) p m x = inr t) →
  let decoded := decode (params c) (g_variant_children t) (memory w) in
  (callSync bus this w).1 = decoded.1
  ∧ steps (trace (callSync bus this w).2) =
      steps (trace w) ++ plan (S k) None
      ++ (if decoded.1 then [] else reset_of ∘ p_name <$> params c)
  ∧ (decoded.1 = true → memory (callSync bus this w).2 = decoded.2).
Proof.
  intros Hd Hc Hq Hin Hnew Hk Hfail Hans decoded.
  pose proof (callSync_acquired bus this q c w Hd Hc Hq) as Hcs. cbv zeta in Hcs.
  destruct (marshal_inputs_ok (params c) [] (held q w) Hin) as [ins Hins].
  destruct (retry_loop_succeeds c (GTuple ins) t Hnew k MAX_ATTEMPTS None (held q w))
    as (w' & E & S1 & M1 & T1); [exact Hk|by left|exact Hfail|exact Hans|].
  pose proof (unmarshal_outputs_decode (params c) (g_variant_children t) w')
    as [D1 D2].
  pose proof (unmarshal_outputs_frame (params c) (g_variant_children t) w')
    as [_ U2].
  assert (Hbody : callSync_body bus c (held q w)
                  = unmarshal_outputs (params c) (g_variant_children t) w').
  { unfold callSync_body. unfold bind at 1. rewrite Hins.
    unfold bind at 1. rewrite E. reflexivity. }
  rewrite Hbody in Hcs. rewrite M1 in D1, D2. fold decoded in D1, D2.
  destruct (unmarshal_outputs (params c) (g_variant_children t) w') as [r wb].
  simpl in *. rewrite Hcs. simpl. subst r.
  fold decoded. fold decoded in D2. clearbody decoded.
  destruct decoded as [r md]. simpl in *.
  split; [done|]. destruct r; simpl.
  - split; [|done]. rewrite U2, T1. simpl. by rewrite app_nil_r.
  - split; [|done].
    destruct (run_cleanup_spec (params c) wb) as (_ & _ & C3).
    rewrite C3, U2, T1. simpl. by rewrite <- app_assoc.
Qed.

Lemma decode_short ps : ∀ outs m,
  (length outs < n_outputs ps)%nat → (decode ps outs m).1 = false.
Proof.
  unfold n_outputs.
  induction ps as [|p ps IH]; intros outs m Hlen; simpl in *; [lia|].
  destruct (unmarshal p) as [f|]; simpl in *; [|by apply IH].
  destruct outs as [|v more]; [done|].
  destruct (f v m) as [r m1]. destruct r; [|done].
  apply IH. simpl in Hlen. apply Nat.succ_lt_mono in Hlen. exact Hlen.
Qed.

(** X16: a reply with fewer fields than the call has bound output
    parameters makes the last loop of [callSync] fail. *)
Theorem short_reply_fails (ps : list param_t) (outs : list GVariant) (w : world) :
  (length outs < n_outputs ps)%nat →
  (unmarshal_outputs ps outs w).1 = false.
Proof.
  intros Hlen.
  destruct (unmarshal_outputs_decode ps outs w) as [-> _].
  by apply decode_short.
Qed.

(** X17: the fields of a reply that come after those the output
    parameters take are not looked at: when a reply decodes, the same
    reply followed by more fields decodes to the same result and state. *)
Theorem extra_reply_fields_are_ignored (ps : list param_t)
    (outs extra : list GVariant) (w : world) :
  (unmarshal_outputs ps outs w).1 = true →
  unmarshal_outputs ps (outs ++ extra) w = unmarshal_outputs ps outs w.
Proof.
  revert outs w.
  induction ps as [|p ps IH]; intros outs w Hok; simpl in *; [done|].
  destruct (unmarshal p) as [f|]; [|by apply IH].
  destruct outs as [|v more]; [done|].
  simpl. revert Hok. mrun. destruct (f v (memory w)) as [r m]. simpl.
  destruct r; simpl; [|done]. apply IH.
Qed.

Lemma marshal_inputs_fails ps : ∀ acc w,
  Exists (λ p, ∃ f, marshal p = Some f ∧ f (memory w) = None) ps →
  (marshal_inputs ps acc w).1 = None.
Proof.
  induction ps as [|p ps IH]; intros acc w Hex; [by inversion Hex|].
  simpl. destruct (marshal p) as [f|] eqn:Hf.
  - mrun. destruct (f (memory w)) as [v|] eqn:Hv; simpl; [|done].
    apply IH. inversion Hex as [?? (f' & Hf' & Hv')|]; subst; [|done].
    congruence.
  - apply IH. inversion Hex as [?? (f' & Hf' & Hv')|]; subst; [|done].
    congruence.
Qed.

(** X18: when an input parameter does not marshal (a string that is not
    a valid object path, say), a [callSync] that has acquired its call
    returns false without asking anything of the bus: no proxy is looked
    up, no call is sent, nothing sleeps; the cleanup closures run. *)
Theorem callSync_input_failure (this : N) (q : positive) (c : call_t) (w : world) :
  storage_destroyed w = false →
  calls w !! this = Some (Some q) →
  call_heap w !! q = Some (c, 1%positive) →
  Exists (λ p, ∃ f, marshal p = Some f ∧ f (memory w) = None) (params c) →
  (callSync bus this w).1 = false
  ∧ steps (trace (callSync bus this w).2) =
      steps (trace w) ++ (reset_of ∘ p_name <$> params c)
  ∧ counters (callSync bus this w).2 = counters w.
Proof.
  intros Hd Hc Hq Hex.
  pose proof (callSync_acquired bus this q c w Hd Hc Hq) as Hcs. cbv zeta in Hcs.
  pose proof (marshal_inputs_fails (params c) [] (held q w) Hex) as Hnone.
  pose proof (marshal_inputs_frame (params c) [] (held q w)) as (_ & _ & _ & M4).
  pose proof (marshal_inputs_counters (params c) [] (held q w)) as MC.
  assert (Hbody : callSync_body bus c (held q w)
                  = (false, (marshal_inputs (params c) [] (held q w)).2)).
  { unfold callSync_body, bind.
    destruct (marshal_inputs (params c) [] (held q w)) as [[ins|] w1];
      simpl in *; [done|reflexivity]. }
  rewrite Hbody in Hcs. simpl in Hcs. rewrite Hcs. simpl.
  destruct (marshal_inputs (params c) [] (held q w)) as [o w1]. simpl in *.
  split; [done|].
  destruct (run_cleanup_spec (params c) w1) as (_ & _ & C3).
  pose proof (run_cleanup_counters (params c) w1) as CC.
  split.
  - by rewrite C3, M4.
  - unfold counters in *. simpl in *. congruence.
Qed.

(** X19: a proxy that cannot be created is not retried. When the cache
    holds no valid proxy for the object of the call and the bus refuses to
    make one, a [callSync] that has acquired its call and marshalled its
    inputs returns false after that one request: it sends no call and
    does not sleep; the cleanup closures run. *)
Theorem callSync_without_proxy (this : N) (q : positive) (c : call_t) (e : GError)
    (w : world) :
  storage_destroyed w = false →
  calls w !! this = Some (Some q) →
  call_heap w !! q = Some (c, 1%positive) →
  inputs_marshal c (memory w) →
  default None (proxy <$> proxies w !! target_of (object c)) = None →
  proxy_new bus (n_new w) (object c) = Some e →
  (callSync bus this w).1 = false
  ∧ steps (trace (callSync bus this w).2) =
      steps (trace w) ++ (reset_of ∘ p_name <$> params c)
  ∧ counters (callSync bus this w).2 = (S (n_new w), n_call w).
Proof.
  intros Hd Hc Hq Hin Hcache Hnew.
  pose proof (callSync_acquired bus this q c w Hd Hc Hq) as Hcs. cbv zeta in Hcs.
  destruct (marshal_inputs_ok (params c) [] (held q w) Hin) as [ins Hins].
  pose proof (instanceFor_creates bus (object c) USE_EXISTING (held q w)
                (or_intror Hcache)) as (I1 & _ & I3 & I4).
  pose proof (instanceFor_frame bus (object c) USE_EXISTING (held q w))
    as (_ & _ & _ & F4 & _).
  simpl in I3. rewrite Hnew in I3.
  assert (Hbody : ∃ wb, callSync_body bus c (held q w) = (false, wb)
                        ∧ steps (trace wb) = steps (trace w)
                        ∧ counters wb = (S (n_new w), n_call w)).
  { unfold callSync_body. unfold bind at 1. rewrite Hins.
    unfold bind at 1. unfold MAX_ATTEMPTS. rewrite retry_loop_S. cbv zeta.
    rewrite bool_decide_eq_false_2 by apply not_retriable_None.
    rewrite bool_decide_eq_false_2 by (simpl; congruence).
    rewrite decide_True by done.
    unfold attempt_call. unfold bind at 1.
    destruct (instanceFor bus (object c) USE_EXISTING (held q w)) as [px w1].
    simpl in *. unfold proxy_verboseCheckNoErr. rewrite I3. mrun.
    eexists. split; [reflexivity|]. simpl.
    split.
    - rewrite steps_app. simpl. by rewrite app_nil_r.
    - unfold counters. simpl. congruence. }
  destruct Hbody as (wb & Hbody & T1 & C1).
  rewrite Hbody in Hcs. simpl in Hcs. rewrite Hcs. simpl.
  split; [done|].
  destruct (run_cleanup_spec (params c) wb) as (_ & _ & C3).
  pose proof (run_cleanup_counters (params c) wb) as CC.
  split.
  - by rewrite C3, T1.
  - unfold counters in *. simpl in *. congruence.
Qed.

End callsync_more.

Section callsync_more_examples.
Import Client.
#[local] Existing Instance Sample.glib.
#[local] Existing Instance Sample.dbus.

(** X15 for the sample call on a bus whose first call finds the service
    gone: one retry, then the reply (0, 2) is decoded. *)
Lemma callSync_succeeds_after_retries_witness :
  let decoded := decode (params Sample.the_call) (g_variant_children Scenario.reply)
                   (memory Sample.declared) in
  (callSync Scenario.bus_flaky 900 Sample.declared).1 = decoded.1
  ∧ steps (trace (callSync Scenario.bus_flaky 900 Sample.declared).2) =
      steps (trace Sample.declared) ++ plan 2 None
      ++ (if decoded.1 then [] else reset_of ∘ p_name <$> params Sample.the_call)
  ∧ (decoded.1 = true →
     memory (callSync Scenario.bus_flaky 900 Sample.declared).2 = decoded.2).
Proof.
  apply (callSync_succeeds_after_retries Scenario.bus_flaky 900 1%positive
           Sample.the_call Scenario.reply 1 Sample.declared).
  - reflexivity.
  - reflexivity.
  - reflexivity.
  - exact the_call_inputs_marshal.
  - intros j. reflexivity.
  - lia.
  - intros i Hi p m x. assert (i = O) as -> by lia.
    exists Sample.service_unknown.
    split; [reflexivity|exact service_unknown_retriable].
  - intros p m x. reflexivity.
Defined.

Example flaky_bus_trace :
  let r := callSync Scenario.bus_flaky 900 Sample.declared in
  r.1 = true
  ∧ steps (trace r.2) = [attempt; sleep 250; attempt]
  ∧ cells (memory r.2) !! 920%N = Some (n_int 2).
Proof. vm_compute. repeat split. Qed.

(** X16 for the sample call, which has two output parameters, and a
    reply of one field. *)
Lemma short_reply_fails_witness :
  (unmarshal_outputs (params Sample.the_call) [GInt32 5] Sample.declared).1 = false.
Proof.
  apply (short_reply_fails (params Sample.the_call) [GInt32 5] Sample.declared).
  vm_compute. lia.
Defined.

(** X17 for the sample call and the reply (0, 2) followed by a string. *)
Lemma extra_reply_fields_are_ignored_witness :
  unmarshal_outputs (params Sample.the_call)
    ([GInt32 0; GUInt32 2] ++ [GString "more"]) Sample.declared
  = unmarshal_outputs (params Sample.the_call) [GInt32 0; GUInt32 2] Sample.declared.
Proof.
  apply (extra_reply_fields_are_ignored (params Sample.the_call)
           [GInt32 0; GUInt32 2] [GString "more"] Sample.declared).
  reflexivity.
Defined.

Lemma route_call_input_fails :
  Exists (λ p, ∃ f, marshal p = Some f ∧ f (memory Scenario.route_declared) = None)
    (params Scenario.route_call).
Proof.
  let ps := eval vm_compute in (params Scenario.route_call) in
  replace (params Scenario.route_call) with ps by (by vm_compute).
  apply Exists_cons_hd. eexists. split; [reflexivity|]. by vm_compute.
Qed.

(** X18 for a call whose input of type object path holds "eth0". *)
Lemma callSync_input_failure_witness :
  (callSync Sample.bus_up 900 Scenario.route_declared).1 = false
  ∧ steps (trace (callSync Sample.bus_up 900 Scenario.route_declared).2) =
      steps (trace Scenario.route_declared)
      ++ (reset_of ∘ p_name <$> params Scenario.route_call)
  ∧ counters (callSync Sample.bus_up 900 Scenario.route_declared).2
    = counters Scenario.route_declared.
Proof.
  apply (callSync_input_failure Sample.bus_up 900 1%positive Scenario.route_call
           Scenario.route_declared).
  - reflexivity.
  - reflexivity.
  - reflexivity.
  - exact route_call_input_fails.
Defined.

(** X19 for the sample call on a bus that makes no proxy. *)
Lemma callSync_without_proxy_witness :
  (callSync Scenario.bus_no_proxy 900 Sample.declared).1 = false
  ∧ steps (trace (callSync Scenario.bus_no_proxy 900 Sample.declared).2) =
      steps (trace Sample.declared)
      ++ (reset_of ∘ p_name <$> params Sample.the_call)
  ∧ counters (callSync Scenario.bus_no_proxy 900 Sample.declared).2
    = (S (n_new Sample.declared), n_call Sample.declared).
Proof.
  apply (callSync_without_proxy Scenario.bus_no_proxy 900 1%positive
           Sample.the_call Sample.service_unknown Sample.declared).
  - reflexivity.
  - reflexivity.
  - reflexivity.
  - exact the_call_inputs_marshal.
  - reflexivity.
  - reflexivity.
Defined.

End callsync_more_examples.
(** ** Signals *)

Section signal_facts.
Import Client Signals.
Context {U : Type}.
Implicit Types (s : Signals.state U) (cb : Signals.callback_t U).

Lemma get_after_add sender sig cb s :
  (get (name sender) sig (add sender sig cb s)).1
    = (get (name sender) sig s).1 ++ [cb].
Proof. unfold get, add. simpl. by rewrite lookup_insert_eq. Qed.

Lemma user_add sender sig cb s : user (add sender sig cb s) = user s.
Proof. done. Qed.

Lemma get_after_adds sender sig (cbs : list (Signals.callback_t U)) : ∀ s,
  (get (name sender) sig (foldl (λ st cb, add sender sig cb st) s cbs)).1
    = (get (name sender) sig s).1 ++ cbs
  ∧ user (foldl (λ st cb, add sender sig cb st) s cbs) = user s.
Proof.
  induction cbs as [|cb cbs IH]; intros s; cbn [foldl].
  - by rewrite app_nil_r.
  - destruct (IH (add sender sig cb s)) as [-> ->].
    by rewrite get_after_add, <- app_assoc.
Qed.

(** X20: the callbacks registered for a sender and a signal are kept in
    the order of their registration, behind those that were there, and
    [onSignal] calls them in that order with the names of the sender and
    of the signal, passing over the empty ones. *)
Theorem callbacks_run_in_registration_order (sender : obj_desc_t) (sig : string)
    (cbs : list (Signals.callback_t U)) (s : Signals.state U) :
  let s' := foldl (λ st cb, add sender sig cb st) s cbs in
  (get (name sender) sig s').1 = (get (name sender) sig s).1 ++ cbs
  ∧ user (onSignal sig (name sender) s')
    = foldl (invoke (name sender) sig) (user s) ((get (name sender) sig s).1 ++ cbs).
Proof.
  intros s'. subst s'.
  destruct (get_after_adds sender sig cbs s) as [Hget Huser].
  split; [exact Hget|].
  unfold onSignal.
  destruct (get (name sender) sig (foldl _ s cbs)) as [l s1] eqn:E.
  simpl in *. subst l.
  assert (user s1 = user s) as ->; [|done].
  unfold get in E. injection E as _ <-. simpl. exact Huser.
Qed.

Lemma key_inj (a : string) : ∀ (b n1 n2 : string),
  has_space a = false → has_space b = false →
  key a n1 = key b n2 → a = b ∧ n1 = n2.
Proof.
  unfold key.
  induction a as [|c1 r1 IH]; intros [|c2 r2] n1 n2 H1 H2 Hk; simpl in H1, H2.
  - change (String (Ascii.ascii_of_nat 32) n1 = String (Ascii.ascii_of_nat 32) n2)
      in Hk.
    by injection Hk as ->.
  - change (String (Ascii.ascii_of_nat 32) n1 = String c2 (r2 +:+ " " +:+ n2)) in Hk.
    injection Hk as <- _. by rewrite bool_decide_eq_true_2 in H2.
  - change (String c1 (r1 +:+ " " +:+ n1) = String (Ascii.ascii_of_nat 32) n2) in Hk.
    injection Hk as -> _. by rewrite bool_decide_eq_true_2 in H1.
  - change (String c1 (r1 +:+ " " +:+ n1) = String c2 (r2 +:+ " " +:+ n2)) in Hk.
    injection Hk as -> Hk.
    apply orb_false_iff in H1 as [_ H1]. apply orb_false_iff in H2 as [_ H2].
    destruct (IH r2 n1 n2 H1 H2 Hk) as [-> ->]. done.
Qed.

(** X21: as long as the names of the senders hold no space, which is the
    case of every name D-Bus accepts, a registration for one sender and
    signal does not change what is called for another pair. *)
Theorem registrations_do_not_cross (sender : obj_desc_t) (sig : string)
    (cb : Signals.callback_t U) (sender_name' sig' : string) (s : Signals.state U) :
  has_space (name sender) = false →
  has_space sender_name' = false →
  (name sender, sig) ≠ (sender_name', sig') →
  (get sender_name' sig' (add sender sig cb s)).1 = (get sender_name' sig' s).1
  ∧ user (onSignal sig' sender_name' (add sender sig cb s))
    = user (onSignal sig' sender_name' s).
Proof.
  intros H1 H2 Hne.
  assert (Hk : key (name sender) sig ≠ key sender_name' sig').
  { intros Hk. destruct (key_inj _ _ _ _ H1 H2 Hk) as [E1 E2].
    apply Hne. by rewrite E1, E2. }
  assert (Hget : (get sender_name' sig' (add sender sig cb s)).1
                 = (get sender_name' sig' s).1).
  { unfold get, add. simpl. by rewrite lookup_insert_ne. }
  split; [exact Hget|].
  unfold onSignal.
  destruct (get sender_name' sig' (add sender sig cb s)) as [l1 s1] eqn:E1.
  destruct (get sender_name' sig' s) as [l2 s2] eqn:E2.
  simpl in *. subst l2.
  unfold get in E1, E2. injection E1 as _ <-. injection E2 as _ <-. done.
Qed.

Context `{GDBusExt} (bus : bus_t).

(** X22: [registerCallback] stores the callback before it looks for the
    proxy of the sender, so the callback is registered whatever the
    result; the result tells whether the sender has a valid proxy, which
    it has unless the bus refused to make one; no method call is sent and
    the call storage is left alone. *)
Theorem registerCallback_stores_first (sender_name sig : string)
    (cb : Signals.callback_t U) (s : Signals.state U) (w : world) :
  let r := registerCallback bus sender_name sig cb (s, w) in
  (get sender_name sig r.2.1).1 = (get sender_name sig s).1 ++ [cb]
  ∧ r.1 = bool_decide
            (proxy (instanceFor bus (fromName sender_name) USE_EXISTING w).1 ≠ None)
  ∧ (r.1 = true ∨ is_Some (proxy_new bus (n_new w) (fromName sender_name)))
  ∧ n_call r.2.2 = n_call w
  ∧ same_storage w r.2.2.
Proof.
  intros r. subst r. unfold registerCallback, registerCallback_desc. simpl.
  pose proof (instanceFor_frame bus (fromName sender_name) USE_EXISTING w)
    as (F1 & _ & F3 & _ & F5).
  destruct (instanceFor bus (fromName sender_name) USE_EXISTING w) as [px w1].
  simpl in *.
  pose proof (logAssert_frame "registerCallback" (bool_decide (proxy px ≠ None))
                (d_no_proxy (obj_name px)) w1) as (L1 & L2 & _ & L4 & _).
  unfold proxy_verboseCheckNoErr.
  destruct (logAssert "registerCallback" _ _ w1) as [r w2]. simpl in *. subst r.
  split; [apply (get_after_add (fromName sender_name))|].
  split; [done|]. split; [|split].
  - destruct (proxy px) as [p|]; [by left|right; by apply F5].
  - congruence.
  - by eapply same_storage_trans.
Qed.

End signal_facts.

Section signal_examples.
Import Client Signals.

(** X21 for the signal [Changed] of two services. *)
Lemma registrations_do_not_cross_witness :
  (get "com.lgi.b" "Changed"
     (add (fromName "com.lgi.a") "Changed" (Scenario.logger "1")
        Scenario.no_signals)).1
    = (get "com.lgi.b" "Changed" Scenario.no_signals).1
  ∧ user (onSignal "Changed" "com.lgi.b"
            (add (fromName "com.lgi.a") "Changed" (Scenario.logger "1")
               Scenario.no_signals))
    = user (onSignal "Changed" "com.lgi.b" Scenario.no_signals).
Proof.
  apply (registrations_do_not_cross (fromName "com.lgi.a") "Changed"
           (Scenario.logger "1") "com.lgi.b" "Changed" Scenario.no_signals).
  - reflexivity.
  - reflexivity.
  - discriminate.
Defined.

(** Two callbacks and an empty one between them, registered for one
    signal, are called in that order; a sender name with a space in it
    shares its key with another pair. *)
Example two_callbacks_in_order :
  user (onSignal "Changed" "com.lgi.a"
          (add (fromName "com.lgi.a") "Changed" (Scenario.logger "2")
             (add (fromName "com.lgi.a") "Changed" None
                (add (fromName "com.lgi.a") "Changed" (Scenario.logger "1")
                   Scenario.no_signals))))
  = ["1:com.lgi.a:Changed"; "2:com.lgi.a:Changed"].
Proof. by vm_compute. Qed.

Example key_with_space : key "a b" "c" = key "a" "b c".
Proof. by vm_compute. Qed.

End signal_examples.
(** ** The signal main loop: waiting *)

Section loop_more.
Import Loop.

Lemma mainLoopInstance_true s :
  (mainLoopInstance s).1 = true → (mainLoopInstance s).2 = loop_alive.
Proof. destruct s as [[] [] [[]|]]; simpl; done. Qed.

Lemma mainLoopInstance_alive : mainLoopInstance loop_alive = (true, loop_alive).
Proof. reflexivity. Qed.

Lemma mainLoopInstance_gone : mainLoopInstance loop_gone = (false, loop_gone).
Proof. reflexivity. Qed.

Lemma stop_alive : stopProcessingSignals loop_alive = loop_gone.
Proof. reflexivity. Qed.

(** One round of the loop of [waitAndProcessSignals] on a live loop. *)
Lemma wait_loop_alive_eq e wait_msec t_end fuel r k :
  wait_loop e wait_msec t_end fuel {| st := loop_alive; reads := r; iterations := k |}
  = let go := if decide (wait_msec = WAIT_FOREVER) then true
              else bool_decide (now e r < t_end)%N in
    let r' := if decide (wait_msec = WAIT_FOREVER) then r else S r in
    if negb go then Some {| st := loop_alive; reads := r'; iterations := k |}
    else match fuel with
         | O => None
         | S fuel' =>
             wait_loop e wait_msec t_end fuel'
               {| st := if stops e k then loop_gone else loop_alive;
                  reads := r'; iterations := S k |}
         end.
Proof.
  destruct fuel; simpl; destruct (decide (wait_msec = WAIT_FOREVER)); simpl;
    try (destruct (bool_decide _); simpl); try done;
    by destruct (stops e k).
Qed.

Lemma wait_loop_gone e wait_msec t_end fuel r k :
  wait_loop e wait_msec t_end fuel {| st := loop_gone; reads := r; iterations := k |}
  = Some {| st := loop_gone; reads := r; iterations := k |}.
Proof. by destruct fuel. Qed.

(** The loop with a deadline that is reached at the [j]-th reading of
    the clock, while no callback stops it. *)
Lemma wait_loop_deadline e wait_msec t_end :
  wait_msec ≠ WAIT_FOREVER →
  (∀ k, stops e k = false) →
  ∀ j fuel r k,
    (j ≤ fuel)%nat →
    (∀ i, (i < j)%nat → (now e (r + i) < t_end)%N) →
    (t_end ≤ now e (r + j))%N →
    wait_loop e wait_msec t_end fuel {| st := loop_alive; reads := r; iterations := k |}
    = Some {| st := loop_alive; reads := S (r + j); iterations := k + j |}.
Proof.
  intros Hw Hquiet. induction j as [|j IH]; intros fuel r k Hfuel Hbefore Hafter;
    rewrite wait_loop_alive_eq; cbv zeta; rewrite !decide_False by done.
  - rewrite Nat.add_0_r in Hafter.
    rewrite bool_decide_eq_false_2 by lia. simpl.
    by rewrite !Nat.add_0_r.
  - specialize (Hbefore O (Nat.lt_0_succ j)) as H0. rewrite Nat.add_0_r in H0.
    rewrite bool_decide_eq_true_2 by done. simpl.
    destruct fuel as [|fuel]; [lia|].
    rewrite Hquiet. rewrite (IH fuel (S r) (S k)).
    + do 2 f_equal; lia.
    + lia.
    + intros i Hi. replace (S r + i)%nat with (r + S i)%nat by lia.
      apply Hbefore. lia.
    + by replace (S r + j)%nat with (r + S j)%nat by lia.
Qed.

(** X23: a wait with a timeout on a live loop (or on the first use of the
    loop, which creates it) that no callback stops returns true: it reads
    the clock once for the deadline, runs one iteration of the context for
    each later reading that is before the deadline, and ends at the first
    reading that is not. *)
Theorem wait_runs_until_deadline (e : env) (wait_msec : N) (fuel j : nat)
    (σ : state) :
  wait_msec ≠ WAIT_FOREVER →
  (mainLoopInstance (st σ)).1 = true →
  (∀ k, stops e k = false) →
  (j ≤ fuel)%nat →
  (∀ i, (i < j)%nat → (now e (S (reads σ) + i) < now e (reads σ) + wait_msec)%N) →
  (now e (reads σ) + wait_msec ≤ now e (S (reads σ) + j))%N →
  waitAndProcessSignals e wait_msec fuel σ
  = Some (true, {| st := loop_alive; reads := S (S (reads σ) + j);
                   iterations := iterations σ + j |}).
Proof.
  intros Hw Halive Hquiet Hfuel Hbefore Hafter.
  unfold waitAndProcessSignals.
  pose proof (mainLoopInstance_true (st σ) Halive) as Hs.
  destruct (mainLoopInstance (st σ)) as [l s0]. simpl in *. subst s0.
  unfold tick. simpl.
  rewrite (wait_loop_deadline e wait_msec _ Hw Hquiet j fuel (S (reads σ))
             (iterations σ) Hfuel Hbefore Hafter).
  reflexivity.
Qed.

(** The loop when the callbacks of the [j]-th iteration from now stop
    it, the deadline, if there is one, not being reached before. *)
Lemma wait_loop_stopped e wait_msec t_end :
  ∀ j fuel r k,
    (j < fuel)%nat →
    (∀ i, (i < j)%nat → stops e (k + i) = false) →
    stops e (k + j) = true →
    (wait_msec = WAIT_FOREVER ∨ ∀ i, (i ≤ j)%nat → (now e (r + i) < t_end)%N) →
    ∃ r',
      wait_loop e wait_msec t_end fuel
        {| st := loop_alive; reads := r; iterations := k |}
      = Some {| st := loop_gone; reads := r'; iterations := S (k + j) |}.
Proof.
  induction j as [|j IH]; intros fuel r k Hfuel Hquiet Hstop Hclock;
    rewrite wait_loop_alive_eq; cbv zeta;
    (destruct fuel as [|fuel]; [lia|]).
  - rewrite Nat.add_0_r in Hstop.
    assert (Hgo : (if decide (wait_msec = WAIT_FOREVER) then true
                   else bool_decide (now e r < t_end)%N) = true).
    { case_decide as Hf; [done|]. destruct Hclock as [?|Hclock]; [done|].
      apply bool_decide_eq_true. specialize (Hclock O (Nat.le_refl _)).
      by rewrite Nat.add_0_r in Hclock. }
    rewrite Hgo. simpl. rewrite Hstop, wait_loop_gone.
    eexists. by rewrite Nat.add_0_r.
  - assert (Hgo : (if decide (wait_msec = WAIT_FOREVER) then true
                   else bool_decide (now e r < t_end)%N) = true).
    { case_decide as Hf; [done|]. destruct Hclock as [?|Hclock]; [done|].
      apply bool_decide_eq_true. specialize (Hclock O (Nat.le_0_l _)).
      by rewrite Nat.add_0_r in Hclock. }
    rewrite Hgo. simpl.
    specialize (Hquiet O (Nat.lt_0_succ j)) as H0. rewrite Nat.add_0_r in H0.
    rewrite H0.
    destruct (IH fuel (if decide (wait_msec = WAIT_FOREVER) then r else S r) (S k))
      as [r' Hr'].
    + lia.
    + intros i Hi. replace (S k + i)%nat with (k + S i)%nat by lia.
      apply Hquiet. lia.
    + by replace (S k + j)%nat with (k + S j)%nat by lia.
    + destruct Hclock as [?|Hclock]; [by left|right].
      intros i Hi. case_decide as Hf.
      * apply Hclock. lia.
      * replace (S r + i)%nat with (r + S i)%nat by lia. apply Hclock. lia.
    + exists r'. rewrite Hr'. do 2 f_equal. lia.
Qed.

(** X24: when a callback stops the loop during an iteration, the wait
    ends after that iteration and returns false, with the loop gone,
    whether it had a deadline (not reached by then) or was to wait
    forever. *)
Theorem wait_ends_when_stopped (e : env) (wait_msec : N) (fuel j : nat) (σ : state) :
  (mainLoopInstance (st σ)).1 = true →
  (j < fuel)%nat →
  (∀ i, (i < j)%nat → stops e (iterations σ + i) = false) →
  stops e (iterations σ + j) = true →
  (wait_msec = WAIT_FOREVER
   ∨ ∀ i, (i ≤ j)%nat →
       (now e (S (reads σ) + i) < now e (reads σ) + wait_msec)%N) →
  ∃ σ',
    waitAndProcessSignals e wait_msec fuel σ = Some (false, σ')
    ∧ st σ' = loop_gone
    ∧ iterations σ' = S (iterations σ + j).
Proof.
  intros Halive Hfuel Hquiet Hstop Hclock.
  unfold waitAndProcessSignals.
  pose proof (mainLoopInstance_true (st σ) Halive) as Hs.
  destruct (mainLoopInstance (st σ)) as [l s0]. simpl in *. subst s0.
  unfold tick. simpl.
  destruct (wait_loop_stopped e wait_msec (now e (reads σ) + wait_msec)%N j fuel
              (S (reads σ)) (iterations σ) Hfuel Hquiet Hstop Hclock) as [r' ->].
  simpl. eexists. repeat split.
Qed.

Lemma mainLoopInstance_false s :
  (mainLoopInstance s).1 = false →
  (mainLoopInstance (mainLoopInstance s).2).1 = false.
Proof. destruct s as [[] [] [[]|]]; simpl; done. Qed.

Lemma wait_loop_forever_eq e t_end fuel σ :
  wait_loop e WAIT_FOREVER t_end fuel σ =
    let r := mainLoopInstance (st σ) in
    if r.1 then
      match fuel with
      | O => None
      | S fuel' =>
          let r' := mainLoopInstance r.2 in
          let σ3 := {| st := r'.2; reads := reads σ; iterations := iterations σ |} in
          wait_loop e WAIT_FOREVER t_end fuel'
            (if r'.1 then g_main_context_iteration e σ3 else σ3)
      end
    else Some {| st := r.2; reads := reads σ; iterations := iterations σ |}.
Proof.
  destruct fuel; cbn [wait_loop]; cbv zeta;
    destruct (mainLoopInstance (st σ)) as [[] s1]; cbn [fst snd negb];
    rewrite ?decide_True by done; cbn [negb]; done.
Qed.

Lemma wait_loop_forever_exit e t_end fuel : ∀ σ σ',
  wait_loop e WAIT_FOREVER t_end fuel σ = Some σ' →
  (mainLoopInstance (st σ')).1 = false.
Proof.
  induction fuel as [|fuel IH]; intros σ σ' Hw;
    rewrite wait_loop_forever_eq in Hw; cbv zeta in Hw;
    pose proof (mainLoopInstance_false (st σ)) as Hf;
    destruct (mainLoopInstance (st σ)) as [[] s1]; cbn [fst snd] in Hw, Hf.
  - done.
  - injection Hw as <-. by apply Hf.
  - by apply IH in Hw.
  - injection Hw as <-. by apply Hf.
Qed.

(** X25: a wait with [WAIT_FOREVER] that returns has returned false: it
    leaves its loop only when the main loop is gone. *)
Theorem wait_forever_returns_false (e : env) (fuel : nat) (σ σ' : state) (r : bool) :
  waitAndProcessSignals e WAIT_FOREVER fuel σ = Some (r, σ') →
  r = false ∧ loop (st σ') = None.
Proof.
  unfold waitAndProcessSignals.
  destruct (mainLoopInstance (st σ)) as [l0 s0].
  match goal with |- context [wait_loop ?a ?b ?c ?d ?x] =>
    destruct (wait_loop a b c d x) as [σ1|] eqn:Hw end; simpl; [|done].
  apply wait_loop_forever_exit in Hw. revert Hw.
  destruct (st σ1) as [[] [] [[]|]]; simpl; try done;
    intros _ [= <- <-]; done.
Qed.

End loop_more.

Section loop_more_examples.
Import Loop.

(** X23 for a wait of 20 ms at the start of the process of the samples,
    whose clock advances 10 ms per reading: one iteration. *)
Lemma wait_runs_until_deadline_witness :
  waitAndProcessSignals Sample.quiet 20 10 Sample.process_start
  = Some (true, {| st := loop_alive; reads := S (S (reads Sample.process_start) + 1);
                   iterations := iterations Sample.process_start + 1 |}).
Proof.
  apply (wait_runs_until_deadline Sample.quiet 20 10 1 Sample.process_start).
  - discriminate.
  - reflexivity.
  - intros k. reflexivity.
  - lia.
  - intros i Hi. assert (i = O) as -> by lia. vm_compute. reflexivity.
  - vm_compute. discriminate.
Defined.

(** X24 for a wait without end in an application whose third iteration
    stops the loop. *)
Lemma wait_ends_when_stopped_witness :
  ∃ σ',
    waitAndProcessSignals Scenario.third_stops WAIT_FOREVER 5 Sample.process_start
      = Some (false, σ')
    ∧ st σ' = loop_gone
    ∧ iterations σ' = S (iterations Sample.process_start + 2).
Proof.
  apply (wait_ends_when_stopped Scenario.third_stops WAIT_FOREVER 5 2
           Sample.process_start).
  - reflexivity.
  - lia.
  - intros i Hi. simpl. apply bool_decide_eq_false. lia.
  - reflexivity.
  - by left.
Defined.

(** X25 for the same wait. *)
Lemma wait_forever_returns_false_witness :
  waitAndProcessSignals Scenario.third_stops WAIT_FOREVER 5 Sample.process_start
    = Some (false, {| st := loop_gone; reads := 1; iterations := 3 |})
  ∧ false = false
  ∧ loop (st {| st := loop_gone; reads := 1; iterations := 3 |}) = None.
Proof.
  split; [reflexivity|].
  apply (wait_forever_returns_false Scenario.third_stops 5 Sample.process_start
           {| st := loop_gone; reads := 1; iterations := 3 |} false).
  reflexivity.
Defined.

End loop_more_examples.
(** ** Marshallers: strings and integer types *)

Section converters_more.
Import converters.
Context `{GLibExt}.

Lemma c_str_idemp (s : string) : c_str (c_str s) = c_str s.
Proof.
  induction s as [|c r IH]; simpl; [done|].
  case_decide as Hc; [done|]. simpl. rewrite decide_False by done. by rewrite IH.
Qed.

(** X26: what a string becomes on its way to the wire and back. The
    marshallers of [TYPE_S], [TYPE_O] and [TYPE_V] send the text up to its
    first NUL character, if that text is valid (UTF-8 for a string or a
    variant, an object path for a path), and nothing otherwise; decoding
    what was sent gives that text for a string and for a path, whatever the
    variable held, and the printed form of the string for a variant. For a
    string and a path a second trip changes nothing more: the decoded text
    marshals to the very variant that was sent. For a variant it does: the
    decoded text is the printed form, and a second trip sends that (if it
    is valid) and decodes to the printed form of the printed form. *)
Theorem string_round_trips (s old : string) :
  match marshal TYPE_S s with
  | Some g => g_utf8_validate (c_str s) = true
              ∧ unmarshal TYPE_S g old = (true, c_str s)
              ∧ marshal TYPE_S (unmarshal TYPE_S g old).2 = Some g
  | None => g_utf8_validate (c_str s) = false
  end
  ∧ match marshal TYPE_O s with
    | Some g => g_variant_is_object_path (c_str s) = true
                ∧ unmarshal TYPE_O g old = (true, c_str s)
                ∧ marshal TYPE_O (unmarshal TYPE_O g old).2 = Some g
    | None => g_variant_is_object_path (c_str s) = false
    end
  ∧ match marshal TYPE_V s with
    | Some g =>
        let printed := g_variant_print (GString (c_str s)) in
        g_utf8_validate (c_str s) = true
        ∧ unmarshal TYPE_V g old = (true, printed)
        ∧ match marshal TYPE_V (unmarshal TYPE_V g old).2 with
          | Some g2 =>
              g_utf8_validate (c_str printed) = true
              ∧ unmarshal TYPE_V g2 old
                = (true, g_variant_print (GString (c_str printed)))
          | None => g_utf8_validate (c_str printed) = false
          end
    | None => g_utf8_validate (c_str s) = false
    end.
Proof.
  unfold marshal, marshal_S, marshal_O, marshal_V, g_variant_new_variant,
    g_variant_new_string.
  split; [|split].
  - destruct (g_utf8_validate (c_str s)) eqn:Hs; [|done].
    split; [done|]. split; [done|].
    cbn. by rewrite c_str_idemp, Hs.
  - destruct (g_variant_is_object_path (c_str s)) eqn:Hs; [|done].
    split; [done|]. split; [done|].
    cbn. by rewrite c_str_idemp, Hs.
  - destruct (g_utf8_validate (c_str s)) eqn:Hs; [|done].
    cbv zeta. split; [done|]. split; [done|]. cbn.
    by destruct (g_utf8_validate (c_str (g_variant_print (GString (c_str s))))).
Qed.

(** X27: the five integer types do not convert into one another. A
    value marshalled as one of them is decoded by the unmarshaller of the
    same type, to the same value, and refused by the four others, which
    leave the variable as it was. *)
Theorem integer_types_are_exact (a b : nat) (m : Z → option GVariant)
    (u : GVariant → Z → bool * Z) (i old : Z) (g : GVariant) :
  int_marshallers !! a = Some m →
  int_unmarshallers !! b = Some u →
  m i = Some g →
  u g old = if decide (a = b) then (true, i) else (false, old).
Proof.
  intros Ha Hb Hg.
  do 5 (destruct a as [|a]; [injection Ha as <-; injection Hg as <-;
    do 5 (destruct b as [|b]; [injection Hb as <-; reflexivity|]);
    by destruct b|]).
  by destruct a.
Qed.

End converters_more.

Section converters_more_examples.
Import converters.
#[local] Existing Instance Sample.glib.

(** X27 for a signed 32-bit value read as unsigned. *)
Lemma integer_types_are_exact_witness :
  unmarshal TYPE_U (GInt32 (-1)) 7 = (false, 7).
Proof.
  apply (integer_types_are_exact 0 1 (marshal TYPE_I) (unmarshal TYPE_U) (-1) 7
           (GInt32 (-1))); reflexivity.
Defined.

(** A text with a NUL in it is sent cut. *)
Example string_cut_at_NUL :
  marshal TYPE_S ("a" +:+ String Ascii.zero "b") = Some (GString "a").
Proof. by vm_compute. Qed.

(** The second trip of a variant is not the first: the printed form is
    printed again. *)
Example variant_trips_differ :
  (unmarshal TYPE_V (default (GOther "") (marshal TYPE_V "a")) "").2 = "'a'"
  ∧ (unmarshal TYPE_V (default (GOther "") (marshal TYPE_V "'a'")) "").2 ≠ "'a'".
Proof. by vm_compute. Qed.

End converters_more_examples.
(** ** The life of a tuple *)

Section lifecycle_facts.
Import Shadow Inv Tuple Fields.

Lemma unref_ref_comm (p q : positive) (os : gmap positive (GVariant * positive)) :
  (p ≠ q ∨ ∃ x n, os !! p = Some (x, n) ∧ n ≠ 1%positive) →
  rc.unref p (rc.ref q os) = rc.ref q (rc.unref p os).
Proof.
  intros Hpq. destruct (decide (p = q)) as [->|Hne].
  - destruct Hpq as [?|(x & n & Hq & Hn)]; [done|].
    rewrite ref_unref. unfold rc.unref, rc.ref. rewrite Hq.
    rewrite decide_False by done.
    apply map_eq. intros i. destruct (decide (i = q)) as [->|Hi].
    + rewrite lookup_alter_eq, lookup_insert_eq, Hq. simpl.
      by rewrite Pos.succ_pred.
    + by rewrite lookup_alter_ne, lookup_insert_ne.
  - unfold rc.unref, rc.ref. rewrite lookup_alter_ne by done.
    destruct (os !! p) as [[x n]|] eqn:Hp; [|done].
    case_decide as Hn; apply map_eq; intros i.
    + destruct (decide (i = p)) as [->|Hi].
      * by rewrite lookup_delete_eq, lookup_alter_ne, lookup_delete_eq.
      * rewrite lookup_delete_ne by done.
        destruct (decide (i = q)) as [->|Hi'].
        -- by rewrite !lookup_alter_eq, lookup_delete_ne.
        -- by rewrite !lookup_alter_ne, lookup_delete_ne.
    + destruct (decide (i = p)) as [->|Hi].
      * by rewrite lookup_insert_eq, lookup_alter_ne, lookup_insert_eq.
      * rewrite lookup_insert_ne by done.
        destruct (decide (i = q)) as [->|Hi'].
        -- by rewrite !lookup_alter_eq, lookup_insert_ne.
        -- by rewrite !lookup_alter_ne, lookup_insert_ne.
Qed.

(** The destruction of a handle and a copy made elsewhere can be
    exchanged. *)
Lemma dtor_ctor_copy_comm a d s σ :
  a ≠ d → a ≠ s →
  variants σ !! d = None →
  consistent σ →
  GDBusVariant.dtor a (GDBusVariant.ctor_copy d s σ)
    = GDBusVariant.ctor_copy d s (GDBusVariant.dtor a σ).
Proof.
  intros Had Has Hd Hc.
  assert (Hcount : ∀ p, variants σ !! a = Some (mk_variant (Some p)) →
                        variants σ !! s = Some (mk_variant (Some p)) →
                        ∃ x n, objects σ !! p = Some (x, n) ∧ n ≠ 1%positive).
  { intros p Ha Hs. pose proof (refs_two _ a s p Has Ha Hs) as H2.
    pose proof (Hc p) as Hcp. unfold count in Hcp.
    destruct (objects σ !! p) as [[x n]|]; [|lia].
    exists x, n. split; [done|lia]. }
  destruct σ as [os vs]. simpl in *.
  unfold GDBusVariant.dtor, GDBusVariant.ctor_copy, at_, variant_copy, insert,
    erase, variant_destroy, with_objects, with_variants.
  simpl.
  destruct (vs !! s) as [[[q|]]|] eqn:Hs; simpl; rewrite Hd; simpl;
    rewrite lookup_insert_ne by done;
    destruct (vs !! a) as [[[p|]]|] eqn:Ha; simpl;
    rewrite ?lookup_delete_ne by done; rewrite ?Hs, ?Hd; simpl;
    rewrite ?lookup_delete_ne by done; rewrite ?Hd; simpl;
    rewrite ?delete_insert_ne by done; try done.
  f_equal. apply unref_ref_comm.
  destruct (decide (p = q)) as [->|Hpq]; [right|by left].
  by apply Hcount.
Qed.

(** Copies made at fresh addresses and destroyed again leave the store
    as it was. *)
Lemma copy_destroy_roundtrip dst : ∀ src σ,
  length dst = length src →
  NoDup dst →
  (∀ d, d ∈ dst → variants σ !! d = None) →
  (∀ d, d ∈ dst → d ∉ src) →
  consistent σ →
  destroy_elements dst (copy_elements dst src σ) = σ.
Proof.
  induction dst as [|d dst IH]; intros [|s src] σ Hlen Hnd Hfresh Hsep Hc;
    simplify_eq/=; [done|].
  inversion Hnd as [|?? Hd Hnd']; subst.
  assert (Hd0 : variants σ !! d = None) by (apply Hfresh; left).
  destruct (ctor_copy_step σ d s Hd0 Hc) as (Hc1 & Hv1 & _).
  change (copy_elements (d :: dst) (s :: src) σ)
    with (copy_elements dst src (GDBusVariant.ctor_copy d s σ)).
  change (destroy_elements (d :: dst) ?x)
    with (destroy_elements dst (GDBusVariant.dtor d x)).
  (* the destruction of [d] is moved in front of the other copies *)
  assert (Hmove : ∀ ds ss σ0,
    length ds = length ss → NoDup ds → d ∉ ds → d ∉ ss →
    (∀ d', d' ∈ ds → variants σ0 !! d' = None) →
    (∀ d', d' ∈ ds → d' ∉ ss) →
    consistent σ0 →
    GDBusVariant.dtor d (copy_elements ds ss σ0)
      = copy_elements ds ss (GDBusVariant.dtor d σ0)).
  { induction ds as [|d1 ds IHds]; intros [|s1 ss] σ0 Hl Hn Hdd Hds Hf Hsp Hc0;
      simplify_eq/=; [done|].
    inversion Hn as [|?? Hd1 Hn']; subst.
    apply not_elem_of_cons in Hdd as [Hdd1 Hdd].
    apply not_elem_of_cons in Hds as [Hds1 Hds].
    assert (Hf1 : variants σ0 !! d1 = None) by (apply Hf; left).
    destruct (ctor_copy_step σ0 d1 s1 Hf1 Hc0) as (Hc01 & Hv01 & _).
    change (copy_elements (d1 :: ds) (s1 :: ss) ?x)
      with (copy_elements ds ss (GDBusVariant.ctor_copy d1 s1 x)).
    rewrite IHds; try done.
    - by rewrite dtor_ctor_copy_comm.
    - intros d' Hd'. rewrite Hv01, lookup_insert_ne by (intros ->; done).
      apply Hf. by right.
    - intros d' Hd' Hin. apply (Hsp d'); [by right|by right]. }
  rewrite Hmove; try done.
  - rewrite ctor_copy_then_dtor by done. apply IH; try done.
    + intros d' Hd'. apply Hfresh. by right.
    + intros d' Hd' Hin. apply (Hsep d'); [by right|by right].
  - intros Hin. apply (Hsep d); [by left|by right].
  - intros d' Hd'. rewrite Hv1, lookup_insert_ne by (intros ->; done).
    apply Hfresh. by right.
  - intros d' Hd' Hin. apply (Hsep d'); [by right|by right].
Qed.

Lemma field_ctor_fold this : ∀ ms τ0,
  curTuple τ0 = this →
  let t0 := default tuple_default (tuples τ0 !! this) in
  let τ1 := foldl (λ s m, GDBusTuple.field_ctor m.1 m.2 s) τ0 ms in
  curTuple τ1 = this ∧ shadow τ1 = shadow τ0 ∧ brk τ1 = brk τ0
  ∧ default tuple_default (tuples τ1 !! this) =
      {| vars := vars t0; getters := getters t0 ++ ms.*1;
         handles := handles t0 ++ ms.*2 |}
  ∧ (∀ p, p ≠ this → tuples τ1 !! p = tuples τ0 !! p)
  ∧ (∀ k, k ∉ ms.*2 → fields τ1 !! k = fields τ0 !! k)
  ∧ (NoDup ms.*2 → ∀ g fh, (g, fh) ∈ ms →
       fields τ1 !! fh = Some (mk_field_ptr this g)).
Proof.
  induction ms as [|[g fh] ms IH]; intros τ0 Hcur; simpl.
  - rewrite !app_nil_r. repeat split; try done.
    + by destruct (default _ _).
    + intros _ g fh Hin. by apply elem_of_nil in Hin.
  - set (τ' := GDBusTuple.field_ctor g fh τ0).
    assert (Hτ' : curTuple τ' = this ∧ shadow τ' = shadow τ0 ∧ brk τ' = brk τ0
              ∧ tuples τ' =
                  <[this := (newField fh g
                               (default tuple_default (tuples τ0 !! this))).2]>
                    (tuples τ0)
              ∧ fields τ' = <[fh := mk_field_ptr this g]> (fields τ0)).
    { unfold τ'. destruct g; simpl;
        unfold GDBusTuple.pint, GDBusTuple.pdouble, GDBusTuple.pbool,
          GDBusTuple.pstring, addField; simpl; by rewrite Hcur. }
    destruct Hτ' as (Hc' & Hs' & Hb' & Ht' & Hf').
    destruct (IH τ' Hc') as (H1 & H2 & H3 & H4 & H5 & H6 & H7).
    split; [done|]. split; [congruence|]. split; [congruence|].
    split; [|split; [|split]].
    + rewrite H4, Ht', lookup_insert_eq. simpl. by rewrite <- !app_assoc.
    + intros p Hp. rewrite H5, Ht', lookup_insert_ne by done. done.
    + intros k Hk. apply not_elem_of_cons in Hk as [Hk1 Hk].
      rewrite H6, Hf', lookup_insert_ne by done. done.
    + intros Hnd g' fh' Hin. inversion Hnd as [|?? Hfh Hnd']; subst.
      apply elem_of_cons in Hin as [[= -> ->]|Hin].
      * rewrite H6 by done. by rewrite Hf', lookup_insert_eq.
      * by apply H7.
Qed.

Lemma derived_ctor_spec this members τ :
  let τ1 := GDBusTuple.derived_ctor this members τ in
  curTuple τ1 = this ∧ shadow τ1 = shadow τ ∧ brk τ1 = brk τ
  ∧ default tuple_default (tuples τ1 !! this) =
      {| vars := []; getters := members.*1; handles := members.*2 |}
  ∧ (∀ p, p ≠ this → tuples τ1 !! p = tuples τ !! p)
  ∧ (∀ k, k ∉ members.*2 → fields τ1 !! k = fields τ !! k)
  ∧ (NoDup members.*2 → ∀ g fh, (g, fh) ∈ members →
       fields τ1 !! fh = Some (mk_field_ptr this g)).
Proof.
  intros τ1. subst τ1. unfold GDBusTuple.derived_ctor.
  destruct (field_ctor_fold this members (GDBusTuple.ctor this τ) eq_refl)
    as (H1 & H2 & H3 & H4 & H5 & H6 & H7).
  simpl in H4. rewrite lookup_delete_eq in H4. simpl in H4.
  split; [done|]. split; [done|]. split; [done|]. split; [done|].
  split; [|split; [done|done]].
  intros p Hp. rewrite H5 by done. simpl. by rewrite lookup_delete_ne.
Qed.

Lemma field_dtor_fold (l : list N) : ∀ τ,
  foldl (λ s m, field_dtor m s) τ l
    = with_fields (λ f, foldl (λ f m, delete m f) f l) τ.
Proof.
  induction l as [|m l IH]; intros τ; simpl; [by destruct τ|].
  by rewrite IH.
Qed.

Lemma lookup_foldl_delete (l : list N) : ∀ (f : gmap N field_ptr) k,
  foldl (λ f m, delete m f) f l !! k = if decide (k ∈ l) then None else f !! k.
Proof.
  induction l as [|m l IH]; intros f k; cbn [foldl].
  - rewrite decide_False; [done|]. apply not_elem_of_nil.
  - rewrite IH. destruct (decide (k ∈ l)) as [Hin|Hin].
    + rewrite decide_True; [done|by right].
    + destruct (decide (k = m)) as [->|Hne].
      * rewrite lookup_delete_eq, decide_True; [done|by left].
      * rewrite lookup_delete_ne by done. rewrite decide_False; [done|].
        intros [?|?]%elem_of_cons; done.
Qed.

Context `{GLibExt}.

(** X28: a tuple that is declared, assigned a row and destroyed leaves
    nothing behind. On a state whose side table is consistent and within
    the allocated addresses, with no tuple at the address and no field at
    the addresses of the members, the constructor of a class derived from
    [GDBusTuple], an assignment of variants to it and the destructor of
    the class give back the side table with its reference counts, the
    fields and the tuples exactly as they were, and no tuple is under
    construction. *)
Theorem tuple_life_cycle_restores (this : N) (members : list (getter_t * N))
    (variants : list N) (τ : Tuple.state) :
  tuples τ !! this = None →
  (∀ m, m ∈ members.*2 → fields τ !! m = None) →
  consistent (shadow τ) →
  allocated τ →
  Forall (λ a, (a < brk τ)%N) variants →
  let τ1 := GDBusTuple.derived_ctor this members τ in
  let τ2 := (GDBusTuple.assign this variants τ1).2 in
  let τ3 := derived_dtor this members.*2 τ2 in
  shadow τ3 = shadow τ ∧ fields τ3 = fields τ ∧ tuples τ3 = tuples τ
  ∧ curTuple τ3 = 0%N.
Proof.
  intros Hthis Hmembers Hc Hdom Hsrc τ1 τ2 τ3.
  destruct (derived_ctor_spec this members τ) as (C1 & C2 & C3 & C4 & C5 & C6 & _).
  fold τ1 in C1, C2, C3, C4, C5, C6.
  assert (E2 : τ2 = with_tuples
                      (<[this := {| vars := new_buffer (brk τ) (length variants);
                                    getters := members.*1;
                                    handles := members.*2 |}]>)
                      {| shadow := copy_elements
                                     (new_buffer (brk τ) (length variants))
                                     variants (shadow τ);
                         fields := fields τ1; tuples := tuples τ1;
                         curTuple := curTuple τ1;
                         brk := (brk τ + N.of_nat (length variants))%N |}).
  { unfold τ2. rewrite assign_state. cbv zeta. rewrite C4. simpl.
    unfold vector_assign. simpl. by rewrite C2, C3. }
  unfold τ3, derived_dtor. rewrite field_dtor_fold. rewrite E2.
  unfold dtor, erase_tuple. simpl. rewrite lookup_insert_eq. simpl.
  split; [|split; [|split; [|done]]].
  - apply copy_destroy_roundtrip.
    + apply new_buffer_length.
    + apply new_buffer_NoDup.
    + intros d Hd%new_buffer_ge.
      destruct (Shadow.variants (shadow τ) !! d) eqn:E; [|done].
      assert (d < brk τ)%N by (apply Hdom; eauto). lia.
    + intros d Hd%new_buffer_ge Hin.
      rewrite Forall_forall in Hsrc. specialize (Hsrc d Hin). lia.
    + done.
  - apply map_eq. intros k. rewrite lookup_foldl_delete.
    case_decide as Hk.
    + symmetry. apply Hmembers. by apply elem_of_reverse.
    + apply C6. by rewrite elem_of_reverse in Hk.
  - apply map_eq. intros p. destruct (decide (p = this)) as [->|Hp].
    + by rewrite lookup_delete_eq.
    + rewrite lookup_delete_ne, lookup_insert_ne by done. by apply C5.
Qed.

End lifecycle_facts.

Section lifecycle_examples.
Import Shadow Inv Tuple Fields.

(** X28 for the tuple [SITuple] and the row ("eth0", 7). *)
Lemma tuple_life_cycle_restores_witness :
  let τ1 := GDBusTuple.derived_ctor 100 Scenario.si_members Scenario.row_state in
  let τ2 := (GDBusTuple.assign (H:=Sample.glib) 100 [10; 11]%N τ1).2 in
  let τ3 := derived_dtor 100 Scenario.si_members.*2 τ2 in
  shadow τ3 = shadow Scenario.row_state ∧ fields τ3 = fields Scenario.row_state
  ∧ tuples τ3 = tuples Scenario.row_state ∧ curTuple τ3 = 0%N.
Proof.
  apply (tuple_life_cycle_restores (H:=Sample.glib) 100 Scenario.si_members
           [10; 11]%N Scenario.row_state).
  - reflexivity.
  - intros m Hm. reflexivity.
  - exact row_store_consistent.
  - exact row_store_bound.
  - repeat constructor.
Defined.

End lifecycle_examples.
(** ** Arrays of tuples *)

Section atup_facts.
Import Shadow Inv Tuple Atup.

Lemma unheld_refs σ p : unheld σ p → refs (variants σ) p = O.
Proof.
  intros Hu. unfold refs. rewrite map_empty_filter_2; [apply map_size_empty|].
  intros a v Ha. simpl. by apply (Hu a).
Qed.

Lemma unheld_deref σ p x a :
  unheld σ p →
  resolve (with_objects (<[p := x]>) σ) a = resolve σ a.
Proof.
  intros Hu. rewrite !resolve_unfold. simpl.
  destruct (variants σ !! a) as [[[q|]]|] eqn:Ha; try done.
  unfold rc.deref. rewrite lookup_insert_ne; [done|].
  intros ->. by apply (Hu a _ Ha).
Qed.

(** A new GLib object: [g_variant_iter_next_value] hands out the only
    reference to it. *)
Lemma new_object σ f :
  consistent σ →
  let p := fresh (dom (objects σ)) in
  let σ' := with_objects (λ _, (rc.new f (objects σ)).2) σ in
  (rc.new f (objects σ)).1 = p
  ∧ consistent σ'
  ∧ variants σ' = variants σ
  ∧ (∀ a, resolve σ' a = resolve σ a)
  ∧ unheld σ' p
  ∧ objects σ' !! p = Some (f, 1%positive).
Proof.
  intros Hc p σ'.
  assert (Hp : objects σ !! p = None) by apply not_elem_of_dom, is_fresh.
  assert (Hu : unheld σ p).
  { intros a [[q|]] Ha Hq; simplify_eq/=.
    pose proof (refs_pos _ a p Ha). pose proof (Hc p) as Hcp.
    unfold count in Hcp. rewrite Hp in Hcp. lia. }
  split; [done|]. split; [|split; [done|split; [|split]]].
  - intros q. simpl. unfold rc.new. simpl. unfold count.
    destruct (decide (q = p)) as [->|Hq].
    + rewrite lookup_insert_eq. rewrite (unheld_refs σ p Hu). lia.
    + rewrite lookup_insert_ne by done. apply Hc.
  - intros a. apply (unheld_deref σ p (f, 1%positive) a Hu).
  - exact Hu.
  - simpl. unfold rc.new. simpl. by rewrite lookup_insert_eq.
Qed.

Lemma lookup_ref_ne (p q : positive) (os : gmap positive (GVariant * positive)) :
  p ≠ q → rc.ref q os !! p = os !! p.
Proof. intros Hne. unfold rc.ref. by rewrite lookup_alter_ne. Qed.

Lemma lookup_unref_ne (p q : positive) (os : gmap positive (GVariant * positive)) :
  p ≠ q → rc.unref q os !! p = os !! p.
Proof.
  intros Hne. unfold rc.unref. destruct (os !! q) as [[x n]|]; [|done].
  case_decide; by rewrite ?lookup_delete_ne, ?lookup_insert_ne.
Qed.

Lemma ctor_copy_unheld d s σ p :
  variants σ !! d = None →
  unheld σ p →
  unheld (GDBusVariant.ctor_copy d s σ) p
  ∧ objects (GDBusVariant.ctor_copy d s σ) !! p = objects σ !! p.
Proof.
  intros Hd Hu. unfold GDBusVariant.ctor_copy, at_, variant_copy, insert.
  destruct (variants σ !! s) as [[[q|]]|] eqn:Hs; simpl; rewrite Hd; simpl.
  - split.
    + intros a v Ha. simpl in Ha. apply lookup_insert_Some in Ha as [[_ <-]|[_ Ha]].
      * by apply (Hu s _ Hs).
      * by apply (Hu a).
    + simpl. apply lookup_ref_ne. intros ->. by apply (Hu s _ Hs).
  - split; [|done].
    intros a v Ha. simpl in Ha. apply lookup_insert_Some in Ha as [[_ <-]|[_ Ha]]; [done|].
    by apply (Hu a).
  - split; [|done].
    intros a v Ha. simpl in Ha. apply lookup_insert_Some in Ha as [[_ <-]|[_ Ha]]; [done|].
    by apply (Hu a).
Qed.

Lemma dtor_unheld a σ p :
  unheld σ p →
  unheld (GDBusVariant.dtor a σ) p
  ∧ objects (GDBusVariant.dtor a σ) !! p = objects σ !! p.
Proof.
  intros Hu. unfold GDBusVariant.dtor, erase, variant_destroy.
  destruct (variants σ !! a) as [[[q|]]|] eqn:Ha; simpl.
  - split.
    + intros b v Hb. simpl in Hb. apply lookup_delete_Some in Hb as [_ Hb]. by apply (Hu b).
    + simpl. apply lookup_unref_ne. intros ->. by apply (Hu a _ Ha).
  - split; [|done].
    intros b v Hb. simpl in Hb. apply lookup_delete_Some in Hb as [_ Hb]. by apply (Hu b).
  - done.
Qed.

Lemma copy_elements_unheld dst p : ∀ src σ,
  NoDup dst →
  (∀ d, d ∈ dst → variants σ !! d = None) →
  consistent σ →
  unheld σ p →
  unheld (copy_elements dst src σ) p
  ∧ objects (copy_elements dst src σ) !! p = objects σ !! p.
Proof.
  induction dst as [|d dst IH]; intros [|s src] σ Hnd Hfresh Hc Hu; try done.
  inversion Hnd as [|?? Hd Hnd']; subst.
  assert (Hd0 : variants σ !! d = None) by (apply Hfresh; left).
  destruct (ctor_copy_step σ d s Hd0 Hc) as (Hc1 & Hv1 & _).
  destruct (ctor_copy_unheld d s σ p Hd0 Hu) as [Hu1 Ho1].
  change (copy_elements (d :: dst) (s :: src) σ)
    with (copy_elements dst src (GDBusVariant.ctor_copy d s σ)).
  destruct (IH src (GDBusVariant.ctor_copy d s σ)) as [Hu2 Ho2]; try done.
  - intros d' Hd'. rewrite Hv1, lookup_insert_ne by (intros ->; done).
    apply Hfresh. by right.
  - split; [done|congruence].
Qed.

Lemma destroy_elements_unheld old p : ∀ σ,
  unheld σ p →
  unheld (destroy_elements old σ) p
  ∧ objects (destroy_elements old σ) !! p = objects σ !! p.
Proof.
  induction old as [|o old IH]; intros σ Hu; [done|].
  destruct (dtor_unheld o σ p Hu) as [Hu1 Ho1].
  destruct (IH (GDBusVariant.dtor o σ) Hu1) as [Hu2 Ho2].
  unfold destroy_elements in *. simpl. split; [done|congruence].
Qed.

Lemma new_buffer_S b n :
  new_buffer b (S n) = new_buffer b n ++ [(b + N.of_nat n)%N].
Proof. unfold new_buffer. by rewrite seq_S, fmap_app. Qed.

Lemma new_buffer_lt b n d : d ∈ new_buffer b n → (d < b + N.of_nat n)%N.
Proof.
  intros [i Hi]%list_elem_of_lookup_1.
  apply new_buffer_lookup in Hi as [-> Hi]. lia.
Qed.

(** The entry of a new element takes over the reference to [p]. *)
Lemma insert_new σ a p f :
  variants σ !! a = None →
  consistent σ →
  unheld σ p →
  objects σ !! p = Some (f, 1%positive) →
  let σ' := Shadow.insert a (mk_variant (Some p)) σ in
  consistent σ'
  ∧ variants σ' = <[a := mk_variant (Some p)]> (variants σ)
  ∧ resolve σ' a = Some f
  ∧ (∀ b, b ≠ a → resolve σ' b = resolve σ b).
Proof.
  intros Ha Hc Hu Hp σ'. subst σ'. unfold Shadow.insert. rewrite Ha.
  split; [|split; [done|split]].
  - intros q. simpl. rewrite (refs_insert_fresh _ a _ q Ha). simpl.
    case_decide as Hq; [|apply Hc].
    injection Hq as <-. rewrite (unheld_refs σ p Hu). unfold count. rewrite Hp. lia.
  - rewrite resolve_unfold. simpl. rewrite lookup_insert_eq.
    unfold rc.deref. by rewrite Hp.
  - intros b Hb. rewrite !resolve_unfold. simpl. by rewrite lookup_insert_ne.
Qed.

Lemma release_spec (rows : list (list N)) : ∀ σ,
  consistent σ →
  consistent (release (n_tuple_arr rows) σ)
  ∧ ∀ a, is_Some (variants (release (n_tuple_arr rows) σ) !! a) →
         is_Some (variants σ !! a).
Proof.
  simpl. induction rows as [|row rows IH]; intros σ Hc; simpl; [done|].
  destruct (destroy_elements_spec row σ Hc) as [Hc1 _].
  destruct (IH (destroy_elements row σ) Hc1) as [Hc2 Hd2].
  split; [done|]. intros a Ha. apply Hd2 in Ha.
  rewrite (destroy_elements_dom row σ a Hc) in Ha.
  case_decide; [by destruct Ha|done].
Qed.

Section growth.
Variable grow : nat → nat.
Hypothesis grow_more : ∀ n, (n < grow n)%nat.

(** [emplace_back] on a vector that is being filled, while the caller
    holds the only reference to the object [p]. *)
Lemma emplace_back_spec b0 v τ vals p f :
  consistent (shadow τ) →
  allocated τ →
  vec_ok b0 v τ →
  (b0 ≤ brk τ)%N →
  row_holds (shadow τ) (elements v) vals →
  unheld (shadow τ) p →
  objects (shadow τ) !! p = Some (f, 1%positive) →
  let r := emplace_back grow v τ in
  size r.1 = S (size v)
  ∧ consistent (shadow r.2) ∧ allocated r.2 ∧ (brk τ ≤ brk r.2)%N
  ∧ (size r.1 ≤ capacity r.1)%nat
  ∧ (base r.1 + N.of_nat (capacity r.1) ≤ brk r.2)%N
  ∧ (b0 ≤ base r.1)%N
  ∧ (∀ i, (size v ≤ i < capacity r.1)%nat →
       variants (shadow r.2) !! (base r.1 + N.of_nat i)%N = None)
  ∧ row_holds (shadow r.2) (new_buffer (base r.1) (size v)) vals
  ∧ (∀ a, (a < b0)%N → resolve (shadow r.2) a = resolve (shadow τ) a)
  ∧ unheld (shadow r.2) p
  ∧ objects (shadow r.2) !! p = Some (f, 1%positive).
Proof using grow_more.
  intros Hc Hdom (Hsz & Hcap & Hb0 & Hslots) Hb Hrow Hu Hp r. subst r.
  unfold emplace_back. case_decide as Hfull; simpl.
  - (* there is room *)
    split; [done|]. split; [done|]. split; [done|]. split; [lia|].
    split; [lia|]. split; [done|]. split; [destruct Hb0; [lia|done]|].
    split; [intros i Hi; apply Hslots; lia|]. done.
  - (* the vector is full *)
    assert (Hn : capacity v = size v) by lia.
    set (n := size v) in *.
    set (old := elements v). set (new := new_buffer (brk τ) n).
    assert (Hold : ∀ a, a ∈ old → (a < brk τ)%N ∧ (b0 ≤ a)%N).
    { intros a Ha. pose proof (new_buffer_lt _ _ _ Ha) as Hlt.
      pose proof (new_buffer_ge _ _ _ Ha) as Hge. fold n in Hlt.
      split; [lia|]. destruct Hb0 as [Hz|Hz]; [|lia].
      apply list_elem_of_lookup_1 in Ha as [i Hi].
      apply new_buffer_lookup in Hi as [_ Hi]. fold n in Hi. lia. }
    assert (Hfresh : ∀ d, d ∈ new → variants (shadow τ) !! d = None).
    { intros d Hd%new_buffer_ge.
      destruct (variants (shadow τ) !! d) eqn:E; [|done].
      assert (d < brk τ)%N by (apply Hdom; eauto). lia. }
    assert (Hsep : ∀ d, d ∈ new → d ∉ old).
    { intros d Hd%new_buffer_ge Hin. apply Hold in Hin. lia. }
    assert (Hlen : length new = length old).
    { unfold new, old, elements. by rewrite !new_buffer_length. }
    destruct (copy_elements_spec new old (shadow τ) Hlen (new_buffer_NoDup _ _)
                Hfresh Hsep Hc) as (Hc1 & Hr1 & Hi1).
    pose proof (copy_elements_dom new old (shadow τ) Hlen (new_buffer_NoDup _ _)
                  Hfresh Hc) as Hd1.
    destruct (copy_elements_unheld new p old (shadow τ) (new_buffer_NoDup _ _)
                Hfresh Hc Hu) as [Hu1 Ho1].
    set (σ1 := copy_elements new old (shadow τ)) in *.
    destruct (destroy_elements_spec old σ1 Hc1) as (Hc2 & Hr2).
    destruct (destroy_elements_unheld old p σ1 Hu1) as [Hu2 Ho2].
    pose proof (grow_more n) as Hg.
    split; [done|]. split; [done|]. split; [|split; [lia|split; [lia|]]].
    { intros a. simpl. rewrite (destroy_elements_dom old σ1 a Hc1).
      case_decide as Ho; [by intros [? ?]|].
      intros [Hin|Hin]%Hd1.
      - apply new_buffer_lt in Hin. lia.
      - specialize (Hdom a Hin). lia. }
    split; [lia|]. split; [done|]. split; [|split; [|split; [|split]]].
    + intros i Hi. rewrite (destroy_elements_dom old σ1 _ Hc1).
      case_decide as Ho; [done|].
      apply eq_None_not_Some. intros [Hin|Hin]%Hd1.
      * apply new_buffer_lt in Hin. lia.
      * specialize (Hdom _ Hin). lia.
    + apply Forall2_same_length_lookup. split.
      * rewrite Hlen. by apply Forall2_length in Hrow.
      * intros i d x Hd Hx.
        assert (is_Some (old !! i)) as [s Hs].
        { apply lookup_lt_is_Some. rewrite <- Hlen. by eapply lookup_lt_Some. }
        rewrite Hr2 by (apply Hsep; by eapply list_elem_of_lookup_2).
        rewrite (Hi1 i d s Hd Hs).
        apply (Forall2_lookup_lr _ _ _ i s x Hrow Hs Hx).
    + intros a Ha. rewrite Hr2, Hr1; [done| |].
      * intros Hin%new_buffer_ge. lia.
      * intros Hin%Hold. lia.
    + done.
    + congruence.
Qed.

(** The inner loop: the fields of one tuple. *)
Lemma fill_row_spec b0 fields : ∀ v τ vals,
  consistent (shadow τ) →
  allocated τ →
  vec_ok b0 v τ →
  (b0 ≤ brk τ)%N →
  row_holds (shadow τ) (elements v) vals →
  let r := fill_row grow fields v τ in
  consistent (shadow r.2) ∧ allocated r.2 ∧ (brk τ ≤ brk r.2)%N
  ∧ row_holds (shadow r.2) (elements r.1) (vals ++ fields)
  ∧ Forall (λ a, (a < brk r.2)%N) (elements r.1)
  ∧ (∀ a, (a < b0)%N → resolve (shadow r.2) a = resolve (shadow τ) a).
Proof using grow_more.
  induction fields as [|f rest IH]; intros v τ vals Hc Hdom Hv Hb Hrow;
    cbn [fill_row].
  - cbv zeta. cbn [fst snd]. rewrite app_nil_r. destruct Hv as (Hsz & Hcap & _ & _).
    split; [done|]. split; [done|]. split; [lia|]. split; [done|].
    split; [|done].
    apply Forall_forall. intros a Ha%new_buffer_lt. lia.
  - destruct (new_object (shadow τ) f Hc) as (Hp & Hc0 & Hv0 & Hr0 & Hu0 & Ho0).
    cbv zeta in Hp, Hc0, Hv0, Hr0, Hu0, Ho0.
    destruct (rc.new f (objects (shadow τ))) as [p os] eqn:Hnew.
    cbn [fst snd] in Hp, Hc0, Hv0, Hr0, Hu0, Ho0. subst p.
    set (p := fresh (dom (objects (shadow τ)))) in *.
    set (τ0 := with_shadow (with_objects (λ _, os)) τ).
    assert (Hrow0 : row_holds (shadow τ0) (elements v) vals).
    { eapply Forall2_impl; [exact Hrow|]. intros a x Hx. simpl in Hx.
      simpl. by rewrite Hr0. }
    assert (Hdom0 : allocated τ0).
    { intros a Ha. apply Hdom. exact Ha. }
    assert (Hvec0 : vec_ok b0 v τ0).
    { destruct Hv as (Hsz & Hcap & Hb0 & Hslots).
      split; [done|]. split; [done|]. split; [done|].
      intros i Hi. by apply Hslots. }
    destruct (emplace_back_spec b0 v τ0 vals p f Hc0 Hdom0 Hvec0 Hb Hrow0 Hu0 Ho0)
      as (E1 & E2 & E3 & E4 & E5 & E6 & E7 & E8 & E9 & E10 & E11 & E12).
    cbv zeta in E1, E2, E3, E4, E5, E6, E7, E8, E9, E10, E11, E12.
    destruct (emplace_back grow v τ0) as [v1 τ1].
    cbn [fst snd] in E1, E2, E3, E4, E5, E6, E7, E8, E9, E10, E11, E12.
    assert (Hback : back v1 = (base v1 + N.of_nat (size v))%N).
    { unfold back. rewrite E1. do 2 f_equal. lia. }
    rewrite Hback.
    assert (Hfree : variants (shadow τ1) !! (base v1 + N.of_nat (size v))%N = None).
    { apply E8. lia. }
    destruct (insert_new (shadow τ1) _ p f Hfree E2 E11 E12)
      as (I1 & I2 & I3 & I4).
    set (τ2 := with_shadow
                 (Shadow.insert (base v1 + N.of_nat (size v))%N (mk_variant (Some p)))
                 τ1).
    destruct (IH v1 τ2 (vals ++ [f])) as (R1 & R2 & R3 & R4 & R5 & R6).
    + exact I1.
    + intros a Ha. simpl in Ha. rewrite I2 in Ha.
      apply lookup_insert_is_Some in Ha as [<-|[_ Ha]]; [simpl; lia|].
      by apply E3.
    + split; [done|]. split; [done|]. split; [by right|].
      intros i Hi. simpl. rewrite I2, lookup_insert_ne by lia.
      apply E8. lia.
    + simpl. lia.
    + unfold elements. rewrite E1, new_buffer_S. apply Forall2_app.
      * apply Forall2_same_length_lookup.
        split; [by apply Forall2_length in E9|].
        intros i a x Ha Hx. simpl. rewrite I4.
        -- apply (Forall2_lookup_lr _ _ _ i a x E9 Ha Hx).
        -- apply new_buffer_lookup in Ha as [-> Hi]. lia.
      * constructor; [exact I3|constructor].
    + assert (Hb2 : brk τ2 = brk τ1) by done.
      assert (Hb0' : brk τ0 = brk τ) by done.
      split; [done|]. split; [done|]. split; [lia|].
      split; [by rewrite <- app_assoc in R4|]. split; [done|].
      intros a Ha. rewrite R6 by done. simpl. rewrite I4 by lia.
      rewrite E10 by done. simpl. apply Hr0.
Qed.

Lemma rows_hold_frame σ σ' (b : N) rows : ∀ children,
  rows_hold σ rows children →
  Forall (Forall (λ a, (a < b)%N)) rows →
  (∀ a, (a < b)%N → resolve σ' a = resolve σ a) →
  rows_hold σ' rows children.
Proof.
  unfold rows_hold, row_holds.
  induction rows as [|row rows IH]; intros children Hrows Hb Hframe;
    inversion Hrows as [|?? c cs Hrow Hrest]; subst; [constructor|].
  inversion Hb as [|?? Hrb Hbs]; subst.
  constructor; [|by apply IH].
  apply Forall2_same_length_lookup. split; [by apply Forall2_length in Hrow|].
  intros i a x Ha Hx. rewrite Hframe.
  - apply (Forall2_lookup_lr _ _ _ i a x Hrow Ha Hx).
  - rewrite Forall_forall in Hrb. apply Hrb. by eapply list_elem_of_lookup_2.
Qed.

(** The outer loop: the children of the array. *)
Lemma fill_rows_spec children : ∀ arr τ done,
  consistent (shadow τ) →
  allocated τ →
  rows_hold (shadow τ) arr done →
  Forall (Forall (λ a, (a < brk τ)%N)) arr →
  let r := fill_rows grow children arr τ in
  consistent (shadow r.2) ∧ allocated r.2
  ∧ rows_hold (shadow r.2) r.1
      (done ++ List.filter g_variant_is_container children)
  ∧ Forall (Forall (λ a, (a < brk r.2)%N)) r.1.
Proof using grow_more.
  induction children as [|c children IH]; intros arr τ done Hc Hdom Hrows Hb;
    cbn [fill_rows List.filter].
  - cbv zeta. cbn [fst snd]. by rewrite app_nil_r.
  - destruct (g_variant_is_container c); [|by apply IH].
    destruct (fill_row_spec (brk τ) (g_variant_children c) vector_empty τ [])
      as (R1 & R2 & R3 & R4 & R5 & R6); try done.
    { split; [done|]. split; [simpl; lia|]. split; [by left|].
      intros i Hi. simpl in Hi. lia. }
    { constructor. }
    destruct (fill_row grow (g_variant_children c) vector_empty τ) as [row τ1].
    cbn [fst snd] in R1, R2, R3, R4, R5, R6.
    destruct (IH (arr ++ [elements row]) τ1 (done ++ [c])) as (I1 & I2 & I3 & I4).
    + done.
    + done.
    + apply Forall2_app.
      * by apply (rows_hold_frame (shadow τ) (shadow τ1) (brk τ)).
      * constructor; [exact R4|constructor].
    + apply Forall_app. split.
      * eapply Forall_impl; [exact Hb|]. intros l Hl.
        eapply Forall_impl; [exact Hl|]. intros a Ha. simpl in Ha. lia.
      * constructor; [exact R5|constructor].
    + split; [done|]. split; [done|]. split; [|done].
      by rewrite <- app_assoc in I3.
Qed.

(** The whole of [unmarshal(TYPE_ATUP, ...)]. *)
Lemma unmarshal_ATUP_spec (g : GVariant) (arr : list (list N)) (τ : Tuple.state) :
  consistent (shadow τ) →
  allocated τ →
  let r := unmarshal_ATUP grow g arr τ in
  r.1.1 = g_variant_type_is_array g
  ∧ rows_hold (shadow r.2) r.1.2 (decoded_children g)
  ∧ consistent (shadow r.2)
  ∧ allocated r.2
  ∧ Forall (Forall (λ a, (a < brk r.2)%N)) r.1.2.
Proof using grow_more.
  intros Hc Hdom r. subst r. unfold unmarshal_ATUP, decoded_children.
  destruct (release_spec arr (shadow τ) Hc) as [Hc0 Hd0].
  set (τ0 := with_shadow (release (n_tuple_arr arr)) τ).
  assert (Hdom0 : allocated τ0).
  { intros a Ha. apply Hdom. by apply Hd0. }
  destruct (g_variant_type_is_array g).
  - destruct (fill_rows_spec (g_variant_children g) [] τ0 [] Hc0 Hdom0)
      as (R1 & R2 & R3 & R4); [constructor|constructor|].
    destruct (fill_rows grow (g_variant_children g) [] τ0) as [rows τ1].
    cbn [fst snd] in *. done.
  - cbn [fst snd]. split; [done|]. split; [constructor|]. done.
Qed.

End growth.


End atup_facts.

Section atup_examples.
Import Shadow Inv Tuple Atup.

Lemma double_or_one_more n : (n < Scenario.double_or_one n)%nat.
Proof. unfold Scenario.double_or_one. lia. Qed.

Lemma no_variants_consistent : consistent (shadow Scenario.no_variants).
Proof. intros p. simpl. rewrite refs_empty. lia. Qed.

Lemma no_variants_allocated : allocated Scenario.no_variants.
Proof. intros a [v Hv]. simpl in Hv. by rewrite lookup_empty in Hv. Qed.


(** The two rows of the reply, as the decoder places them: the vector of
    a row holds one element, grows to two, and the row is copied into the
    array. *)
Example interfaces_rows :
  (unmarshal_ATUP Scenario.double_or_one Scenario.interfaces []
     Scenario.no_variants).1 = (true, [[1001; 1002]; [1004; 1005]]%N).
Proof. vm_compute. reflexivity. Qed.

End atup_examples.

(** ** From a reply to the members of a tuple *)

Section row_facts.
Import Shadow Inv Tuple Fields Atup.

Lemma field_ctor_entry this : ∀ ms τ0,
  curTuple τ0 = this →
  ms ≠ [] ∨ is_Some (tuples τ0 !! this) →
  is_Some (tuples (foldl (λ s m, GDBusTuple.field_ctor m.1 m.2 s) τ0 ms) !! this).
Proof.
  induction ms as [|[g fh] ms IH]; intros τ0 Hcur Hor; cbn [foldl].
  - by destruct Hor.
  - apply IH.
    + by destruct g.
    + right. destruct g; cbn [GDBusTuple.field_ctor fst snd];
        unfold GDBusTuple.pint, GDBusTuple.pdouble, GDBusTuple.pbool,
          GDBusTuple.pstring, addField; cbn [tuples]; rewrite Hcur, lookup_insert_eq;
        by eexists.
Qed.

Context `{GLibExt}.

(** X30: the way a client reads an array reply. The reply is decoded by
    [unmarshal(TYPE_ATUP, ...)], an object of a class derived from
    [GDBusTuple] is constructed, and the row [i] is assigned to it; then
    the conversion of its member [j] gives the scalar of the field [j] of
    the [i]-th tuple of the reply (the default of the type when the field
    is of another type), and leaves the state as the assignment left it. *)
Theorem reply_row_reads (grow : nat → nat) (g : GVariant) (arr : list (list N))
    (this : N) (members : list (getter_t * N)) (i j : nat) (child x : GVariant)
    (gt : getter_t) (fh ret : N) (τ : Tuple.state) :
  (∀ n, (n < grow n)%nat) →
  consistent (shadow τ) →
  allocated τ →
  NoDup members.*2 →
  members !! j = Some (gt, fh) →
  decoded_children g !! i = Some child →
  g_variant_children child !! j = Some x →
  (brk (unmarshal_ATUP grow g arr τ).2
     + N.of_nat (length (g_variant_children child)) ≤ ret)%N →
  let r := unmarshal_ATUP grow g arr τ in
  let τ1 := GDBusTuple.derived_ctor this members r.2 in
  ∃ row, r.1.2 !! i = Some row
    ∧ let τ2 := (GDBusTuple.assign this row τ1).2 in
      pint_to_int fh ret τ2 = (int_of (Some x), τ2)
      ∧ pdouble_to_double fh ret τ2 = (double_of (Some x), τ2)
      ∧ pbool_to_bool fh ret τ2 = (bool_of (Some x), τ2)
      ∧ pstring_to_string fh ret τ2 = (string_of (Some x), τ2).
Proof.
  intros Hgrow Hc Hdom Hnd Hm Hchild Hx Hret r τ1.
  destruct (unmarshal_ATUP_spec grow Hgrow g arr τ Hc Hdom)
    as (_ & Hrows & Hc' & Hdom' & Hb).
  fold r in Hrows, Hc', Hdom', Hb, Hret.
  destruct (Forall2_lookup_r _ _ _ _ _ Hrows Hchild) as (row & Hrow & Hholds).
  destruct (Forall2_lookup_r _ _ _ _ _ Hholds Hx) as (a & Ha & Hres).
  destruct (derived_ctor_spec this members r.2) as (C1 & C2 & C3 & C4 & _ & _ & C7).
  fold τ1 in C1, C2, C3, C4, C7.
  assert (Hentry : tuples τ1 !! this =
            Some {| vars := []; getters := members.*1; handles := members.*2 |}).
  { destruct (field_ctor_entry this members (GDBusTuple.ctor this r.2) eq_refl)
      as [t Ht]; [left; by destruct members|].
    fold (GDBusTuple.derived_ctor this members r.2) in Ht. fold τ1 in Ht.
    rewrite Ht in C4. simpl in C4. by rewrite Ht, C4. }
  exists row. split; [done|]. intros τ2.
  destruct (assign_read_spec this row _ j fh (mk_field_ptr this gt) a ret τ1 Hentry)
    as [Hfree Hsrc].
  - done.
  - simpl. by rewrite list_lookup_fmap, Hm.
  - apply C7; [done|]. by eapply list_elem_of_lookup_2.
  - done.
  - done.
  - by rewrite C2.
  - intros b Hb'. rewrite C3. apply Hdom'. by rewrite <- C2.
  - rewrite C3. rewrite Forall_forall in Hb. apply Hb.
    by eapply list_elem_of_lookup_2.
  - constructor.
  - rewrite C3. apply Forall2_length in Hholds. by rewrite Hholds.
  - fold τ2 in Hfree, Hsrc.
    pose proof (conversions_spec fh ret τ2 Hfree) as Hconv.
    cbv zeta in Hconv. rewrite Hsrc, C2, Hres in Hconv. exact Hconv.
Qed.

End row_facts.

Section row_examples.
Import Shadow Inv Tuple Fields Atup.

(** X30 on the reply [interfaces] and the tuple [SITuple] built at 100:
    the member [value], at 102, of the second row. *)
Lemma reply_row_reads_witness :
  let r := unmarshal_ATUP Scenario.double_or_one Scenario.interfaces []
             Scenario.no_variants in
  let τ1 := GDBusTuple.derived_ctor 100 Scenario.si_members r.2 in
  ∃ row, r.1.2 !! 1%nat = Some row
    ∧ let τ2 := (GDBusTuple.assign (H:=Sample.glib) 100 row τ1).2 in
      pint_to_int 102 5000 τ2 = (int_of (Some (GInt32 9)), τ2)
      ∧ pdouble_to_double 102 5000 τ2 = (double_of (Some (GInt32 9)), τ2)
      ∧ pbool_to_bool 102 5000 τ2 = (bool_of (Some (GInt32 9)), τ2)
      ∧ pstring_to_string 102 5000 τ2 = (string_of (Some (GInt32 9)), τ2).
Proof.
  apply (reply_row_reads (H:=Sample.glib) Scenario.double_or_one
           Scenario.interfaces [] 100 Scenario.si_members 1 1
           (GTuple [GString "wlan0"; GInt32 9]) (GInt32 9) strInt 102 5000
           Scenario.no_variants).
  - exact double_or_one_more.
  - exact no_variants_consistent.
  - exact no_variants_allocated.
  - apply NoDup_cons. split; [|apply NoDup_singleton].
    rewrite list_elem_of_singleton. done.
  - reflexivity.
  - reflexivity.
  - reflexivity.
  - vm_compute. discriminate.
Defined.

End row_examples.

(** ** The vector of a tuple: every branch of its copy assignment *)

Section vars_facts.
Import Shadow Inv Tuple Atup Vars.

Lemma new_buffer_lookup_lt b n i :
  (i < n)%nat → new_buffer b n !! i = Some (b + N.of_nat i)%N.
Proof.
  intros Hi. unfold new_buffer. rewrite list_lookup_fmap, lookup_seq_lt by done.
  done.
Qed.

Lemma elem_of_new_buffer b n a :
  a ∈ new_buffer b n ↔ (b ≤ a < b + N.of_nat n)%N.
Proof.
  split.
  - intros Ha. split; [by eapply new_buffer_ge|by apply new_buffer_lt].
  - intros [Hge Hlt]. apply (list_elem_of_lookup_2 _ (N.to_nat (a - b))).
    rewrite new_buffer_lookup_lt by lia. f_equal. lia.
Qed.

(** [operator=] between two different handles. *)
Lemma assign_step σ d s :
  d ≠ s →
  consistent σ →
  consistent (GDBusVariant.assign d s σ)
  ∧ variants (GDBusVariant.assign d s σ) =
      <[d := default (mk_variant None) (variants σ !! s)]> (delete d (variants σ))
  ∧ ∀ a, resolve (GDBusVariant.assign d s σ) a =
         if decide (a = d) then resolve σ s else resolve σ a.
Proof.
  intros Hne Hc. rewrite assign_is_dtor_then_copy.
  destruct (dtor_step σ d Hc) as (Hc1 & Hv1 & Hr1).
  destruct (ctor_copy_step (GDBusVariant.dtor d σ) d s) as (Hc2 & Hv2 & Hr2).
  { by rewrite Hv1, lookup_delete_eq. }
  { done. }
  split; [done|]. split.
  - rewrite Hv2, Hv1, lookup_delete_ne by done. done.
  - intros a. rewrite Hr2. case_decide as Ha.
    + apply Hr1. congruence.
    + by apply Hr1.
Qed.

(** Elements assigned in place, from handles that are not among them. *)
Lemma assign_elements_spec dst : ∀ src σ,
  length dst = length src →
  NoDup dst →
  (∀ d, d ∈ dst → d ∉ src) →
  consistent σ →
  consistent (assign_elements dst src σ)
  ∧ (∀ a, a ∉ dst → resolve (assign_elements dst src σ) a = resolve σ a)
  ∧ (∀ i d s, dst !! i = Some d → src !! i = Some s →
       resolve (assign_elements dst src σ) d = resolve σ s)
  ∧ (∀ a, is_Some (variants (assign_elements dst src σ) !! a)
          ↔ a ∈ dst ∨ is_Some (variants σ !! a)).
Proof.
  induction dst as [|d dst IH]; intros [|s src] σ Hlen Hnd Hsep Hc;
    simplify_eq/=.
  - split; [done|]. split; [done|]. split.
    + intros i ?? Hi. by rewrite lookup_nil in Hi.
    + intros a. rewrite elem_of_nil. split; [by right|by intros [[]|?]].
  - inversion Hnd as [|?? Hd Hnd']; subst.
    assert (Hds : d ≠ s).
    { intros ->. apply (Hsep s); by left. }
    destruct (assign_step σ d s Hds Hc) as (Hc1 & Hv1 & Hr1).
    destruct (IH src (GDBusVariant.assign d s σ)) as (Hc2 & Hf2 & Hi2 & Hd2);
      try done.
    { intros d' Hd' Hin. apply (Hsep d'); by right. }
    unfold assign_elements in *. cbn [zip zip_with foldl fst snd].
    split; [done|]. split; [|split].
    + intros a Ha. apply not_elem_of_cons in Ha as [Had Ha].
      rewrite Hf2 by done. by rewrite Hr1, decide_False.
    + intros [|i] d' s' Hd' Hs'; simplify_eq/=.
      * rewrite Hf2 by done. by rewrite Hr1, decide_True.
      * rewrite (Hi2 i d' s') by done. rewrite Hr1, decide_False; [done|].
        intros ->. apply (Hsep d); [by left|].
        right. by eapply list_elem_of_lookup_2.
    + intros a. rewrite Hd2, Hv1, elem_of_cons.
      destruct (decide (a = d)) as [->|Hne].
      * rewrite lookup_insert_eq. split; [intros _; by left; left|eauto].
      * rewrite lookup_insert_ne, lookup_delete_ne by done.
        split; [intros [?|?]; [left; by right|by right]|].
        intros [[?|?]|?]; [done|by left|by right].
Qed.

Lemma elements_storage v a :
  (size v ≤ capacity v)%nat → a ∈ elements v → a ∈ storage v.
Proof.
  unfold elements, storage. rewrite !elem_of_new_buffer. lia.
Qed.

(** The copy assignment of the vector, in each of its branches. *)
Lemma copy_assign_spec v src τ :
  consistent (shadow τ) →
  allocated τ →
  vec_ok 0 v τ →
  Forall (λ a, (a < brk τ)%N) src →
  (∀ a, a ∈ src → a ∉ storage v) →
  let r := copy_assign v src τ in
  consistent (shadow r.2)
  ∧ allocated r.2
  ∧ vec_ok 0 r.1 r.2
  ∧ size r.1 = length src
  ∧ (∀ i d a, elements r.1 !! i = Some d → src !! i = Some a →
       resolve (shadow r.2) d = resolve (shadow τ) a)
  ∧ (∀ a, (a < brk τ)%N → a ∉ storage v →
       resolve (shadow r.2) a = resolve (shadow τ) a)
  ∧ (brk τ ≤ brk r.2)%N
  ∧ if decide (capacity v < length src)%nat
    then r.2 = (vector_assign (elements v) src τ).2
         ∧ elements r.1 = (vector_assign (elements v) src τ).1
         ∧ (∀ a, a ∈ elements v → variants (shadow r.2) !! a = None)
    else base r.1 = base v ∧ capacity r.1 = capacity v ∧ brk r.2 = brk τ.
Proof.
  intros Hc Hdom Hv Hsrc Hsep r. subst r.
  pose proof Hv as (Hsz & Hcap & _ & Hspare).
  assert (Hst : ∀ a, a ∈ storage v → (a < brk τ)%N).
  { intros a. unfold storage. rewrite elem_of_new_buffer. lia. }
  unfold copy_assign. cbv zeta.
  destruct (decide (src = elements v)) as [Hself|Hself].
  { (* the vector itself, which can only be empty here *)
    assert (src = []) as ->.
    { destruct src as [|a src]; [done|]. exfalso. apply (Hsep a); [by left|].
      apply elements_storage; [done|]. rewrite <- Hself. by left. }
    assert (size v = O) as Hz.
    { apply (f_equal length) in Hself. unfold elements in Hself.
      by rewrite new_buffer_length in Hself. }
    cbn [fst snd length]. split; [done|]. split; [done|]. split; [done|].
    split; [done|]. split; [by intros i d a _ Hi|]. split; [done|].
    split; [lia|]. rewrite decide_False by lia. done. }
  destruct (decide (capacity v < length src)%nat) as [Hgrow|Hfits].
  - (* a new buffer *)
    assert (Hold : Forall (λ a, (a < brk τ)%N) (elements v)).
    { apply Forall_forall. intros a Ha. by apply Hst, elements_storage. }
    destruct (vector_assign_spec (elements v) src τ Hc Hdom Hsrc Hold)
      as (Hnew & Hc' & Hdom' & Hbrk & Hres & Hkeep & Hgone).
    cbn [fst snd]. split; [done|]. split; [done|]. split.
    { split; [done|]. split; [simpl; lia|]. split; [right; lia|].
      intros i Hi. simpl in Hi. lia. }
    split; [done|]. split.
    { intros i d a Hd Ha. apply (Hres i); [|done]. by rewrite Hnew. }
    split.
    { intros a Ha Hno. apply Hkeep; [done|]. intros Hin. apply Hno.
      by apply elements_storage. }
    split; [lia|]. split; [done|]. split; [by rewrite Hnew|done].
  - destruct (decide (length src ≤ size v)%nat) as [Hshrink|Hmore].
    + (* the first elements are assigned, the others destroyed *)
      set (n := length src) in *.
      set (dst := new_buffer (base v) n).
      set (rest := new_buffer (base v + N.of_nat n) (size v - n)).
      destruct (assign_elements_spec dst src (shadow τ)) as (A1 & A2 & A3 & A4).
      { apply new_buffer_length. }
      { apply new_buffer_NoDup. }
      { intros d Hd Hin. apply (Hsep d Hin). unfold storage.
        apply elem_of_new_buffer in Hd. apply elem_of_new_buffer. lia. }
      { done. }
      set (σ1 := assign_elements dst src (shadow τ)) in *.
      destruct (destroy_elements_spec rest σ1 A1) as (D1 & D2).
      pose proof (λ a, destroy_elements_dom rest σ1 a A1) as D3.
      cbn [fst snd]. split; [done|]. split.
      { intros a Ha. simpl in Ha. rewrite D3 in Ha.
        case_decide as Hr; [by destruct Ha|].
        apply A4 in Ha as [Hin|Hin]; [|by apply Hdom].
        apply elem_of_new_buffer in Hin. simpl. lia. }
      split.
      { split; [simpl; lia|]. split; [done|]. split; [right; lia|].
        intros i Hi. simpl in Hi. simpl. rewrite D3.
        case_decide as Hr; [done|]. apply eq_None_not_Some.
        intros [Hin|Hin]%A4.
        - apply elem_of_new_buffer in Hin. lia.
        - destruct (decide (i < size v)%nat) as [Hlt|Hge].
          + apply Hr, elem_of_new_buffer. lia.
          + rewrite Hspare in Hin by lia. by destruct Hin. }
      split; [done|]. split.
      { intros i d a Hd Ha. simpl. simpl in Hd.
        unfold elements in Hd. simpl in Hd.
        pose proof (new_buffer_lookup _ _ _ _ Hd) as [-> Hi].
        rewrite D2; [by apply (A3 i)|].
        unfold rest. rewrite elem_of_new_buffer. lia. }
      split.
      { intros a Ha Hno. simpl. unfold storage in Hno.
        rewrite elem_of_new_buffer in Hno.
        rewrite D2 by (unfold rest; rewrite elem_of_new_buffer; lia).
        apply A2. unfold dst. rewrite elem_of_new_buffer. lia. }
      split; [simpl; lia|]. done.
    + (* the elements are assigned, the missing ones constructed *)
      set (n := length src) in *.
      set (extra := new_buffer (base v + N.of_nat (size v)) (n - size v)).
      destruct (assign_elements_spec (elements v) (take (size v) src) (shadow τ))
        as (A1 & A2 & A3 & A4).
      { unfold elements. rewrite new_buffer_length, length_take. lia. }
      { apply new_buffer_NoDup. }
      { intros d Hd Hin. apply (Hsep d); [by eapply subseteq_take|].
        by apply elements_storage. }
      { done. }
      set (σ1 := assign_elements (elements v) (take (size v) src) (shadow τ)) in *.
      assert (Hfresh : ∀ d, d ∈ extra → variants σ1 !! d = None).
      { intros d Hd. apply elem_of_new_buffer in Hd.
        apply eq_None_not_Some. intros [Hin|Hin]%A4.
        - unfold elements in Hin. apply elem_of_new_buffer in Hin. lia.
        - assert (Hs : variants (shadow τ) !! d = None).
          { replace d with (base v + N.of_nat (N.to_nat (d - base v)))%N by lia.
            apply Hspare. lia. }
          rewrite Hs in Hin. by destruct Hin. }
      assert (Hlen : length extra = length (drop (size v) src)).
      { unfold extra. by rewrite new_buffer_length, length_drop. }
      destruct (copy_elements_spec extra (drop (size v) src) σ1) as (C1 & C2 & C3).
      { done. }
      { apply new_buffer_NoDup. }
      { done. }
      { intros d Hd Hin. apply (Hsep d); [by eapply subseteq_drop|].
        unfold storage. apply elem_of_new_buffer in Hd.
        apply elem_of_new_buffer. lia. }
      { done. }
      pose proof (copy_elements_dom extra (drop (size v) src) σ1 Hlen
                    (new_buffer_NoDup _ _) Hfresh A1) as C4.
      cbn [fst snd]. split; [done|]. split.
      { intros a Ha. simpl in Ha. apply C4 in Ha as [Hin|Hin].
        - apply elem_of_new_buffer in Hin. simpl. lia.
        - apply A4 in Hin as [Hin|Hin]; [|by apply Hdom].
          by apply Hst, elements_storage. }
      split.
      { split; [simpl; lia|]. split; [done|]. split; [right; lia|].
        intros i Hi. simpl in Hi. simpl. apply eq_None_not_Some.
        intros [Hin|Hin]%C4.
        - apply elem_of_new_buffer in Hin. lia.
        - apply A4 in Hin as [Hin|Hin].
          + unfold elements in Hin. apply elem_of_new_buffer in Hin. lia.
          + rewrite Hspare in Hin by lia. by destruct Hin. }
      split; [done|]. split.
      { intros i d a Hd Ha. simpl. simpl in Hd.
        unfold elements in Hd. simpl in Hd.
        pose proof (new_buffer_lookup _ _ _ _ Hd) as [-> Hi].
        destruct (decide (i < size v)%nat) as [Hlt|Hge].
        - rewrite C2 by (unfold extra; rewrite elem_of_new_buffer; lia).
          apply (A3 i).
          + unfold elements. by apply new_buffer_lookup_lt.
          + by rewrite lookup_take_lt.
        - rewrite (C3 (i - size v)%nat _ a).
          + apply A2. intros Hin. apply (Hsep a).
            * by eapply list_elem_of_lookup_2.
            * by apply elements_storage.
          + unfold extra. rewrite new_buffer_lookup_lt by lia. f_equal. lia.
          + rewrite lookup_drop. rewrite <- Ha. f_equal. lia. }
      split.
      { intros a Ha Hno. simpl. unfold storage in Hno.
        rewrite elem_of_new_buffer in Hno.
        rewrite C2 by (unfold extra; rewrite elem_of_new_buffer; lia).
        apply A2. unfold elements. rewrite elem_of_new_buffer. lia. }
      split; [simpl; lia|]. done.
Qed.

Context `{GLibExt}.

Lemma tuple_assign_unfold v gs hs variants τ :
  let c := copy_assign v variants τ in
  tuple_assign v gs hs variants τ =
    ((bool_decide ((toString {| vars := elements c.1; getters := gs;
                                handles := hs |} (shadow c.2)).1 ≠ ""), c.1), c.2).
Proof.
  intros c. unfold tuple_assign. fold c. destruct c as [v1 τ1]. cbn [fst snd].
  pose proof (toString_spec {| vars := elements v1; getters := gs; handles := hs |}
                (shadow τ1)) as [Hs _].
  destruct (toString _ (shadow τ1)) as [s σ2]. cbn [fst snd] in *. subst σ2.
  by rewrite with_shadow_same.
Qed.

Lemma assign_unfold variants t τ :
  let va := vector_assign (vars t) variants τ in
  Tuple.assign variants t τ =
    ((bool_decide ((toString {| vars := va.1; getters := getters t;
                                handles := handles t |} (shadow va.2)).1 ≠ ""),
      {| vars := va.1; getters := getters t; handles := handles t |}), va.2).
Proof.
  intros va. unfold Tuple.assign. fold va. destruct va as [new τ1]. cbn [fst snd].
  pose proof (toString_spec {| vars := new; getters := getters t;
                               handles := handles t |} (shadow τ1)) as [Hs _].
  destruct (toString _ (shadow τ1)) as [s σ2]. cbn [fst snd] in *. subst σ2.
  by rewrite with_shadow_same.
Qed.

(** X6: [tuple_t::assign] keeps what it needs to be called again, in
    every branch of the copy assignment of its vector. The vector [vars]
    is [v], with its buffer within the allocated addresses and no entry in
    its spare slots; the variants are not in that buffer. Then the side
    table is again consistent and within the allocated addresses, the
    vector is again of that kind and has one element for each variant,
    which resolves to what the variant resolves to, and every handle
    outside the buffer resolves to what it did. The result is true exactly
    when there is one variant for each getter and each getter extracts its
    type from the variant at its position. When the capacity was too small
    the elements are in a new buffer and the old ones have no entry left:
    this is the branch that [Tuple.assign] follows, and the two agree.
    Otherwise the buffer is the same and nothing is allocated. *)
Theorem assign_keeps_invariants (v : vector) (gs : list getter_t) (hs : list N)
    (variants : list N) (τ : Tuple.state) :
  consistent (shadow τ) →
  allocated τ →
  vec_ok 0 v τ →
  Forall (λ a, (a < brk τ)%N) variants →
  (∀ a, a ∈ variants → a ∉ storage v) →
  let r := tuple_assign v gs hs variants τ in
  let v' := r.1.2 in
  let τ' := r.2 in
  consistent (shadow τ')
  ∧ allocated τ'
  ∧ vec_ok 0 v' τ'
  ∧ Forall (λ a, (a < brk τ')%N) variants
  ∧ (∀ a, a ∈ variants → a ∉ storage v')
  ∧ Forall2 (λ d a, resolve (shadow τ') d = resolve (shadow τ) a)
      (elements v') variants
  ∧ (∀ a, (a < brk τ)%N → a ∉ storage v →
       resolve (shadow τ') a = resolve (shadow τ) a)
  ∧ (r.1.1 = true ↔
       length variants = length gs
       ∧ ∀ i g a, gs !! i = Some g → variants !! i = Some a →
           extracts g (resolve (shadow τ) a) = true)
  ∧ if decide (capacity v < length variants)%nat
    then
      let r0 := Tuple.assign variants
                  {| vars := elements v; getters := gs; handles := hs |} τ in
      r.1.1 = r0.1.1 ∧ elements v' = vars r0.1.2 ∧ τ' = r0.2
      ∧ storage v' = new_buffer (brk τ) (length variants)
      ∧ (∀ a, a ∈ elements v → Shadow.variants (shadow τ') !! a = None)
    else storage v' = storage v ∧ brk τ' = brk τ.
Proof.
  intros Hc Hdom Hv Hsrc Hsep r v' τ'. subst v' τ' r.
  destruct (copy_assign_spec v variants τ Hc Hdom Hv Hsrc Hsep)
    as (S1 & S2 & S3 & S4 & S5 & S6 & S7 & S8).
  rewrite tuple_assign_unfold. cbv zeta. cbn [fst snd].
  set (c := copy_assign v variants τ) in *.
  assert (Hlen : length (elements c.1) = length variants).
  { unfold elements. by rewrite new_buffer_length. }
  assert (Hst : if decide (capacity v < length variants)%nat
                then storage c.1 = new_buffer (brk τ) (length variants)
                else storage c.1 = storage v).
  { destruct (decide (capacity v < length variants)%nat) as [Hlt|Hge].
    - destruct S8 as (_ & E2 & _). unfold storage.
      assert (Hb : elements c.1 = new_buffer (brk τ) (length variants)) by done.
      unfold elements in Hb. rewrite S4 in Hb.
      assert (Hcap : capacity c.1 = length variants).
      { unfold c, copy_assign. cbv zeta.
        destruct (decide (variants = elements v)) as [Heq|_].
        - apply (f_equal length) in Heq. unfold elements in Heq.
          rewrite new_buffer_length in Heq. destruct Hv as [Hsz _]. lia.
        - by rewrite decide_True. }
      rewrite Hcap.
      destruct (length variants) as [|n] eqn:En; [done|].
      f_equal. apply (f_equal (λ l, default 0%N (l !! O))) in Hb.
      simpl in Hb. lia.
    - destruct S8 as (E1 & E2 & _). unfold storage. by rewrite E1, E2. }
  split; [done|]. split; [done|]. split; [done|]. split.
  { eapply Forall_impl; [exact Hsrc|]. intros a Ha. simpl in Ha. lia. }
  split.
  { intros a Ha. specialize (Hsep a Ha).
    rewrite Forall_forall in Hsrc. specialize (Hsrc a Ha).
    destruct (decide (capacity v < length variants)%nat) as [Hlt|Hge].
    - rewrite Hst, elem_of_new_buffer. lia.
    - by rewrite Hst. }
  split.
  { apply Forall2_same_length_lookup. split; [done|]. exact S5. }
  split; [done|]. split.
  { rewrite bool_decide_eq_true.
    destruct (toString_spec {| vars := elements c.1; getters := gs; handles := hs |}
                (shadow c.2)) as [_ ->].
    simpl. rewrite Hlen.
    split; intros [Hl HF]; (split; [done|]).
    - intros i g a Hg Ha.
      assert (is_Some (elements c.1 !! i)) as [d Hd].
      { apply lookup_lt_is_Some. rewrite Hlen. by eapply lookup_lt_Some. }
      rewrite Forall_lookup in HF.
      specialize (HF i (d, g)). simpl in HF.
      rewrite <- (S5 i d a Hd Ha). apply HF.
      rewrite lookup_zip_with, Hd. simpl. by rewrite Hg.
    - apply Forall_lookup. intros i [d g] Hz. simpl.
      rewrite lookup_zip_with in Hz.
      destruct (elements c.1 !! i) as [d'|] eqn:Hd; simpl in Hz; [|done].
      destruct (gs !! i) as [g'|] eqn:Hg; simpl in Hz; [|done].
      simplify_eq.
      assert (is_Some (variants !! i)) as [a Ha].
      { apply lookup_lt_is_Some. rewrite Hl. by eapply lookup_lt_Some. }
      rewrite (S5 i d a Hd Ha). by eapply HF. }
  destruct (decide (capacity v < length variants)%nat) as [Hlt|Hge].
  - destruct S8 as (E1 & E2 & E3).
    rewrite assign_unfold. cbv zeta. cbn [fst snd vars getters handles].
    split; [by rewrite E1, E2|]. split; [done|]. split; [done|]. split; [done|].
    exact E3.
  - destruct S8 as (_ & _ & E3). done.
Qed.

End vars_facts.

Section vars_examples.
Import Shadow Inv Tuple Atup Vars.

(** The vector of [SITuple] after the row ("eth0", 7) was assigned to
    it: two elements at 200 and 201, and no spare slot. *)
Lemma si_assigned_invariants :
  consistent (shadow Scenario.si_assigned) ∧ allocated Scenario.si_assigned.
Proof.
  destruct (vector_assign_spec [] [10; 11]%N Sample.si_tuple
              row_store_consistent row_store_bound)
    as (_ & Hc & Hd & _); [repeat constructor|constructor|].
  split; [exact Hc|exact Hd].
Qed.

(** X6 for a second assignment of the row to [SITuple]: the capacity
    suffices, and the two elements are assigned in place. *)
Lemma assign_keeps_invariants_witness :
  let v := {| base := 200; size := 2; capacity := 2 |} in
  let τ := Scenario.si_assigned in
  let r := tuple_assign (H:=Sample.glib) v [strString; strInt] [101; 102]%N
             [10; 11]%N τ in
  let v' := r.1.2 in
  let τ' := r.2 in
  consistent (shadow τ')
  ∧ allocated τ'
  ∧ vec_ok 0 v' τ'
  ∧ Forall (λ a, (a < brk τ')%N) [10; 11]%N
  ∧ (∀ a, a ∈ [10; 11]%N → a ∉ storage v')
  ∧ Forall2 (λ d a, resolve (shadow τ') d = resolve (shadow τ) a)
      (elements v') [10; 11]%N
  ∧ (∀ a, (a < brk τ)%N → a ∉ storage v →
       resolve (shadow τ') a = resolve (shadow τ) a)
  ∧ (r.1.1 = true ↔
       length [10; 11]%N = length [strString; strInt]
       ∧ ∀ i g a, [strString; strInt] !! i = Some g → [10; 11]%N !! i = Some a →
           extracts g (resolve (shadow τ) a) = true)
  ∧ if decide (capacity v < length [10; 11]%N)%nat
    then
      let r0 := Tuple.assign (H:=Sample.glib) [10; 11]%N
                  {| vars := elements v; getters := [strString; strInt];
                     handles := [101; 102]%N |} τ in
      r.1.1 = r0.1.1 ∧ elements v' = vars r0.1.2 ∧ τ' = r0.2
      ∧ storage v' = new_buffer (brk τ) (length [10; 11]%N)
      ∧ (∀ a, a ∈ elements v → Shadow.variants (shadow τ') !! a = None)
    else storage v' = storage v ∧ brk τ' = brk τ.
Proof.
  apply (assign_keeps_invariants (H:=Sample.glib)
           {| base := 200; size := 2; capacity := 2 |} [strString; strInt]
           [101; 102]%N [10; 11]%N Scenario.si_assigned).
  - apply si_assigned_invariants.
  - apply si_assigned_invariants.
  - split; [simpl; lia|]. split; [by vm_compute|]. split; [right; lia|].
    intros i Hi. simpl in Hi. lia.
  - repeat constructor.
  - intros a Ha Hin. unfold storage in Hin. apply elem_of_new_buffer in Hin.
    simpl in Hin. rewrite !elem_of_cons, elem_of_nil in Ha. lia.
Defined.

(** The three branches on [SITuple]: the swapped row is assigned in
    place (and the getters then fail), a row of one variant leaves one
    element and destroys the other, and a row of three variants moves the
    vector to a new buffer. *)
Example si_assigned_again :
  let v := {| base := 200; size := 2; capacity := 2 |} in
  let go row := tuple_assign (H:=Sample.glib) v [strString; strInt] [101; 102]%N
                  row Scenario.si_assigned in
  (go [11; 10]%N).1 = (false, v)
  ∧ resolve (shadow (go [11; 10]%N).2) 200 = Some (GInt32 7)
  ∧ brk (go [11; 10]%N).2 = 202%N
  ∧ (go [10]%N).1 = (false, {| base := 200; size := 1; capacity := 2 |})
  ∧ Shadow.variants (shadow (go [10]%N).2) !! 201%N = None
  ∧ (go [10; 11; 10]%N).1 = (false, {| base := 202; size := 3; capacity := 3 |})
  ∧ Shadow.variants (shadow (go [10; 11; 10]%N).2) !! 200%N = None
  ∧ brk (go [10; 11; 10]%N).2 = 205%N.
Proof. vm_compute. repeat split. Qed.

End vars_examples.
